(** * Audio bridge (Twilio media stream <-> OpenAI realtime): a shallow
    embedding of the session server and its audio pipeline.

    Sources embedded:
    - [src/src/server.ts], first module (lines 1-312): the WebSocket variant
      ([Server]): [resampleAudio], [handleOpenAIMessage], [handleTwilioAudio],
      [cleanupSession] and the Twilio connection handlers; the session
      Map, the session objects and the socket states are in [ServerWs].
    - [src/src/server.ts], second module (lines 314-778): the wrtc variant
      ([ServerRTC]): the registry handlers for [start], [stop] and [close].
    - [src/unnamed/part_000]: the float resampler and [convertAudioFormat]
      ([Part000]).
    - [src/unnamed/part_002]: [sendAudioToTwilio] and its chunking loop
      ([Part002]), and the session's handlers that call it
      ([Part002Rtc]).

    Modelling conventions.
    - A JS [number] is an IEEE-754 double: a finite one is the rational
      [Q] it denotes, and [NaN] is a value of its own ([num]).  Each
      arithmetic operation rounds its exact result to the nearest double
      ([f64], ties to even), and storing into a [Float32Array] rounds to
      the nearest single ([fround]).  Exponents are unbounded above:
      overflow to [Infinity] is not modelled (no value of the code comes
      near it); below, subnormals are rounded as IEEE does.  Signed zeros
      are not distinguished ([writeInt16LE] writes [-0] as [0]).
    - [Math.floor] and [Math.round] are exact; [Math.max(-1, Math.min(1,
      NaN))] and the rounding of [NaN] give [NaN], and
      [writeInt16LE(NaN)] writes [0] (Node's range check lets [NaN]
      through and its byte stores write [NaN & 0xff = 0]).
    - Arrays live in a heap [gmap positive arr]; [Buffer] and [Float32Array]
      are the two kinds of array.  Allocation picks a fresh location.
    - The operations that throw in Node ([new Float32Array] with a negative
      length, [Buffer.alloc] with a negative size, [readInt16LE] and
      [writeInt16LE] out of bounds or out of range) return an error.
      Reading a [Float32Array] outside its bounds yields [undefined], which
      arithmetic and stores turn into [NaN]; the model reads [NaN].
    - Memory limits ([kMaxLength]) and array lengths of [2^53] or more are
      not modelled. *)

From Stdlib Require Import ZArith QArith Qround Qminmax Qabs Qpower Lia Lqa.
From stdpp Require Import base gmap strings list.

Local Open Scope Z_scope.

(* ------------------------------------------------------------------ *)
(** ** IEEE-754 binary arithmetic *)

Definition pow2 (e : Z) : Q := Qpower 2 e.

(** [floor(log2 a)] for [a > 0] *)
Definition Qlog2_floor (a : Q) : Z :=
  let e := Z.log2 (Qnum a) - Z.log2 (Zpos (Qden a)) in
  if Qlt_le_dec a (pow2 e) then e - 1 else e.

(** Rounding to an integer, half-way cases to the even one. *)
Definition round_half_even (z : Q) : Z :=
  let f := Qfloor z in
  match (z - inject_Z f ?= 1 # 2)%Q with
  | Lt => f
  | Gt => f + 1
  | Eq => if Z.even f then f else f + 1
  end.

(** The exponent of the last significant bit of the result, for a format
    with [prec] significant bits and least exponent [emin]. *)
Definition round_exp (prec emin : Z) (q : Q) : Z :=
  Z.max (Qlog2_floor (Qabs q) - (prec - 1)) emin.

(** Round to nearest, ties to even. *)
Definition round_bin (prec emin : Z) (q : Q) : Q :=
  if Qeq_bool q 0 then q else
  let u := round_exp prec emin q in
  let r := (inject_Z (round_half_even (q / pow2 u)) * pow2 u)%Q in
  if Qeq_bool r q then q else r.

(** The result of a double operation whose exact value is [q]. *)
Definition f64 (q : Q) : Q := round_bin 53 (-1074) q.

(** A store into a [Float32Array] ([Math.fround]). *)
Definition fround (q : Q) : Q := round_bin 24 (-149) q.

(** A JS number. *)
Inductive num :=
  | Fin (q : Q)
  | NaN.

(** [a + b] and [a * b] on numbers. *)
Definition nadd (a b : num) : num :=
  match a, b with
  | Fin x, Fin y => Fin (f64 (x + y))
  | _, _ => NaN
  end.

Definition nmul (a b : num) : num :=
  match a, b with
  | Fin x, Fin y => Fin (f64 (x * y))
  | _, _ => NaN
  end.

(** The value a [Float32Array] holds after [a[i] = v]. *)
Definition to_f32 (v : num) : num :=
  match v with
  | Fin q => Fin (fround q)
  | NaN => NaN
  end.

(* ------------------------------------------------------------------ *)
(** ** JS number helpers *)

(** [Math.floor] *)
Definition js_floor (x : Q) : Z := Qfloor x.

(** [Math.round]: rounds half-way cases towards +infinity. *)
Definition js_round (x : Q) : Z := Qfloor (x + (1 # 2)).

(** [Math.max(-1, Math.min(1, s))] *)
Definition clamp (s : Q) : Q := Qmax (-1) (Qmin 1 s).

(** [ToIndex] as used by the [Float32Array] constructor: truncation
    towards zero, [RangeError] on a negative result. *)
Inductive js_error :=
  | RangeError
  | ErrOutOfRange
  | TypeMismatch.

Definition to_index (x : Q) : js_error + nat :=
  let z := if Qlt_le_dec x 0 then - Qfloor (- x) else Qfloor x in
  if z <? 0 then inl RangeError else inr (Z.to_nat z).

(* ------------------------------------------------------------------ *)
(** ** PCM16 sample codec (per-sample expressions of the sources) *)

(** [input.readInt16LE(off)]: little-endian, sign-extended. *)
Definition int16_of_bytes (lo hi : Z) : Z :=
  let v := Z.land lo 255 + 256 * Z.land hi 255 in
  if v <? 32768 then v else v - 65536.

(** [writeInt16LE(v, off)] stores [v & 0xff] then [(v >>> 8) & 0xff]. *)
Definition le_bytes (v : Z) : list Z :=
  [Z.land v 255; Z.land (Z.shiftr v 8) 255].

(** decoding: [int16 / 32768.0] (server.ts l.108, part_002 l.293), as a
    real number; the division is exact in double and single precision
    ([decode_exact]). *)
Definition pcm16_decode (k : Z) : Q := inject_Z k / 32768.

(** encoding of server.ts l.130-131:
    [Math.round(Math.max(-1, Math.min(1, s)) * 32767)], with the product
    taken exactly. *)
Definition pcm16_encode_round (s : Q) : Z := js_round (clamp s * 32767).

(** encoding of part_000 [convertAudioFormat] (l.120-121, with
    [bitsPerSample = 16]) and of part_002 [sendAudioToTwilio] (l.334-335):
    [Math.floor(Math.max(-1, Math.min(1, s)) * 32767)], with the product
    taken exactly. *)
Definition pcm16_encode_floor (s : Q) : Z := js_floor (clamp s * 32767).

(** The same expressions as the code computes them, with a double
    product; they agree with the exact ones on every single-precision
    sample ([encode_round_f_single], [encode_floor_f_single]). *)
Definition pcm16_encode_round_f (s : Q) : Z := js_round (f64 (clamp s * 32767)).

Definition pcm16_encode_floor_f (s : Q) : Z := js_floor (f64 (clamp s * 32767)).

(** The value [writeInt16LE] receives for the sample [v]: [enc] of a
    finite sample, and [NaN] (written as 0) for [NaN]. *)
Definition pcm16_of (enc : Q -> Z) (v : num) : Z :=
  match v with
  | Fin s => enc s
  | NaN => 0
  end.

(* ------------------------------------------------------------------ *)
(** ** Heap of arrays and the state/error monad *)

Inductive arr :=
  | ABytes (b : list Z)     (* Buffer *)
  | AF32 (f : list num).    (* Float32Array *)

Abbreviation heap := (gmap positive arr).

Definition M (A : Type) := heap -> js_error + (A * heap).

Definition ret {A} (a : A) : M A := fun h => inr (a, h).
Definition bind {A B} (m : M A) (k : A -> M B) : M B :=
  fun h => match m h with inl e => inl e | inr (a, h') => k a h' end.
Definition throw {A} (e : js_error) : M A := fun _ => inl e.
Definition lift {A} (r : js_error + A) : M A :=
  fun h => match r with inl e => inl e | inr a => inr (a, h) end.

Notation "x <- m ;; k" := (bind m (fun x => k))
  (at level 100, m at next level, right associativity).
Notation "m ;;; k" := (bind m (fun _ => k))
  (at level 100, right associativity).

(** [for (let i = 0; i < n; i++) body(i)] is [forM (seq 0 n) body]. *)
Fixpoint forM (l : list nat) (body : nat -> M unit) : M unit :=
  match l with
  | [] => ret tt
  | i :: l' => body i ;;; forM l' body
  end.

Definition alloc (a : arr) : M positive :=
  fun h => let p := fresh (dom h) in inr (p, <[p := a]> h).

(** [new Float32Array(len)]: zero-filled. *)
Definition new_f32 (len : Q) : M positive :=
  n <- lift (to_index len) ;; alloc (AF32 (repeat (Fin 0) n)).

(** [Buffer.alloc(size)]: zero-filled; a negative size throws. *)
Definition buffer_alloc (size : Q) : M positive :=
  n <- lift (to_index size) ;; alloc (ABytes (repeat 0 n)).

Definition f32_length (p : positive) : M nat :=
  fun h => match h !! p with
           | Some (AF32 f) => inr (length f, h)
           | _ => inl TypeMismatch
           end.

Definition buf_length (p : positive) : M nat :=
  fun h => match h !! p with
           | Some (ABytes b) => inr (length b, h)
           | _ => inl TypeMismatch
           end.

(** The element [i] of a float array, [NaN] (from [undefined]) outside
    its bounds. *)
Definition arr_get (f : list num) (i : Z) : num :=
  if (0 <=? i) && (i <? Z.of_nat (length f)) then nth (Z.to_nat i) f NaN else NaN.

(** [a[i]] on a [Float32Array]. *)
Definition f32_get (p : positive) (i : Z) : M num :=
  fun h => match h !! p with
           | Some (AF32 f) => inr (arr_get f i, h)
           | _ => inl TypeMismatch
           end.

(** [a[i] = v] on a [Float32Array]: the value is rounded to single
    precision; an out-of-range store is ignored. *)
Definition f32_set_heap (p : positive) (i : nat) (v : num) (h : heap) : heap :=
  match h !! p with
  | Some (AF32 f) => <[p := AF32 (<[i := to_f32 v]> f)]> h
  | _ => h
  end.

Definition f32_set (p : positive) (i : nat) (v : num) : M unit :=
  fun h => match h !! p with
           | Some (AF32 _) => inr (tt, f32_set_heap p i v h)
           | _ => inl TypeMismatch
           end.

(** [buf.readInt16LE(off)]: [ERR_OUT_OF_RANGE] past the end. *)
Definition read_i16le (p : positive) (off : Z) : M Z :=
  fun h => match h !! p with
           | Some (ABytes b) =>
               if (0 <=? off) && (off + 2 <=? Z.of_nat (length b))
               then inr (int16_of_bytes (nth (Z.to_nat off) b 0)
                                        (nth (Z.to_nat off + 1) b 0), h)
               else inl ErrOutOfRange
           | _ => inl TypeMismatch
           end.

Definition write2 (b : list Z) (off : nat) (v : Z) : list Z :=
  <[S off := Z.land (Z.shiftr v 8) 255]> (<[off := Z.land v 255]> b).

Definition i16_set_heap (p : positive) (off : nat) (v : Z) (h : heap) : heap :=
  match h !! p with
  | Some (ABytes b) => <[p := ABytes (write2 b off v)]> h
  | _ => h
  end.

(** [buf.writeInt16LE(v, off)]: [ERR_OUT_OF_RANGE] when [v] is not a
    16-bit signed value or [off + 2] exceeds the length. *)
Definition write_i16le (p : positive) (v : Z) (off : Z) : M unit :=
  fun h => match h !! p with
           | Some (ABytes b) =>
               if (-32768 <=? v) && (v <=? 32767) && (0 <=? off)
                  && (off + 2 <=? Z.of_nat (length b))
               then inr (tt, i16_set_heap p (Z.to_nat off) v h)
               else inl ErrOutOfRange
           | _ => inl TypeMismatch
           end.

(* ------------------------------------------------------------------ *)
(** ** The resampler, step by step *)

(** server.ts l.106-109 (= part_002 l.291-294):
    [const inputArray = new Float32Array(input.length / 2);
     for (i < inputArray.length) inputArray[i] = input.readInt16LE(i*2) / 32768.0;] *)
Definition decode_pcm16 (input : positive) : M positive :=
  len <- buf_length input ;;
  inputArray <- new_f32 (inject_Z (Z.of_nat len) / 2) ;;
  n <- f32_length inputArray ;;
  forM (seq 0 n) (fun i =>
    k <- read_i16le input (2 * Z.of_nat i) ;;
    f32_set inputArray i (Fin (f64 (pcm16_decode k)))) ;;;
  ret inputArray.

(** The body of the interpolation loop (server.ts l.115-126,
    part_000 l.138-148), with [ratio] the double [fromRate / toRate]:
    [position = i * ratio], [index = Math.floor(position)],
    [fraction = position - index]. *)
Definition interp_step (inp : positive) (n : nat) (ratio : Q) (out : positive)
    (i : nat) : M unit :=
  let position := f64 (inject_Z (Z.of_nat i) * ratio) in
  let index := js_floor position in
  let fraction := f64 (position - inject_Z index) in
  if index + 1 <? Z.of_nat n then
    a <- f32_get inp index ;;
    b <- f32_get inp (index + 1) ;;
    f32_set out i (nadd (nmul a (Fin (f64 (1 - fraction)))) (nmul b (Fin fraction)))
  else
    a <- f32_get inp index ;;
    f32_set out i a.

(** server.ts l.111-126 (= part_002 l.296-311):
    [ratio = fromRate / toRate;
     outputLength = Math.floor(inputArray.length * (toRate / fromRate))]. *)
Definition interpolate (inp : positive) (fromRate toRate : positive) : M positive :=
  n <- f32_length inp ;;
  let ratio := f64 (Zpos fromRate # toRate) in
  let outputLength :=
    js_floor (f64 (inject_Z (Z.of_nat n) * f64 (Zpos toRate # fromRate))) in
  output <- new_f32 (inject_Z outputLength) ;;
  m <- f32_length output ;;
  forM (seq 0 m) (interp_step inp n ratio output) ;;;
  ret output.

(** server.ts l.128-134 (with [enc = pcm16_encode_round_f]) and part_002
    l.332-336 (with [enc = pcm16_encode_floor_f]):
    [const outputBuffer = Buffer.alloc(output.length * 2);
     for (i < output.length) outputBuffer.writeInt16LE(enc(output[i]), i * 2);] *)
Definition encode_pcm16 (enc : Q -> Z) (output : positive) : M positive :=
  m <- f32_length output ;;
  outputBuffer <- buffer_alloc (inject_Z (Z.of_nat m) * 2) ;;
  forM (seq 0 m) (fun i =>
    s <- f32_get output (Z.of_nat i) ;;
    write_i16le outputBuffer (pcm16_of enc s) (2 * Z.of_nat i)) ;;;
  ret outputBuffer.

(* ------------------------------------------------------------------ *)
(** ** Sockets and the messages they carry *)

(** [WebSocket.readyState] *)
Inductive readyState := CONNECTING | OPEN | CLOSING | CLOSED.

#[global] Instance readyState_eq_dec : EqDecision readyState.
Proof. solve_decision. Defined.

(** The JSON messages the servers send; a base64 payload is modelled by
    the bytes it encodes. *)
Inductive msg :=
  | MediaOut (streamSid : string) (payload : list Z) (chunk : nat)
      (* Twilio [{event: 'media', streamSid, media: {payload, chunk, ...}}] *)
  | Mark (streamSid : string) (name : string)
      (* Twilio [{event: 'mark', streamSid, mark: {name}}] *)
  | AudioIn (audio : list Z)
      (* OpenAI [{type: "audio", audio}] *)
  | ResponseCreate.
      (* OpenAI [{type: "response.create", ...}] *)

(** [buf.toString('base64')], as the bytes of [buf]. *)
Definition buf_read (p : positive) : M (list Z) :=
  fun h => match h !! p with
           | Some (ABytes b) => inr (b, h)
           | _ => inl TypeMismatch
           end.

Module Server.
(** server.ts [resampleAudio(input: Buffer, fromRate, toRate): Buffer] *)
Definition resampleAudio (input : positive) (fromRate toRate : positive)
  : M positive :=
  inputArray <- decode_pcm16 input ;;
  output <- interpolate inputArray fromRate toRate ;;
  encode_pcm16 pcm16_encode_round_f output.
End Server.

Module Part002.
(** part_002 [resampleAudio(input: Buffer, fromRate, toRate): Float32Array] *)
Definition resampleAudio (input : positive) (fromRate toRate : positive)
  : M positive :=
  inputArray <- decode_pcm16 input ;;
  interpolate inputArray fromRate toRate.

(** [pcm16Buffer.slice(start, end)] *)
Definition slice (b : list Z) (start end_ : nat) : list Z :=
  take (end_ - start) (drop start b).

(** The offsets visited by
    [for (let offset = 0; offset < len; offset += 160)]. *)
Definition offsets (len : nat) : list nat :=
  map (fun j => 160 * j)%nat (seq 0 ((len + 159) / 160)).

(** The chunk loop of [sendAudioToTwilio] (l.340-362) over the offsets
    [offs] still to visit, run up to its next [await]: only a chunk of
    exactly 160 bytes builds a message, which takes
    [chunk: session.mediaChunkCounter++]; the socket's [readyState] is
    read at that moment, and if it is [OPEN] the message is sent and the
    call suspends on [await] (the [send], then the 20 ms timer).  The
    result is the new counter and, if the call suspended, the message sent
    and the offsets left. *)
Fixpoint send_loop (twState : readyState) (sid : string) (pcm : list Z)
    (counter : nat) (offs : list nat) : nat * option (msg * list nat) :=
  match offs with
  | [] => (counter, None)
  | offset :: offs' =>
      let chunk := slice pcm offset (Nat.min (offset + 160) (length pcm)) in
      if (length chunk =? 160)%nat then
        if decide (twState = OPEN)
        then (S counter, Some (MediaOut sid chunk counter, offs'))
        else send_loop twState sid pcm (S counter) offs'
      else send_loop twState sid pcm counter offs'
  end.

(** part_002 [sendAudioToTwilio(session, audioBuffer)] (l.316-366), from
    its call up to its first [await], on a session with stream id [sid]
    and counter [counter] whose Twilio socket is in state [twState]: the
    new counter and, if the call suspended, the message it sent and what
    it resumes with (its PCM16 buffer and the offsets left). *)
Definition sendAudioToTwilio (twState : readyState) (sid : string) (counter : nat)
    (audioBuffer : positive) : M (nat * option (msg * (list Z * list nat))) :=
  len <- buf_length audioBuffer ;;
  if (len =? 0)%nat then ret (counter, None) else
  resampled <- resampleAudio audioBuffer 24000 8000 ;;
  pcm16Buffer <- encode_pcm16 pcm16_encode_floor_f resampled ;;
  pcm <- buf_read pcm16Buffer ;;
  let '(c, r) := send_loop twState sid pcm counter (offsets (length pcm)) in
  ret (c, option_map (fun '(m, offs) => (m, (pcm, offs))) r).
End Part002.

Module Part000.
(** part_000 [resampleAudio(samples: Float32Array, fromRate, toRate)]:
    [ratio = fromRate / toRate; newLength = Math.floor(samples.length / ratio)]. *)
Definition resampleAudio (samples : positive) (fromRate toRate : positive)
  : M positive :=
  n <- f32_length samples ;;
  let ratio := f64 (Zpos fromRate # toRate) in
  let newLength := js_floor (f64 (inject_Z (Z.of_nat n) / ratio)) in
  result <- new_f32 (inject_Z newLength) ;;
  m <- f32_length result ;;
  forM (seq 0 m) (interp_step samples n ratio result) ;;;
  ret result.

(** part_000 [convertAudioFormat] towards a 16-bit configuration. *)
Definition convertAudioFormat (samples : positive) (fromRate toRate : positive)
  : M positive :=
  resampledData <- resampleAudio samples fromRate toRate ;;
  encode_pcm16 pcm16_encode_floor_f resampledData.
End Part000.

(* ------------------------------------------------------------------ *)
(** ** server.ts, first module: sessions of the WebSocket bridge *)

Module ServerWs.

(** [interface StreamSession]; sockets are named by numbers. *)
Record StreamSession := mkStreamSession {
  openaiWs : nat;
  twilioWs : nat;
  streamSid : string;
  mediaChunkCounter : nat
}.

Definition set_counter (s : StreamSession) (n : nat) : StreamSession :=
  mkStreamSession (openaiWs s) (twilioWs s) (streamSid s) n.

(** The server's state: the [sessions] Map, whose values are references
    to session objects ([objs]); the objects are shared with the
    closures of the OpenAI socket handlers, which keep them alive after
    the Map drops them.  [ready] holds each socket's [readyState],
    [buffers] the heap of arrays, [sent] every message delivered, with
    the socket it went out on. *)
Record world := mkWorld {
  sessions : gmap string nat;
  objs : gmap nat StreamSession;
  ready : gmap nat readyState;
  buffers : heap;
  sent : list (nat * msg)
}.

Definition with_sessions (m : gmap string nat) (w : world) : world :=
  mkWorld m (objs w) (ready w) (buffers w) (sent w).
Definition with_objs (m : gmap nat StreamSession) (w : world) : world :=
  mkWorld (sessions w) m (ready w) (buffers w) (sent w).
Definition with_ready (m : gmap nat readyState) (w : world) : world :=
  mkWorld (sessions w) (objs w) m (buffers w) (sent w).
Definition with_buffers (h : heap) (w : world) : world :=
  mkWorld (sessions w) (objs w) (ready w) h (sent w).
Definition with_sent (l : list (nat * msg)) (w : world) : world :=
  mkWorld (sessions w) (objs w) (ready w) (buffers w) l.

(** [ws.readyState === WebSocket.OPEN] *)
Definition is_open (w : world) (sock : nat) : bool :=
  bool_decide (ready w !! sock = Some OPEN).

(** [ws.send(m)]: the [ws] library delivers only on an open socket;
    on a closing or closed one the data is dropped. *)
Definition ws_send (sock : nat) (m : msg) (w : world) : world :=
  if is_open w sock then with_sent (sent w ++ [(sock, m)]) w else w.

(** A message from the OpenAI socket, after [JSON.parse]: an
    ['response.audio.delta'] with its [delta] ([None] when the field is
    missing or the empty string, which is falsy; [Some b] for a non-empty
    base64 string decoding to [b]), or anything else. *)
Inductive oai_msg :=
  | AudioDelta (delta : option (list Z))
  | OtherMessage.

(** [handleOpenAIMessage(message, session)] (l.190-216), [session] being
    the object [r]; [inl] is an exception. *)
Definition handleOpenAIMessage (m : oai_msg) (r : nat) (w : world)
    : js_error + world :=
  match m with
  | AudioDelta (Some delta) =>
      match objs w !! r with
      | None => inl TypeMismatch
      | Some s =>
          match (audioBuffer <- alloc (ABytes delta) ;;
                 convertedAudio <- Server.resampleAudio audioBuffer 24000 8000 ;;
                 buf_read convertedAudio) (buffers w) with
          | inl e => inl e
          | inr (payload, h') =>
              let c := mediaChunkCounter s in
              let w1 := with_objs (<[r := set_counter s (S c)]> (objs w))
                                  (with_buffers h' w) in
              inr (if is_open w1 (twilioWs s)
                   then with_sent (sent w1 ++ [(twilioWs s, MediaOut (streamSid s) payload c)]) w1
                   else w1)
          end
      end
  | _ => inr w
  end.

(** [ws.on('message')] of the OpenAI socket of session [r]: an exception
    is caught and logged.  The only effect lost at a throw is an
    allocation. *)
Definition onOpenAIMessage (r : nat) (m : oai_msg) (w : world) : world :=
  match handleOpenAIMessage m r w with inr w' => w' | inl _ => w end.

(** The [try] block of [handleTwilioAudio(session, audioBuffer)]
    (l.218-235). *)
Definition handleTwilioAudio (r : nat) (audioBuffer : positive) (w : world)
    : js_error + world :=
  match objs w !! r with
  | None => inl TypeMismatch
  | Some s =>
      match (convertedAudio <- Server.resampleAudio audioBuffer 8000 24000 ;;
             buf_read convertedAudio) (buffers w) with
      | inl e => inl e
      | inr (payload, h') =>
          let w1 := with_buffers h' w in
          inr (if is_open w1 (openaiWs s)
               then with_sent (sent w1 ++ [(openaiWs s, AudioIn payload)]) w1
               else w1)
      end
  end.

(** [handleTwilioAudio] with its [catch]. *)
Definition handleTwilioAudio_caught (r : nat) (audioBuffer : positive)
    (w : world) : world :=
  match handleTwilioAudio r audioBuffer w with inr w' => w' | inl _ => w end.

(** [case 'media'] of the Twilio message handler (l.264-273): [payload]
    as for [oai_msg]. *)
Definition onMedia (sid : string) (payload : option (list Z)) (w : world)
    : world :=
  match payload with
  | None => w
  | Some b =>
      if decide (sid = EmptyString) then w else
      match sessions w !! sid with
      | None => w
      | Some r =>
          match alloc (ABytes b) (buffers w) with
          | inr (audioBuffer, h') =>
              handleTwilioAudio_caught r audioBuffer (with_buffers h' w)
          | inl _ => w
          end
      end
  end.

(** [cleanupSession(session)] (l.237-242): [close()] moves an open socket
    to [CLOSING]. *)
Definition cleanupSession (r : nat) (w : world) : world :=
  match objs w !! r with
  | None => w
  | Some s =>
      let w1 := if is_open w (openaiWs s)
                then with_ready (<[openaiWs s := CLOSING]> (ready w)) w
                else w in
      with_sessions (delete (streamSid s) (sessions w1)) w1
  end.

(** [initializeOpenAIWebSocket(streamSid, twilioWs)] (l.137-188) once the
    ephemeral token has arrived: a new OpenAI socket (connecting), a new
    session object with counter 0, and [sessions.set(streamSid, session)].
    The handlers it registers are the [onOpenAIMessage] above and a
    [cleanupSession] on the socket's close. *)
Definition initializeOpenAIWebSocket (sid : string) (tw : nat) (w : world)
    : world :=
  let o := fresh (dom (ready w)) in
  let r := fresh (dom (objs w)) in
  mkWorld (<[sid := r]> (sessions w))
          (<[r := mkStreamSession o tw sid 0]> (objs w))
          (<[o := CONNECTING]> (ready w))
          (buffers w) (sent w).

(** [case 'start'] of the Twilio message handler on socket [tw]
    (l.252-262), run when the token request settles: [tokenOk = false]
    is a failed request, whose exception is caught and logged. *)
Definition onStart (tokenOk : bool) (sid : string) (tw : nat) (w : world)
    : world :=
  if decide (sid = EmptyString) then w else
  if tokenOk
  then ws_send tw (Mark sid "connected"%string) (initializeOpenAIWebSocket sid tw w)
  else w.

(** One iteration of [for (const session of sessions.values())] in
    [ws.on('close')] (l.293-301): an entry deleted earlier in the loop is
    not visited. *)
Definition close_visit (tw : nat) (w : world) (k : string) : world :=
  match sessions w !! k with
  | Some r =>
      match objs w !! r with
      | Some s => if decide (twilioWs s = tw) then cleanupSession r w else w
      | None => w
      end
  | None => w
  end.

(** [ws.on('close')] of the Twilio socket [tw]; the loop visits the keys
    present when it starts. *)
Definition onTwilioClose (tw : nat) (w : world) : world :=
  foldl (close_visit tw) w (map fst (map_to_list (sessions w))).

(** Events that reach one session's outbound path: a message on the
    OpenAI socket of the session object [r], or a socket reaching
    [CLOSED] (a socket never reopens). *)
Inductive event :=
  | EvOpenAI (r : nat) (m : oai_msg)
  | EvSocketClosed (sock : nat).

Definition step (w : world) (e : event) : world :=
  match e with
  | EvOpenAI r m => onOpenAIMessage r m w
  | EvSocketClosed k => with_ready (<[k := CLOSED]> (ready w)) w
  end.

Definition run (w : world) (evs : list event) : world := foldl step w evs.

(** The number of non-empty audio deltas among [evs]. *)
Fixpoint n_deltas (evs : list event) : nat :=
  match evs with
  | [] => 0
  | EvOpenAI _ (AudioDelta (Some _)) :: evs' => S (n_deltas evs')
  | _ :: evs' => n_deltas evs'
  end.

(** The entry [k] of the Map is a session whose Twilio socket is [tw]. *)
Definition owned_key (w : world) (tw : nat) (k : string) : bool :=
  match sessions w !! k with
  | Some r =>
      match objs w !! r with
      | Some s => bool_decide (twilioWs s = tw)
      | None => false
      end
  | None => false
  end.

(** Every entry of the Map refers to a session object with its own key as
    [streamSid]: [initializeOpenAIWebSocket] is the only writer. *)
Definition wf (w : world) : Prop :=
  forall k r, sessions w !! k = Some r ->
    exists s, objs w !! r = Some s /\ streamSid s = k.

(** [case 'stop'] of the Twilio message handler on socket [tw]
    (l.274-286): [cleanupSession] of the session registered under the id,
    then a [disconnected] mark. *)
Definition onStop (sid : string) (tw : nat) (w : world) : world :=
  if decide (sid = EmptyString) then w else
  match sessions w !! sid with
  | Some r => ws_send tw (Mark sid "disconnected"%string) (cleanupSession r w)
  | None => w
  end.

(** [ws.on('open')] of the OpenAI socket [o] (l.155-164): the socket is
    open, and the handler sends [response.create] on it. *)
Definition onOpenAIOpen (o : nat) (w : world) : world :=
  ws_send o ResponseCreate (with_ready (<[o := OPEN]> (ready w)) w).

(** [ws.on('close')] of the OpenAI socket of the session object [r]
    (l.175-178): the socket is closed, and the handler calls
    [cleanupSession(session)] on the object its closure holds. *)
Definition onOpenAIClose (r : nat) (w : world) : world :=
  match objs w !! r with
  | Some s => cleanupSession r (with_ready (<[openaiWs s := CLOSED]> (ready w)) w)
  | None => w
  end.

End ServerWs.

(* ------------------------------------------------------------------ *)
(** ** server.ts, second module: the registry of the wrtc variant *)

Module ServerRTC.

(** The fields of [StreamSession] the registry handlers use: its peer
    connection and [audioSession.twilioWs]. *)
Record StreamSession := mkStreamSession {
  peerConnection : nat;
  twilioWs : nat
}.

(** [streamingSessions], the peer connections closed so far, each
    socket's [readyState], and the messages delivered. *)
Record world := mkWorld {
  streamingSessions : gmap string StreamSession;
  pcClosed : list nat;
  ready : gmap nat readyState;
  sent : list (nat * msg)
}.

Definition ws_send (sock : nat) (m : msg) (w : world) : world :=
  if bool_decide (ready w !! sock = Some OPEN)
  then mkWorld (streamingSessions w) (pcClosed w) (ready w) (sent w ++ [(sock, m)])
  else w.

(** [case 'start'] (l.639-652), after [await initializeWebRTC(...)] has
    returned [s]. *)
Definition onStartDone (ws : nat) (sid : string) (s : StreamSession) (w : world)
    : world :=
  ws_send ws (Mark sid "connected"%string)
    (mkWorld (<[sid := s]> (streamingSessions w)) (pcClosed w) (ready w) (sent w)).

(** [case 'stop'] (l.673-693). *)
Definition onStop (ws : nat) (sid : string) (w : world) : world :=
  if decide (sid = EmptyString) then w else
  match streamingSessions w !! sid with
  | Some s =>
      ws_send ws (Mark sid "disconnected"%string)
        (mkWorld (delete sid (streamingSessions w))
                 (pcClosed w ++ [peerConnection s]) (ready w) (sent w))
  | None => w
  end.

(** [extWs.on('close')] (l.701-713). *)
Definition close_visit (ws : nat) (w : world) (k : string) : world :=
  match streamingSessions w !! k with
  | Some s =>
      if decide (twilioWs s = ws)
      then mkWorld (delete k (streamingSessions w))
                   (pcClosed w ++ [peerConnection s]) (ready w) (sent w)
      else w
  | None => w
  end.

Definition onClose (ws : nat) (w : world) : world :=
  foldl (close_visit ws) w (map fst (map_to_list (streamingSessions w))).

(** The events of one Twilio socket [ws]: a [start] message whose handler
    reaches its [await] (nothing changes until negotiation settles), the
    settling of that negotiation with the session [s], a [stop] message,
    and the socket's close. *)
Inductive event :=
  | EvStartBegin (sid : string)
  | EvStartDone (sid : string) (s : StreamSession)
  | EvStop (sid : string)
  | EvClose.

Definition step (ws : nat) (w : world) (e : event) : world :=
  match e with
  | EvStartBegin _ => w
  | EvStartDone sid s => onStartDone ws sid s w
  | EvStop sid => onStop ws sid w
  | EvClose => onClose ws w
  end.

Definition run (ws : nat) (w : world) (evs : list event) : world :=
  foldl (step ws) w evs.

End ServerRTC.

(* ------------------------------------------------------------------ *)
(** ** The keep-alive timer (server.ts l.622-625 and l.753-761; the same
    code in part_000, part_002 and part_003), for one client *)

Module KeepAlive.

Inductive action := Ping | Terminate.

(** [extWs.isAlive], whether [terminate()] has removed the socket from
    [wss.clients], and the calls the timer made on the socket. *)
Record client := mkClient {
  isAlive : bool;
  terminated : bool;
  actions : list action
}.

(** [extWs.isAlive = true] in the connection handler. *)
Definition on_connection : client := mkClient true false [].

(** [extWs.on('pong', () => { extWs.isAlive = true; })] *)
Definition onPong (c : client) : client :=
  mkClient true (terminated c) (actions c).

(** The interval callback's visit of this client, while it is in
    [wss.clients]:
    [if (extWs.isAlive === false) return extWs.terminate();
     extWs.isAlive = false; extWs.ping();] *)
Definition onInterval (c : client) : client :=
  if terminated c then c else
  if negb (isAlive c) then mkClient (isAlive c) true (actions c ++ [Terminate])
  else mkClient false (terminated c) (actions c ++ [Ping]).

Inductive event := EvPong | EvInterval.

Definition step (c : client) (e : event) : client :=
  match e with
  | EvPong => onPong c
  | EvInterval => onInterval c
  end.

Definition run (c : client) (evs : list event) : client := foldl step c evs.

End KeepAlive.

(* ------------------------------------------------------------------ *)
(** ** part_002, first module: the [connections] registry (l.1-140) *)

Module Part002Conn.

Record world := mkWorld {
  connections : gmap string nat;
  ready : gmap nat readyState;
  sent : list (nat * msg)
}.

Definition ws_send (sock : nat) (m : msg) (w : world) : world :=
  if bool_decide (ready w !! sock = Some OPEN)
  then mkWorld (connections w) (ready w) (sent w ++ [(sock, m)])
  else w.

(** [case 'start'] (l.63-73) on socket [ws]. *)
Definition onStart (ws : nat) (sid : string) (w : world) : world :=
  if decide (sid = EmptyString) then w else
  ws_send ws (Mark sid "start"%string)
    (mkWorld (<[sid := ws]> (connections w)) (ready w) (sent w)).

(** [case 'media'] (l.75-89) with a payload: an [alive] mark. *)
Definition onMedia (ws : nat) (sid : string) (w : world) : world :=
  if decide (sid = EmptyString) then w else ws_send ws (Mark sid "alive"%string) w.

(** [case 'stop'] (l.91-96). *)
Definition onStop (sid : string) (w : world) : world :=
  if decide (sid = EmptyString) then w else
  mkWorld (delete sid (connections w)) (ready w) (sent w).

(** One iteration of [for (const [streamSid, socket] of
    connections.entries())] in [extWs.on('close')] (l.106-114). *)
Definition close_visit (ws : nat) (w : world) (k : string) : world :=
  match connections w !! k with
  | Some sock =>
      if decide (sock = ws)
      then mkWorld (delete k (connections w)) (ready w) (sent w)
      else w
  | None => w
  end.

Definition onClose (ws : nat) (w : world) : world :=
  foldl (close_visit ws) w (map fst (map_to_list (connections w))).

End Part002Conn.

(* ------------------------------------------------------------------ *)
(** ** part_002, second module: the audio from OpenAI to Twilio
    ([handleOpenAIMessage], l.369-407, and [audioSink.ondata], l.470-486) *)

Module Part002Rtc.

(** The session fields the handlers use, the state of the Twilio socket
    (as read by [sendAudioToTwilio]), the heap of arrays, the messages sent
    on the Twilio socket, and the [sendAudioToTwilio] calls suspended on
    their 20 ms timer, each with its PCM16 buffer and the offsets it has
    still to visit. *)
Record world := mkWorld {
  isStreamingAudio : bool;
  mediaChunkCounter : nat;
  twState : readyState;
  buffers : heap;
  sent : list msg;
  pending : list (list Z * list nat)
}.

Definition with_buffers (h : heap) (w : world) : world :=
  mkWorld (isStreamingAudio w) (mediaChunkCounter w) (twState w) h (sent w) (pending w).

Definition with_streaming (b : bool) (w : world) : world :=
  mkWorld b (mediaChunkCounter w) (twState w) (buffers w) (sent w) (pending w).

Definition with_twState (st : readyState) (w : world) : world :=
  mkWorld (isStreamingAudio w) (mediaChunkCounter w) st (buffers w) (sent w) (pending w).

Definition with_pending (p : list (list Z * list nat)) (w : world) : world :=
  mkWorld (isStreamingAudio w) (mediaChunkCounter w) (twState w) (buffers w) (sent w) p.

(** A call of [sendAudioToTwilio] reaches its next [await] (or its end):
    the counter it leaves and, if it sent a message, that message and the
    continuation that waits on the timer. *)
Definition suspend (r : nat * option (msg * (list Z * list nat))) (w : world) : world :=
  let '(c, o) := r in
  match o with
  | None => mkWorld (isStreamingAudio w) c (twState w) (buffers w) (sent w) (pending w)
  | Some (m, k) =>
      mkWorld (isStreamingAudio w) c (twState w) (buffers w) (sent w ++ [m]) (pending w ++ [k])
  end.

(** A data-channel message after [JSON.parse]; [DeltaMsg None] is an
    audio delta whose [delta] is missing or empty. *)
Inductive oai_msg :=
  | DeltaMsg (delta : option (list Z))
  | AudioStarted
  | AudioStopped
  | OtherMsg.

(** [sendAudioToTwilio(session, audioBuffer)] up to its first [await]; the
    caller does not wait for the rest ([dc.onmessage] does not await
    [handleOpenAIMessage], [ondata] does not await the call).  The call
    catches its own exceptions, which all come before its first message;
    the model keeps the state before the call at one. *)
Definition send_to_twilio (sid : string) (audioBuffer : positive) (w : world) : world :=
  match Part002.sendAudioToTwilio (twState w) sid (mediaChunkCounter w) audioBuffer (buffers w) with
  | inr (r, h') => suspend r (with_buffers h' w)
  | inl _ => w
  end.

(** The timer of the suspended call [k] fires: the call goes on with the
    next chunk, reading the counter and the socket's state as they are
    now, up to its next [await]. *)
Definition resume_call (sid : string) (k : nat) (w : world) : world :=
  match pending w !! k with
  | Some (pcm, offs) =>
      let w1 := with_pending (delete k (pending w)) w in
      let '(c, o) := Part002.send_loop (twState w1) sid pcm (mediaChunkCounter w1) offs in
      suspend (c, option_map (fun '(m, offs') => (m, (pcm, offs'))) o) w1
  | None => w
  end.

(** [handleOpenAIMessage(data, session)] (l.369-407) for the session
    [sid]: the delta is decoded ([Buffer.from]) before the flag is
    tested. *)
Definition handleOpenAIMessage (sid : string) (m : oai_msg) (w : world) : world :=
  match m with
  | DeltaMsg (Some d) =>
      match alloc (ABytes d) (buffers w) with
      | inr (audioBuffer, h1) =>
          let w1 := with_buffers h1 w in
          if isStreamingAudio w1 then send_to_twilio sid audioBuffer w1 else w1
      | inl _ => w
      end
  | DeltaMsg None => w
  | AudioStarted => with_streaming true w
  | AudioStopped => with_streaming false w
  | OtherMsg => w
  end.

(** [audioSink.ondata] (l.470-486): [None] is a frame without samples or
    sample rate; [Some b] a frame whose samples' bytes are [b]. *)
Definition onSinkData (sid : string) (frame : option (list Z)) (w : world) : world :=
  match frame with
  | None => w
  | Some b =>
      if negb (isStreamingAudio w) then w else
      match alloc (ABytes b) (buffers w) with
      | inr (frameBuffer, h1) => send_to_twilio sid frameBuffer (with_buffers h1 w)
      | inl _ => w
      end
  end.

(** The events of one session: a data-channel message ([dc.onmessage],
    l.498-505), a frame of the remote audio track, the timer of a suspended
    [sendAudioToTwilio] call, or a change of state of the Twilio socket. *)
Inductive event :=
  | EvDataChannel (m : oai_msg)
  | EvSinkFrame (frame : option (list Z))
  | EvResume (k : nat)
  | EvTwilioState (st : readyState).

Definition step (sid : string) (w : world) (e : event) : world :=
  match e with
  | EvDataChannel m => handleOpenAIMessage sid m w
  | EvSinkFrame f => onSinkData sid f w
  | EvResume k => resume_call sid k w
  | EvTwilioState st => with_twState st w
  end.

Definition run (sid : string) (w : world) (evs : list event) : world :=
  foldl (step sid) w evs.

End Part002Rtc.

(* ------------------------------------------------------------------ *)
(** ** What each step of the resampler computes *)

(** The int16 sample [i] of a byte buffer, as [readInt16LE(i * 2)]. *)
Definition int16_at (b : list Z) (i : nat) : Z :=
  int16_of_bytes (nth (2 * i) b 0) (nth (2 * i + 1) b 0).

(** The samples [int16 / 32768] of a byte buffer, as real numbers; they
    are what the [Float32Array] of [decode_pcm16] holds
    ([decode_pcm16_spec]). *)
Definition decode_pure (b : list Z) : list Q :=
  map (fun i => pcm16_decode (int16_at b i)) (seq 0 (length b / 2)).

(** The value the interpolation loop computes for output index [i]
    (the right-hand side of [output[i] = ...]). *)
Definition interp_val (x : list num) (ratio : Q) (i : nat) : num :=
  let position := f64 (inject_Z (Z.of_nat i) * ratio) in
  let index := js_floor position in
  let fraction := f64 (position - inject_Z index) in
  if index + 1 <? Z.of_nat (length x)
  then nadd (nmul (arr_get x index) (Fin (f64 (1 - fraction))))
            (nmul (arr_get x (index + 1)) (Fin fraction))
  else arr_get x index.

(** The value the output array holds at index [i]. *)
Definition interp_at (x : list num) (ratio : Q) (i : nat) : num :=
  to_f32 (interp_val x ratio i).

(** The output length of server.ts / part_002 [resampleAudio]:
    [Math.floor(n * (toRate / fromRate))] in doubles. *)
Definition out_len (n : nat) (fromRate toRate : positive) : nat :=
  Z.to_nat (js_floor (f64 (inject_Z (Z.of_nat n) * f64 (Zpos toRate # fromRate)))).

(** The output length of part_000 [resampleAudio]:
    [Math.floor(n / (fromRate / toRate))] in doubles. *)
Definition p000_len (n : nat) (fromRate toRate : positive) : nat :=
  Z.to_nat (js_floor (f64 (inject_Z (Z.of_nat n) / f64 (Zpos fromRate # toRate)))).

Definition interp_pure (x : list num) (ratio : Q) (len : nat) : list num :=
  map (interp_at x ratio) (seq 0 len).

Definition encode_pure (enc : Q -> Z) (y : list num) : list Z :=
  flat_map (fun s => le_bytes (pcm16_of enc s)) y.

(** The bytes server.ts [resampleAudio] returns for the bytes [b]. *)
Definition resample_bytes_pure (b : list Z) (fromRate toRate : positive) : list Z :=
  encode_pure pcm16_encode_round_f
    (interp_pure (map Fin (decode_pure b)) (f64 (Zpos fromRate # toRate))
                 (out_len (length b / 2) fromRate toRate)).

(** The PCM16 bytes part_002 [sendAudioToTwilio] builds from the bytes [b]. *)
Definition p002_pcm_pure (b : list Z) : list Z :=
  encode_pure pcm16_encode_floor_f
    (interp_pure (map Fin (decode_pure b)) (f64 (24000 # 8000))
                 (out_len (length b / 2) 24000 8000)).

(** The complete 160-byte frames of a buffer, in order. *)
Definition frames160 (pcm : list Z) : list (list Z) :=
  map (fun j => take 160 (drop (160 * j) pcm)) (seq 0 (length pcm / 160)).

(** Media messages carrying [frames] with chunk numbers [c, c+1, ...]. *)
Fixpoint media_msgs (sid : string) (frames : list (list Z)) (c : nat) : list msg :=
  match frames with
  | [] => []
  | f :: frames' => MediaOut sid f c :: media_msgs sid frames' (S c)
  end.

(** The chunk numbers of the media messages of a list, in order. *)
Fixpoint chunk_nums (ms : list msg) : list nat :=
  match ms with
  | [] => []
  | MediaOut _ _ k :: ms' => k :: chunk_nums ms'
  | _ :: ms' => chunk_nums ms'
  end.

(** [lo <= k1 < k2 < ... < hi], for [ks = [k1; k2; ...]]. *)
Fixpoint incr_between (lo : nat) (ks : list nat) (hi : nat) : Prop :=
  match ks with
  | [] => (lo <= hi)%nat
  | k :: ks' => (lo <= k)%nat /\ incr_between (S k) ks' hi
  end.

(** The messages a session sends: media messages of 160 bytes. *)
Definition media160 (sid : string) (m : msg) : Prop :=
  exists f k, m = MediaOut sid f k /\ length f = 160%nat.

(** What one step of a session may do to the messages sent and to the
    counter. *)
Definition step_ok (sid : string) (w w' : Part002Rtc.world) : Prop :=
  exists new, Part002Rtc.sent w' = Part002Rtc.sent w ++ new
    /\ Forall (media160 sid) new
    /\ incr_between (Part002Rtc.mediaChunkCounter w) (chunk_nums new)
                    (Part002Rtc.mediaChunkCounter w')
    /\ (Part002Rtc.twState w = OPEN ->
        chunk_nums new = seq (Part002Rtc.mediaChunkCounter w)
                             (Part002Rtc.mediaChunkCounter w' - Part002Rtc.mediaChunkCounter w)).

(* ------------------------------------------------------------------ *)
(** ** server.ts, second module: the inbound audio queue of one
    [AudioSession] (the [media] case, l.655-672, and [processAudioQueue],
    l.721-750) *)

Module ServerRTCQueue.

(** The fields of [AudioSession] that the inbound queue uses:
    [bufferQueue] (the bytes of each queued [Buffer]; the code never
    writes to them), [isProcessing], whether a [processAudioQueue] call is
    suspended at its [await] ([loopPending]), and the sample arrays handed
    to [audioSource.onData], in order ([delivered]). *)
Record AudioSession := mkAudioSession {
  bufferQueue : list (list Z);
  isProcessing : bool;
  loopPending : bool;
  delivered : list (list Q)
}.

(** [AUDIO_CONFIG.maxQueueSize] *)
Definition maxQueueSize : nat := 50.

(** One iteration of the [while] loop of [processAudioQueue] (l.727-746)
    up to its [await]: [bufferQueue.shift()], the samples
    [readInt16LE(i * 2) / 32768.0] of the chunk ([decode_pure], the
    array [decode_pcm16] builds), [audioSource.onData]. *)
Definition process_one (a : AudioSession) : AudioSession :=
  match bufferQueue a with
  | [] => a
  | c :: q => mkAudioSession q (isProcessing a) true (delivered a ++ [decode_pure c])
  end.

(** [processAudioQueue(audioSession)] (l.721-750) up to its first
    [await]. *)
Definition processAudioQueue (a : AudioSession) : AudioSession :=
  if isProcessing a || bool_decide (bufferQueue a = []) then a else
  process_one (mkAudioSession (bufferQueue a) true (loopPending a) (delivered a)).

(** The timer of the pending [await] fires: the loop tests its condition
    again; on an empty queue it leaves, and [finally] clears
    [isProcessing]. *)
Definition resume (a : AudioSession) : AudioSession :=
  if loopPending a then
    match bufferQueue a with
    | [] => mkAudioSession [] false false (delivered a)
    | _ => process_one a
    end
  else a.

(** [case 'media'] (l.655-672) for a session with this audio session:
    push, keep the last [maxQueueSize] chunks ([slice(-50)]), and start
    the loop when none is running. *)
Definition onMediaQueue (b : list Z) (a : AudioSession) : AudioSession :=
  let q := bufferQueue a ++ [b] in
  let q' := if (maxQueueSize <? length q)%nat then drop (length q - maxQueueSize) q else q in
  let a1 := mkAudioSession q' (isProcessing a) (loopPending a) (delivered a) in
  if negb (isProcessing a1) then processAudioQueue a1 else a1.

(** A fresh audio session (l.487-493). *)
Definition audio_init : AudioSession := mkAudioSession [] false false [].

Inductive aq_event :=
  | AqMedia (b : list Z)
  | AqTimer.

Definition aq_step (a : AudioSession) (e : aq_event) : AudioSession :=
  match e with
  | AqMedia b => onMediaQueue b a
  | AqTimer => resume a
  end.

Definition aq_run (a : AudioSession) (evs : list aq_event) : AudioSession :=
  foldl aq_step a evs.

(** The payloads pushed by the [media] events of [evs], in order. *)
Definition aq_pushed (evs : list aq_event) : list (list Z) :=
  omap (fun e => match e with AqMedia b => Some b | AqTimer => None end) evs.

End ServerRTCQueue.


(* ================================================================== *)
(** * Proofs *)

(** ** Binary floating-point rounding *)


Lemma pow2_pos e : (0 < pow2 e)%Q.
Proof. apply Qpower_0_lt. reflexivity. Qed.

Lemma pow2_add a b : (pow2 (a + b) == pow2 a * pow2 b)%Q.
Proof. apply Qpower_plus. discriminate. Qed.

Lemma pow2_le a b : a <= b -> (pow2 a <= pow2 b)%Q.
Proof. intros H. apply Qpower_le_compat_l; [done | discriminate]. Qed.

Lemma pow2_lt a b : a < b -> (pow2 a < pow2 b)%Q.
Proof. intros H. apply Qpower_lt_compat_l; [done | reflexivity]. Qed.

Lemma pow2_lt_inv a b : (pow2 a < pow2 b)%Q -> a < b.
Proof. intros H. eapply Qpower_lt_compat_l_inv; [exact H | reflexivity]. Qed.

Lemma pow2_le_inv a b : (pow2 a <= pow2 b)%Q -> a <= b.
Proof. intros H. eapply Qpower_le_compat_l_inv; [exact H | reflexivity]. Qed.

Lemma pow2_Z n : 0 <= n -> (pow2 n == inject_Z (2 ^ n))%Q.
Proof. intros H. unfold pow2. rewrite Zpower_Qpower by done. reflexivity. Qed.

Lemma pow2_Qmake k :
  (pow2 k == Qmake (2 ^ Z.max 0 k) (Z.to_pos (2 ^ Z.max 0 (- k))))%Q.
Proof.
  destruct (Z.le_gt_cases 0 k) as [Hk|Hk].
  - rewrite pow2_Z by done. rewrite Z.max_r by done.
    replace (Z.max 0 (- k)) with 0 by lia. unfold inject_Z. reflexivity.
  - unfold pow2. replace k with (- (- k)) at 1 by lia. rewrite Qpower_opp.
    rewrite Z.max_l by lia. rewrite Z.max_r by lia.
    assert (E2 : (inject_Z 2 ^ (- k) == inject_Z (2 ^ (- k)))%Q)
      by (symmetry; apply Zpower_Qpower; lia).
    change 2%Q with (inject_Z 2). rewrite E2.
    assert (Hp : 0 < 2 ^ (- k)) by (apply Z.pow_pos_nonneg; lia).
    destruct (2 ^ (- k)) eqn:E; [lia| |lia]. reflexivity.
Qed.

Lemma pow2_lt_iff n d k :
  ((n # d) < pow2 k)%Q <-> n * 2 ^ Z.max 0 (- k) < 2 ^ Z.max 0 k * Zpos d.
Proof.
  rewrite pow2_Qmake. unfold Qlt. simpl.
  rewrite Z2Pos.id by (apply Z.pow_pos_nonneg; lia). done.
Qed.

Lemma pow2_le_iff n d k :
  (pow2 k <= (n # d))%Q <-> 2 ^ Z.max 0 k * Zpos d <= n * 2 ^ Z.max 0 (- k).
Proof.
  rewrite pow2_Qmake. unfold Qle. simpl.
  rewrite Z2Pos.id by (apply Z.pow_pos_nonneg; lia). done.
Qed.

Lemma pow2_gt_iff n d k :
  (pow2 k < (n # d))%Q <-> 2 ^ Z.max 0 k * Zpos d < n * 2 ^ Z.max 0 (- k).
Proof.
  rewrite pow2_Qmake. unfold Qlt. simpl.
  rewrite Z2Pos.id by (apply Z.pow_pos_nonneg; lia). done.
Qed.

Lemma Qlog2_floor_spec a :
  (0 < a)%Q -> (pow2 (Qlog2_floor a) <= a < pow2 (Qlog2_floor a + 1))%Q.
Proof.
  intros Ha. destruct a as [n d]. unfold Qlt in Ha. simpl in Ha.
  assert (Hn : 0 < n) by lia.
  set (p := Z.log2 n). set (s := Z.log2 (Zpos d)).
  destruct (Z.log2_spec n Hn) as [Hn1 Hn2]. fold p in Hn1, Hn2.
  destruct (Z.log2_spec (Zpos d) ltac:(lia)) as [Hd1 Hd2]. fold s in Hd1, Hd2.
  assert (Hp0 : 0 <= p) by apply Z.log2_nonneg.
  assert (Hs0 : 0 <= s) by apply Z.log2_nonneg.
  rewrite Z.pow_succ_r in Hn2, Hd2 by done.
  (* the two bounds around e = p - s *)
  assert (Hlo : (pow2 (p - s - 1) < n # d)%Q).
  { apply pow2_gt_iff.
    (* 2^max 0 (p-s-1) * d < n * 2^max 0 (-(p-s-1)) *)
    set (A := Z.max 0 (p - s - 1)). set (B := Z.max 0 (- (p - s - 1))).
    assert (HAB : A + (s + 1) = B + p) by (unfold A, B; lia).
    assert (E1 : 2 ^ A * 2 ^ (s + 1) = 2 ^ B * 2 ^ p)
      by (rewrite <- !Z.pow_add_r by (unfold A, B; lia); rewrite HAB; done).
    rewrite Z.pow_add_r in E1 by lia. rewrite Z.pow_1_r in E1.
    assert (HA : 0 < 2 ^ A) by (apply Z.pow_pos_nonneg; unfold A; lia).
    assert (HB : 0 < 2 ^ B) by (apply Z.pow_pos_nonneg; unfold B; lia).
    nia. }
  assert (Hhi : (n # d < pow2 (p - s + 1))%Q).
  { apply pow2_lt_iff.
    set (A := Z.max 0 (p - s + 1)). set (B := Z.max 0 (- (p - s + 1))).
    assert (HAB : A + s = B + (p + 1)) by (unfold A, B; lia).
    assert (E1 : 2 ^ A * 2 ^ s = 2 ^ B * 2 ^ (p + 1))
      by (rewrite <- !Z.pow_add_r by (unfold A, B; lia); rewrite HAB; done).
    rewrite Z.pow_add_r in E1 by lia. rewrite Z.pow_1_r in E1.
    assert (HA : 0 < 2 ^ A) by (apply Z.pow_pos_nonneg; unfold A; lia).
    assert (HB : 0 < 2 ^ B) by (apply Z.pow_pos_nonneg; unfold B; lia).
    nia. }
  unfold Qlog2_floor. simpl Qnum. simpl Qden. fold p s.
  destruct (Qlt_le_dec (n # d) (pow2 (p - s))) as [H|H].
  - replace (p - s - 1 + 1) with (p - s) by lia. split; [apply Qlt_le_weak|]; done.
  - split; done.
Qed.

Lemma pow2_nz e : ~ (pow2 e == 0)%Q.
Proof. pose proof (pow2_pos e) as Hp. intros Hz. rewrite Hz in Hp. discriminate. Qed.

Lemma Qlog2_floor_unique a k :
  (pow2 k <= a < pow2 (k + 1))%Q -> Qlog2_floor a = k.
Proof.
  intros [H1 H2].
  assert (Ha : (0 < a)%Q) by (eapply Qlt_le_trans; [apply pow2_pos | exact H1]).
  destruct (Qlog2_floor_spec a Ha) as [H3 H4].
  assert (Qlog2_floor a < k + 1) by (apply pow2_lt_inv; eapply Qle_lt_trans; eauto).
  assert (k < Qlog2_floor a + 1) by (apply pow2_lt_inv; eapply Qle_lt_trans; eauto).
  lia.
Qed.

Lemma rhe_bound z : (Qabs (inject_Z (round_half_even z) - z) <= 1 # 2)%Q.
Proof.
  pose proof (Qfloor_le z) as H1. pose proof (Qlt_floor z) as H2.
  rewrite inject_Z_plus in H2. change (inject_Z 1) with 1%Q in H2.
  unfold round_half_even.
  destruct (Qcompare_spec (z - inject_Z (Qfloor z)) (1 # 2)) as [E|E|E].
  - destruct (Z.even (Qfloor z)); [|rewrite inject_Z_plus; change (inject_Z 1) with 1%Q];
      apply Qabs_case; intros; lra.
  - apply Qabs_case; intros; lra.
  - rewrite inject_Z_plus. change (inject_Z 1) with 1%Q. apply Qabs_case; intros; lra.
Qed.

Lemma rhe_int m : round_half_even (inject_Z m) = m.
Proof.
  unfold round_half_even. rewrite Qfloor_Z.
  destruct (Qcompare_spec (inject_Z m - inject_Z m) (1 # 2)) as [E|E|E]; try lra. done.
Qed.

Lemma rhe_compat z z' : (z == z')%Q -> round_half_even z = round_half_even z'.
Proof.
  intros H. unfold round_half_even. rewrite (Qfloor_comp z z' H).
  assert (E : (z - inject_Z (Qfloor z') ?= 1 # 2)%Q = (z' - inject_Z (Qfloor z') ?= 1 # 2)%Q)
    by (apply Qcompare_comp; [rewrite H|]; reflexivity).
  rewrite E. done.
Qed.

Lemma rhe_abs_le z B : (Qabs z <= inject_Z B)%Q -> Z.abs (round_half_even z) <= B.
Proof.
  intros H. pose proof (rhe_bound z) as Hb.
  assert (Hq : (Qabs (inject_Z (round_half_even z)) < inject_Z B + 1)%Q).
  { assert (Qabs (inject_Z (round_half_even z))
            <= Qabs (inject_Z (round_half_even z) - z) + Qabs z)%Q.
    { assert (E : (inject_Z (round_half_even z)
                   == (inject_Z (round_half_even z) - z) + z)%Q) by ring.
      rewrite (Qabs_wd _ _ E). apply Qabs_triangle. }
    lra. }
  change (Qabs (inject_Z (round_half_even z))) with (inject_Z (Z.abs (round_half_even z))) in Hq.
  change (1%Q) with (inject_Z 1) in Hq.
  rewrite <- inject_Z_plus in Hq. rewrite <- Zlt_Qlt in Hq. lia.
Qed.

Lemma Qabs_pow2 e : (Qabs (pow2 e) == pow2 e)%Q.
Proof. apply Qabs_pos. apply Qlt_le_weak, pow2_pos. Qed.

Section Round.
Variables (prec emin : Z).
Hypothesis Hprec : 1 <= prec.

Lemma round_bin_zero q : (q == 0)%Q -> round_bin prec emin q = q.
Proof. intros H. unfold round_bin. rewrite (Qeq_eq_bool _ _ H). done. Qed.

Lemma round_bin_exact q m :
  (q / pow2 (round_exp prec emin q) == inject_Z m)%Q -> round_bin prec emin q = q.
Proof.
  intros H. unfold round_bin. destruct (Qeq_bool q 0); [done|].
  set (u := round_exp prec emin q) in *.
  rewrite (rhe_compat _ _ H), rhe_int.
  assert (E : (inject_Z m * pow2 u == q)%Q).
  { rewrite <- H. field. apply pow2_nz. }
  rewrite (Qeq_eq_bool _ _ E). done.
Qed.

Lemma round_exp_ge q : emin <= round_exp prec emin q.
Proof. unfold round_exp. lia. Qed.

(** A value [m * 2^e] with [|m| < 2^prec] and [e >= emin] is kept as it is. *)
Lemma round_bin_repr q m e :
  emin <= e -> Z.abs m < 2 ^ prec -> (q == inject_Z m * pow2 e)%Q ->
  round_bin prec emin q = q.
Proof.
  intros He Hm Hq.
  destruct (Qeq_dec q 0) as [H0|H0]; [apply round_bin_zero; done|].
  set (u := round_exp prec emin q).
  assert (Hm0 : m <> 0) by (intros ->; apply H0; rewrite Hq; ring).
  assert (Hpos : (0 < Qabs q)%Q).
  { apply Qabs_case; intros; [|]; (apply Qnot_le_lt; intros Hle; apply H0; lra). }
  destruct (Qlog2_floor_spec (Qabs q) Hpos) as [HL1 HL2].
  assert (Habs : (Qabs q == inject_Z (Z.abs m) * pow2 e)%Q).
  { rewrite Hq, Qabs_Qmult, Qabs_pow2. reflexivity. }
  assert (Hlt : (Qabs q < pow2 (prec + e))%Q).
  { rewrite Habs, pow2_add, (pow2_Z prec) by lia.
    apply Qmult_lt_r; [apply pow2_pos|]. rewrite <- Zlt_Qlt. done. }
  assert (HLe : Qlog2_floor (Qabs q) < prec + e)
    by (apply pow2_lt_inv; eapply Qle_lt_trans; eauto).
  assert (Hu : u <= e) by (unfold u, round_exp; lia).
  apply (round_bin_exact q (m * 2 ^ (e - u))). fold u.
  rewrite inject_Z_mult, <- (pow2_Z (e - u)) by lia. rewrite Hq.
  assert (E : (pow2 e == pow2 (e - u) * pow2 u)%Q)
    by (rewrite <- pow2_add; replace (e - u + u) with e by lia; reflexivity).
  rewrite E. field. apply pow2_nz.
Qed.

Lemma round_bin_err_exp q :
  (Qabs (round_bin prec emin q - q) <= pow2 (round_exp prec emin q - 1))%Q.
Proof.
  set (u := round_exp prec emin q).
  assert (Hp : (0 <= pow2 (u - 1))%Q) by apply Qlt_le_weak, pow2_pos.
  unfold round_bin. destruct (Qeq_bool q 0).
  { rewrite (Qabs_wd (q - q) 0) by ring. done. }
  fold u. destruct (Qeq_bool _ q).
  { rewrite (Qabs_wd (q - q) 0) by ring. done. }
  rewrite (Qabs_wd (inject_Z (round_half_even (q / pow2 u)) * pow2 u - q)
    ((inject_Z (round_half_even (q / pow2 u)) - q / pow2 u) * pow2 u))
    by (field; apply pow2_nz).
  rewrite Qabs_Qmult, Qabs_pow2.
  assert (E : (pow2 (u - 1) == (1 # 2) * pow2 u)%Q).
  { assert (E1 : (pow2 u == pow2 (u - 1) * pow2 1)%Q)
      by (rewrite <- pow2_add; replace (u - 1 + 1) with u by lia; reflexivity).
    rewrite E1. change (pow2 1) with 2%Q. ring. }
  rewrite E.
  apply Qmult_le_compat_r; [apply rhe_bound | apply Qlt_le_weak, pow2_pos].
Qed.

(** The rounding error: [|round(q) - q| <= |q| * 2^-prec + 2^(emin-1)]. *)
Lemma round_bin_err q :
  (Qabs (round_bin prec emin q - q) <= Qabs q * pow2 (- prec) + pow2 (emin - 1))%Q.
Proof.
  destruct (Qeq_dec q 0) as [H0|H0].
  { rewrite round_bin_zero by done. rewrite (Qabs_wd (q - q) 0) by ring.
    assert (0 <= Qabs q * pow2 (- prec))%Q
      by (apply Qmult_le_0_compat; [apply Qabs_nonneg | apply Qlt_le_weak, pow2_pos]).
    pose proof (pow2_pos (emin - 1)). change (Qabs 0) with 0%Q. lra. }
  eapply Qle_trans; [apply round_bin_err_exp|].
  assert (H1 : (0 <= Qabs q * pow2 (- prec))%Q)
    by (apply Qmult_le_0_compat; [apply Qabs_nonneg | apply Qlt_le_weak, pow2_pos]).
  assert (H2 : (0 <= pow2 (emin - 1))%Q) by apply Qlt_le_weak, pow2_pos.
  unfold round_exp.
  destruct (Z.max_spec (Qlog2_floor (Qabs q) - (prec - 1)) emin) as [[_ E]|[_ E]];
    rewrite E; [lra|].
  { assert (Hpos : (0 < Qabs q)%Q).
    { apply Qabs_case; intros; (apply Qnot_le_lt; intros Hle; apply H0; lra). }
    destruct (Qlog2_floor_spec (Qabs q) Hpos) as [HL1 _].
    replace (emin - 1) with (emin - 1) by lia.
    assert (Hx : (pow2 (Qlog2_floor (Qabs q) - (prec - 1) - 1)
                  == pow2 (Qlog2_floor (Qabs q)) * pow2 (- prec))%Q)
      by (rewrite <- pow2_add; f_equiv; lia).
    rewrite Hx.
    assert (pow2 (Qlog2_floor (Qabs q)) * pow2 (- prec) <= Qabs q * pow2 (- prec))%Q
      by (apply Qmult_le_compat_r; [done | apply Qlt_le_weak, pow2_pos]).
    lra. }
Qed.

Lemma Qabs_pos_of_nz q : ~ (q == 0)%Q -> (0 < Qabs q)%Q.
Proof. intros H0. apply Qabs_case; intros; (apply Qnot_le_lt; intros Hle; apply H0; lra). Qed.

Lemma Qabs_div_pow2 q u : (Qabs (q / pow2 u) == Qabs q / pow2 u)%Q.
Proof.
  unfold Qdiv. rewrite Qabs_Qmult. apply Qmult_comp; [reflexivity|].
  apply Qabs_pos. apply Qlt_le_weak, Qinv_lt_0_compat, pow2_pos.
Qed.

(** The rounded value is [m * 2^u] with [|m| <= 2^prec]. *)
Lemma round_bin_form q :
  exists m, (round_bin prec emin q == inject_Z m * pow2 (round_exp prec emin q))%Q
            /\ Z.abs m <= 2 ^ prec.
Proof.
  set (u := round_exp prec emin q).
  destruct (Qeq_dec q 0) as [H0|H0].
  { exists 0. rewrite round_bin_zero by done. rewrite H0. split; [ring | lia]. }
  assert (Hb : Z.abs (round_half_even (q / pow2 u)) <= 2 ^ prec).
  { apply rhe_abs_le. rewrite Qabs_div_pow2.
    destruct (Qlog2_floor_spec (Qabs q) (Qabs_pos_of_nz q H0)) as [_ HL2].
    assert (Hu : Qlog2_floor (Qabs q) + 1 - prec <= u) by (unfold u, round_exp; lia).
    rewrite <- (pow2_Z prec) by lia.
    apply Qle_shift_div_r; [apply pow2_pos|].
    rewrite <- pow2_add. apply Qlt_le_weak. eapply Qlt_le_trans; [exact HL2|].
    apply pow2_le. lia. }
  unfold round_bin. destruct (Qeq_bool q 0) eqn:Z0.
  { apply Qeq_bool_iff in Z0. contradiction. }
  fold u. destruct (Qeq_bool _ q) eqn:E.
  - apply Qeq_bool_iff in E. exists (round_half_even (q / pow2 u)). split; [|done].
    rewrite E. reflexivity.
  - exists (round_half_even (q / pow2 u)). split; [reflexivity | done].
Qed.

(** Relative error bound in the normal range. *)
Lemma round_bin_rel q :
  (pow2 (emin + prec - 1) <= Qabs q)%Q ->
  (Qabs (round_bin prec emin q - q) <= Qabs q * pow2 (- prec))%Q.
Proof.
  intros Hn.
  assert (H0 : ~ (q == 0)%Q).
  { intros E. rewrite (Qabs_wd q 0 E) in Hn. pose proof (pow2_pos (emin + prec - 1)).
    change (Qabs 0) with 0%Q in Hn. lra. }
  destruct (Qlog2_floor_spec (Qabs q) (Qabs_pos_of_nz q H0)) as [HL1 HL2].
  assert (HL : emin + prec - 1 <= Qlog2_floor (Qabs q))
    by (apply Z.lt_succ_r, pow2_lt_inv; eapply Qle_lt_trans; eauto).
  eapply Qle_trans; [apply round_bin_err_exp|].
  unfold round_exp. rewrite Z.max_l by lia.
  assert (Hx : (pow2 (Qlog2_floor (Qabs q) - (prec - 1) - 1)
                == pow2 (Qlog2_floor (Qabs q)) * pow2 (- prec))%Q)
    by (rewrite <- pow2_add; f_equiv; lia).
  rewrite Hx. apply Qmult_le_compat_r; [done | apply Qlt_le_weak, pow2_pos].
Qed.

End Round.

Lemma round_bin_idem_form prec emin q :
  1 <= prec -> round_bin prec emin q = q ->
  exists m, (q == inject_Z m * pow2 (round_exp prec emin q))%Q /\ Z.abs m <= 2 ^ prec.
Proof.
  intros Hp E. destruct (round_bin_form prec emin Hp q) as [m [Hm Hb]].
  exists m. rewrite E in Hm. done.
Qed.

(** A single-precision value is a double: [f64] leaves it unchanged. *)
Lemma f64_of_single q : fround q = q -> f64 q = q.
Proof.
  intros E. destruct (round_bin_idem_form 24 (-149) q ltac:(lia) E) as [m [Hq Hm]].
  apply (round_bin_repr 53 (-1074) ltac:(lia) q m (round_exp 24 (-149) q)).
  - pose proof (round_exp_ge 24 (-149) q). lia.
  - assert (2 ^ 24 < 2 ^ 53) by (apply Z.pow_lt_mono_r; lia). lia.
  - done.
Qed.

Lemma Qlog2_floor_compat a a' : (0 < a)%Q -> (a == a')%Q -> Qlog2_floor a = Qlog2_floor a'.
Proof.
  intros Ha E. symmetry. apply Qlog2_floor_unique. rewrite <- E. apply Qlog2_floor_spec. done.
Qed.

Section Round2.
Variables (prec emin : Z).

Lemma round_bin_val q :
  (round_bin prec emin q
   == inject_Z (round_half_even (q / pow2 (round_exp prec emin q)))
      * pow2 (round_exp prec emin q))%Q.
Proof.
  set (u := round_exp prec emin q).
  destruct (Qeq_dec q 0) as [H0|H0].
  - rewrite round_bin_zero by done.
    assert (E : (q / pow2 u == inject_Z 0)%Q) by (rewrite H0; reflexivity).
    rewrite (rhe_compat _ _ E), rhe_int. rewrite H0. reflexivity.
  - unfold round_bin. destruct (Qeq_bool q 0) eqn:Z0.
    { apply Qeq_bool_iff in Z0. contradiction. }
    fold u. destruct (Qeq_bool _ q) eqn:E.
    + apply Qeq_bool_iff in E. rewrite E. reflexivity.
    + reflexivity.
Qed.

Lemma round_exp_compat q q' :
  ~ (q == 0)%Q -> (q == q')%Q -> round_exp prec emin q = round_exp prec emin q'.
Proof.
  intros H0 E. unfold round_exp.
  rewrite (Qlog2_floor_compat (Qabs q) (Qabs q')); [done | apply Qabs_pos_of_nz; done |].
  apply Qabs_wd. done.
Qed.

Lemma round_bin_compat q q' : (q == q')%Q -> (round_bin prec emin q == round_bin prec emin q')%Q.
Proof.
  intros E. destruct (Qeq_dec q 0) as [H0|H0].
  - assert (H0' : (q' == 0)%Q) by (eapply Qeq_trans; [apply Qeq_sym, E | exact H0]).
    rewrite (round_bin_zero _ _ q H0), (round_bin_zero _ _ q' H0'). done.
  - rewrite !round_bin_val. rewrite <- (round_exp_compat q q' H0 E).
    rewrite (rhe_compat (q / _) (q' / _)) by (unfold Qdiv; apply Qmult_comp; [exact E | reflexivity]). reflexivity.
Qed.

Lemma rhe_nonneg z : (0 <= z)%Q -> 0 <= round_half_even z.
Proof.
  intros Hz. assert (0 <= Qfloor z).
  { change 0 with (Qfloor 0). apply Qfloor_resp_le. done. }
  unfold round_half_even. destruct (_ ?= _)%Q; [destruct (Z.even _)| |]; lia.
Qed.

Lemma round_bin_nonneg q : (0 <= q)%Q -> (0 <= round_bin prec emin q)%Q.
Proof.
  intros Hq. rewrite round_bin_val.
  apply Qmult_le_0_compat; [|apply Qlt_le_weak, pow2_pos].
  change 0%Q with (inject_Z 0). rewrite <- Zle_Qle. apply rhe_nonneg.
  apply Qle_shift_div_l; [apply pow2_pos|]. rewrite Qmult_0_l. done.
Qed.

End Round2.

(** Small integers are doubles. *)
Lemma f64_int m : Z.abs m < 2 ^ 53 -> f64 (inject_Z m) = inject_Z m.
Proof.
  intros Hm. apply (round_bin_repr 53 (-1074) ltac:(lia) _ m 0); [lia | done |].
  change (pow2 0) with 1%Q. ring.
Qed.

Lemma f64_compat q q' : (q == q')%Q -> (f64 q == f64 q')%Q.
Proof. apply round_bin_compat. Qed.

Lemma fround_compat q q' : (q == q')%Q -> (fround q == fround q')%Q.
Proof. apply round_bin_compat. Qed.

(** ** Rounding facts used by the resampler *)

Lemma pow2_m53 : pow2 (-53) = (1 # 9007199254740992)%Q.
Proof. reflexivity. Qed.

Lemma pow2_m15 : pow2 (-15) = (1 # 32768)%Q.
Proof. reflexivity. Qed.

Lemma pow2_tiny : (pow2 (-1075) <= 1 # 1267650600228229401496703205376)%Q.
Proof.
  change (1 # 1267650600228229401496703205376)%Q with (pow2 (-100)).
  apply pow2_le. lia.
Qed.

(** The error of a double operation. *)
Lemma f64_err q :
  (Qabs (f64 q - q) <= Qabs q * (1 # 9007199254740992)
                       + (1 # 1267650600228229401496703205376))%Q.
Proof.
  pose proof (round_bin_err 53 (-1074) q) as H.
  change (pow2 (Z.opp 53)) with (1 # 9007199254740992)%Q in H.
  pose proof pow2_tiny. unfold f64.
  change (-1074 - 1) with (-1075) in H. lra.
Qed.

(** The error of a double operation in the normal range. *)
Lemma f64_rel q :
  (pow2 (-1022) <= Qabs q)%Q ->
  (Qabs (f64 q - q) <= Qabs q * (1 # 9007199254740992))%Q.
Proof.
  intros H. change (1 # 9007199254740992)%Q with (pow2 (Z.opp 53)).
  apply (round_bin_rel 53 (-1074)). exact H.
Qed.

Lemma f64_nonneg q : (0 <= q)%Q -> (0 <= f64 q)%Q.
Proof. apply round_bin_nonneg. Qed.

Lemma f64_zero q : (q == 0)%Q -> (f64 q == 0)%Q.
Proof. intros H. unfold f64. rewrite round_bin_zero by (lia || done). exact H. Qed.

Lemma f64_one : f64 1 = 1%Q.
Proof. apply (f64_int 1). lia. Qed.

(** [int16 / 32768.0] is exact, and so is its store into a
    [Float32Array]. *)
Lemma decode_exact k :
  -32768 <= k <= 32767 ->
  f64 (pcm16_decode k) = pcm16_decode k /\ fround (pcm16_decode k) = pcm16_decode k.
Proof.
  intros Hk.
  assert (E : (pcm16_decode k == inject_Z k * pow2 (-15))%Q)
    by (rewrite pow2_m15; reflexivity).
  split.
  - apply (round_bin_repr 53 (-1074) ltac:(lia) _ k (-15)); [lia | | exact E].
    change (2 ^ 53) with 9007199254740992. lia.
  - apply (round_bin_repr 24 (-149) ltac:(lia) _ k (-15)); [lia | | exact E].
    change (2 ^ 24) with 16777216. lia.
Qed.

Lemma clamp_cases s : clamp s = (-1)%Q \/ clamp s = 1%Q \/ clamp s = s.
Proof.
  unfold clamp, Qmax, Qmin, GenericMinMax.gmax, GenericMinMax.gmin.
  destruct (1 ?= s)%Q, (-1 ?= _)%Q; auto.
Qed.

(** On a single-precision sample, [clamp(s) * 32767] is exact in double
    precision. *)
Lemma f64_clamp_single s :
  fround s = s -> f64 (clamp s * 32767) = (clamp s * 32767)%Q.
Proof.
  intros Hs.
  destruct (clamp_cases s) as [E|[E|E]]; rewrite E.
  - apply (f64_int (-32767)). lia.
  - apply (f64_int 32767). lia.
  - destruct (round_bin_idem_form 24 (-149) s ltac:(lia) Hs) as [m [Hm Hb]].
    pose proof (round_exp_ge 24 (-149) s).
    apply (round_bin_repr 53 (-1074) ltac:(lia) _ (m * 32767) (round_exp 24 (-149) s)).
    + lia.
    + change (2 ^ 24) with 16777216 in Hb. change (2 ^ 53) with 9007199254740992.
      rewrite Z.abs_mul. change (Z.abs 32767) with 32767. lia.
    + rewrite inject_Z_mult. change (inject_Z 32767) with 32767%Q.
      apply Qeq_trans with (inject_Z m * pow2 (round_exp 24 (-149) s) * 32767)%Q;
        [apply Qmult_comp; [exact Hm | reflexivity] | ring].
Qed.

Lemma encode_round_f_single s :
  fround s = s -> pcm16_encode_round_f s = pcm16_encode_round s.
Proof. intros Hs. unfold pcm16_encode_round_f. rewrite f64_clamp_single by done. done. Qed.

Lemma encode_floor_f_single s :
  fround s = s -> pcm16_encode_floor_f s = pcm16_encode_floor s.
Proof. intros Hs. unfold pcm16_encode_floor_f. rewrite f64_clamp_single by done. done. Qed.

Lemma clamp_bounds (s : Q) : (-1 <= clamp s <= 1)%Q.
Proof.
  unfold clamp. split.
  - apply Q.le_max_l.
  - apply Q.max_lub; [lra | apply Q.le_min_l].
Qed.

Lemma clamp_compat s t : (s == t)%Q -> (clamp s == clamp t)%Q.
Proof. intros E. unfold clamp. rewrite E. reflexivity. Qed.

Lemma Qfloor_between (x : Q) (a b : Z) :
  (inject_Z a <= x)%Q -> (x < inject_Z (b + 1))%Q -> a <= Qfloor x <= b.
Proof.
  intros Ha Hb. split.
  - rewrite <- (Qfloor_Z a). apply Qfloor_resp_le. exact Ha.
  - pose proof (Qfloor_le x) as H.
    assert (Hl : (inject_Z (Qfloor x) < inject_Z (b + 1))%Q) by lra.
    rewrite <- Zlt_Qlt in Hl. lia.
Qed.

Lemma f64_clamp_close s :
  (-32768 # 1 < f64 (clamp s * 32767) /\ f64 (clamp s * 32767) < 32768 # 1)%Q
  /\ (-32767 - (1 # 4) <= f64 (clamp s * 32767) <= 32767 + (1 # 4))%Q.
Proof.
  pose proof (clamp_bounds s) as [Hl Hu].
  pose proof (f64_err (clamp s * 32767)) as H.
  apply Qabs_Qle_condition in H.
  assert (Ha : (Qabs (clamp s * 32767) <= 32767)%Q)
    by (apply Qabs_Qle_condition; split; lra).
  lra.
Qed.

Lemma encode_round_f_range s : -32768 <= pcm16_encode_round_f s <= 32767.
Proof.
  unfold pcm16_encode_round_f, js_round. pose proof (f64_clamp_close s) as [_ [Hl Hu]].
  assert (-32767 <= Qfloor (f64 (clamp s * 32767) + (1 # 2)) <= 32767); [|lia].
  apply Qfloor_between; change (inject_Z (32767 + 1)) with (32768 # 1)%Q;
    change (inject_Z (-32767)) with (-32767 # 1)%Q; lra.
Qed.

Lemma encode_floor_f_range s : -32768 <= pcm16_encode_floor_f s <= 32767.
Proof.
  unfold pcm16_encode_floor_f, js_floor. pose proof (f64_clamp_close s) as [[Hl Hu] _].
  apply Qfloor_between; change (inject_Z (32767 + 1)) with (32768 # 1)%Q;
    change (inject_Z (-32768)) with (-32768 # 1)%Q; lra.
Qed.

Lemma pcm16_of_range (enc : Q -> Z) :
  (forall s, -32768 <= enc s <= 32767) ->
  forall v, -32768 <= pcm16_of enc v <= 32767.
Proof. intros H [s|]; [apply H | cbn; lia]. Qed.

Lemma encode_round_f_compat s t :
  (s == t)%Q -> pcm16_encode_round_f s = pcm16_encode_round_f t.
Proof.
  intros E. unfold pcm16_encode_round_f, js_round. apply Qfloor_comp.
  apply Qplus_comp; [|reflexivity]. apply f64_compat.
  apply Qmult_comp; [apply clamp_compat, E | reflexivity].
Qed.

(* ------------------------------------------------------------------ *)
(** ** The heap operations *)

Section Loops.
Lemma forM_ok (body : nat -> M unit) (upd : nat -> heap -> heap)
  (P : heap -> Prop) l h :
(forall i h, i ∈ l -> P h -> body i h = inr (tt, upd i h)) ->
(forall i h, i ∈ l -> P h -> P (upd i h)) ->
P h -> forM l body h = inr (tt, foldl (fun h i => upd i h) h l).
Proof.
induction l as [|i l IH] in h |- *; intros Hb Hp HP; [done|].
cbn [forM]. unfold bind. rewrite Hb; [| set_solver | done].
apply IH.
- intros j h' Hj HP'. apply Hb; [set_solver | done].
- intros j h' Hj HP'. apply Hp; [set_solver | done].
- apply Hp; [set_solver | done].
Qed.
End Loops.

Lemma foldl_insert_seq {A} (g : nat -> A) (f : list A) s k :
  (s + k <= length f)%nat ->
  foldl (fun f i => <[i := g i]> f) f (seq s k)
  = take s f ++ map g (seq s k) ++ drop (s + k) f.
Proof.
  induction k as [|k IH] in s, f |- *; intros Hlen.
  - simpl. rewrite Nat.add_0_r. symmetry. apply take_drop.
  - cbn [seq foldl]. rewrite IH by (rewrite length_insert; lia).
    rewrite (take_S_r _ _ (g s)) by (apply list_lookup_insert_eq; lia).
    rewrite take_insert_ge by lia.
    rewrite drop_insert_lt by lia.
    replace (S s + k)%nat with (s + S k)%nat by lia.
    cbn [map]. rewrite <- app_assoc. done.
Qed.

Lemma foldl_write2_seq (e : nat -> Z) (b : list Z) s k :
  (2 * (s + k) <= length b)%nat ->
  foldl (fun b i => write2 b (2 * i) (e i)) b (seq s k)
  = take (2 * s) b ++ flat_map (fun i => le_bytes (e i)) (seq s k)
    ++ drop (2 * (s + k)) b.
Proof.
  induction k as [|k IH] in s, b |- *; intros Hlen.
  - cbn [seq foldl flat_map app]. rewrite Nat.add_0_r. symmetry. apply take_drop.
  - cbn [seq foldl].
    rewrite IH by (unfold write2; rewrite !length_insert; lia).
    unfold write2.
    replace (2 * S s)%nat with (S (S (2 * s))) by lia.
    rewrite (take_S_r _ _ (Z.land (Z.shiftr (e s) 8) 255))
      by (apply list_lookup_insert_eq; rewrite length_insert; lia).
    rewrite take_insert_ge by lia.
    rewrite (take_S_r _ _ (Z.land (e s) 255))
      by (apply list_lookup_insert_eq; lia).
    rewrite take_insert_ge by lia.
    rewrite !drop_insert_lt by lia.
    replace (2 * (S s + k))%nat with (2 * (s + S k))%nat by lia.
    cbn [flat_map]. unfold le_bytes. rewrite <- !app_assoc. done.
Qed.

Lemma fold_f32_set (q : positive) (g : nat -> num) l (h : heap) f :
  h !! q = Some (AF32 f) ->
  foldl (fun h i => f32_set_heap q i (g i) h) h l
  = <[q := AF32 (foldl (fun f i => <[i := to_f32 (g i)]> f) f l)]> h.
Proof.
  induction l as [|i l IH] in h, f |- *; intros Hq; simpl.
  - rewrite insert_id; done.
  - unfold f32_set_heap at 2. rewrite Hq.
    rewrite (IH _ (<[i:=to_f32 (g i)]> f)) by (rewrite lookup_insert_eq; done).
    rewrite insert_insert_eq. done.
Qed.

Lemma fold_i16_set (o : positive) (e : nat -> Z) l (h : heap) b :
  h !! o = Some (ABytes b) ->
  foldl (fun h i => i16_set_heap o (2 * i) (e i) h) h l
  = <[o := ABytes (foldl (fun b i => write2 b (2 * i) (e i)) b l)]> h.
Proof.
  induction l as [|i l IH] in h, b |- *; intros Hq; simpl.
  - rewrite insert_id; done.
  - unfold i16_set_heap at 2. rewrite Hq.
    rewrite (IH _ (write2 b (2 * i) (e i))) by (rewrite lookup_insert_eq; done).
    rewrite insert_insert_eq. done.
Qed.

Lemma alloc_fresh (a : arr) (h : heap) :
  alloc a h = inr (fresh (dom h), <[fresh (dom h) := a]> h)
  /\ h !! fresh (dom h) = None.
Proof.
  split; [done|]. apply not_elem_of_dom. apply is_fresh.
Qed.

Lemma to_index_nonneg (x : Q) :
  (0 <= x)%Q -> to_index x = inr (Z.to_nat (Qfloor x)).
Proof.
  intros Hx. unfold to_index.
  destruct (Qlt_le_dec x 0) as [Hlt|_]; [lra|].
  assert (0 <= Qfloor x).
  { change 0 with (Qfloor 0). apply Qfloor_resp_le. done. }
  destruct (Qfloor x <? 0) eqn:E; [lia|done].
Qed.

Lemma Qfloor_nonneg (x : Q) : (0 <= x)%Q -> 0 <= Qfloor x.
Proof. intros Hx. change 0 with (Qfloor 0). apply Qfloor_resp_le. done. Qed.

Lemma inject_Z_nonneg z : 0 <= z -> (0 <= inject_Z z)%Q.
Proof. intros Hz. change 0%Q with (inject_Z 0). rewrite <- Zle_Qle. done. Qed.

Lemma Qfloor_half (z : Z) : Qfloor (inject_Z z / 2) = z / 2.
Proof. unfold Qfloor, Qdiv, Qinv, inject_Z. simpl. rewrite Z.mul_1_r. done. Qed.

Lemma Qfloor_scale (z : Z) (a b : positive) :
  Qfloor (inject_Z z * (Zpos a # b)) = z * Zpos a / Zpos b.
Proof. reflexivity. Qed.

Lemma in_seq0 i n : i ∈ seq 0 n -> (i < n)%nat.
Proof. rewrite elem_of_seq. lia. Qed.

Lemma map_seq_insert_all {A} (g : nat -> A) (d : A) n :
  foldl (fun f i => <[i := g i]> f) (repeat d n) (seq 0 n) = map g (seq 0 n).
Proof.
  rewrite foldl_insert_seq by (rewrite repeat_length; lia).
  rewrite take_0, drop_ge by (rewrite repeat_length; lia).
  rewrite app_nil_r. done.
Qed.

Lemma write2_all (e : nat -> Z) n :
  foldl (fun b i => write2 b (2 * i) (e i)) (repeat 0 (n * 2)) (seq 0 n)
  = flat_map (fun i => le_bytes (e i)) (seq 0 n).
Proof.
  rewrite foldl_write2_seq by (rewrite repeat_length; lia).
  rewrite take_0, drop_ge by (rewrite repeat_length; lia).
  rewrite app_nil_r. done.
Qed.

Lemma land255 (a : Z) : 0 <= Z.land a 255 < 256.
Proof.
  change 255 with (Z.ones 8). rewrite Z.land_ones by lia.
  apply Z.mod_pos_bound. lia.
Qed.

Lemma int16_of_bytes_range lo hi : -32768 <= int16_of_bytes lo hi <= 32767.
Proof.
  unfold int16_of_bytes.
  pose proof (land255 lo). pose proof (land255 hi).
  destruct (_ <? 32768) eqn:E; [apply Z.ltb_lt in E | apply Z.ltb_ge in E]; lia.
Qed.

Lemma decode_pcm16_spec (h : heap) p b :
  h !! p = Some (ABytes b) ->
  decode_pcm16 p h
  = inr (fresh (dom h), <[fresh (dom h) := AF32 (map Fin (decode_pure b))]> h)
  /\ h !! fresh (dom h) = None.
Proof.
  intros Hp. set (q := fresh (dom h)).
  assert (Hq : h !! q = None) by (apply not_elem_of_dom, is_fresh).
  assert (Hpq : p <> q) by (intros ->; congruence).
  split; [|done].
  unfold decode_pcm16, bind at 1. unfold buf_length. rewrite Hp.
  unfold bind at 1, new_f32, bind at 1, lift.
  rewrite to_index_nonneg.
  2:{ apply Qle_shift_div_l; [reflexivity|]. rewrite Qmult_0_l.
      apply inject_Z_nonneg. lia. }
  rewrite Qfloor_half.
  set (n := Z.to_nat (Z.of_nat (length b) / 2)).
  assert (Hn : n = (length b / 2)%nat).
  { unfold n. change 2 with (Z.of_nat 2). rewrite <- Nat2Z.inj_div, Nat2Z.id. done. }
  unfold alloc. fold q.
  unfold bind at 1, f32_length. rewrite lookup_insert_eq, repeat_length.
  set (g := fun i => Fin (f64 (pcm16_decode (int16_at b i)))).
  unfold bind at 1.
  rewrite (forM_ok _ (fun i => f32_set_heap q i (g i))
             (fun h' => h' !! p = Some (ABytes b)
                        /\ exists f, h' !! q = Some (AF32 f))).
  - unfold ret. rewrite fold_f32_set with (f := repeat (Fin 0) n)
      by (rewrite lookup_insert_eq; done).
    rewrite map_seq_insert_all, insert_insert_eq.
    unfold decode_pure. rewrite <- Hn, map_map. do 4 f_equal.
    apply map_ext. intros i. unfold g, to_f32.
    destruct (decode_exact (int16_at b i)) as [E1 E2]; [apply int16_of_bytes_range|].
    rewrite E1, E2. done.
  - intros i h' Hi [Hp' [f Hf]]. apply in_seq0 in Hi.
    unfold bind, read_i16le. rewrite Hp'.
    assert (Hb : (0 <=? 2 * Z.of_nat i) && (2 * Z.of_nat i + 2 <=? Z.of_nat (length b))
                 = true).
    { apply andb_true_intro; split; apply Z.leb_le; [lia|].
      rewrite Hn in Hi. pose proof (Nat.Div0.mul_div_le (length b) 2). lia. }
    rewrite Hb. unfold f32_set. rewrite Hf.
    replace (Z.to_nat (2 * Z.of_nat i)) with (2 * i)%nat by lia. done.
  - intros i h' _ [Hp' [f Hf]]. unfold f32_set_heap. rewrite Hf. split.
    + rewrite lookup_insert_ne; done.
    + eexists. apply lookup_insert_eq.
  - split.
    + rewrite lookup_insert_ne; done.
    + eexists. apply lookup_insert_eq.
Qed.

Lemma interp_loop_spec (h : heap) inp out x m ratio :
  h !! inp = Some (AF32 x) -> h !! out = Some (AF32 (repeat (Fin 0) m)) ->
  inp <> out ->
  forM (seq 0 m) (interp_step inp (length x) ratio out) h
  = inr (tt, <[out := AF32 (interp_pure x ratio m)]> h).
Proof.
  intros Hin Hout Hne.
  rewrite (forM_ok _ (fun i => f32_set_heap out i (interp_val x ratio i))
             (fun h' => h' !! inp = Some (AF32 x)
                        /\ exists f, h' !! out = Some (AF32 f))).
  - rewrite fold_f32_set with (f := repeat (Fin 0) m) by done.
    rewrite map_seq_insert_all. done.
  - intros i h' Hi [Hin' [f Hf]].
    unfold interp_step, interp_val.
    destruct (_ + 1 <? Z.of_nat (length x)).
    + unfold bind, f32_get. rewrite Hin'. cbv beta iota. rewrite Hin'.
      cbv beta iota. unfold f32_set. rewrite Hf. done.
    + unfold bind, f32_get. rewrite Hin'.
      cbv beta iota. unfold f32_set. rewrite Hf. done.
  - intros i h' _ [Hin' [f Hf]]. unfold f32_set_heap. rewrite Hf. split.
    + rewrite lookup_insert_ne; done.
    + eexists. apply lookup_insert_eq.
  - split; [done | eexists; done].
Qed.

Lemma out_len_floor n fromRate toRate :
  0 <= js_floor (f64 (inject_Z (Z.of_nat n) * f64 (Zpos toRate # fromRate))).
Proof.
  apply Qfloor_nonneg, f64_nonneg, Qmult_le_0_compat.
  - apply inject_Z_nonneg. lia.
  - apply f64_nonneg. discriminate.
Qed.

Lemma p000_len_floor n fromRate toRate :
  0 <= js_floor (f64 (inject_Z (Z.of_nat n) / f64 (Zpos fromRate # toRate))).
Proof.
  apply Qfloor_nonneg, f64_nonneg. unfold Qdiv. apply Qmult_le_0_compat.
  - apply inject_Z_nonneg. lia.
  - apply Qinv_le_0_compat, f64_nonneg. discriminate.
Qed.

Lemma out_len_Z n fromRate toRate :
  Z.of_nat (out_len n fromRate toRate)
  = js_floor (f64 (inject_Z (Z.of_nat n) * f64 (Zpos toRate # fromRate))).
Proof. unfold out_len. rewrite Z2Nat.id; [done | apply out_len_floor]. Qed.

Lemma p000_len_Z n fromRate toRate :
  Z.of_nat (p000_len n fromRate toRate)
  = js_floor (f64 (inject_Z (Z.of_nat n) / f64 (Zpos fromRate # toRate))).
Proof. unfold p000_len. rewrite Z2Nat.id; [done | apply p000_len_floor]. Qed.

Lemma interpolate_spec (h : heap) inp x fromRate toRate :
  h !! inp = Some (AF32 x) ->
  interpolate inp fromRate toRate h
  = inr (fresh (dom h),
         <[fresh (dom h) := AF32 (interp_pure x (f64 (Zpos fromRate # toRate))
                                    (out_len (length x) fromRate toRate))]> h)
  /\ h !! fresh (dom h) = None.
Proof.
  intros Hin. set (r := fresh (dom h)).
  assert (Hr : h !! r = None) by (apply not_elem_of_dom, is_fresh).
  assert (Hne : inp <> r) by (intros ->; congruence).
  split; [|done].
  unfold interpolate, bind at 1, f32_length at 1. rewrite Hin.
  unfold bind at 1, new_f32, bind at 1, lift.
  rewrite to_index_nonneg by (apply inject_Z_nonneg, out_len_floor).
  rewrite Qfloor_Z. unfold alloc. fold r.
  unfold bind at 1, f32_length. rewrite lookup_insert_eq, repeat_length.
  unfold bind at 1.
  rewrite (interp_loop_spec _ inp r x); try done.
  - unfold ret. rewrite insert_insert_eq. done.
  - rewrite lookup_insert_ne; done.
  - apply lookup_insert_eq.
Qed.

Lemma resample_p000_spec (h : heap) inp x fromRate toRate :
  h !! inp = Some (AF32 x) ->
  Part000.resampleAudio inp fromRate toRate h
  = inr (fresh (dom h),
         <[fresh (dom h) := AF32 (interp_pure x (f64 (Zpos fromRate # toRate))
                                    (p000_len (length x) fromRate toRate))]> h)
  /\ h !! fresh (dom h) = None.
Proof.
  intros Hin. set (r := fresh (dom h)).
  assert (Hr : h !! r = None) by (apply not_elem_of_dom, is_fresh).
  assert (Hne : inp <> r) by (intros ->; congruence).
  split; [|done].
  unfold Part000.resampleAudio, bind at 1, f32_length at 1. rewrite Hin.
  unfold bind at 1, new_f32, bind at 1, lift.
  rewrite to_index_nonneg by (apply inject_Z_nonneg, p000_len_floor).
  rewrite Qfloor_Z. unfold alloc. fold r.
  unfold bind at 1, f32_length. rewrite lookup_insert_eq, repeat_length.
  unfold bind at 1.
  rewrite (interp_loop_spec _ inp r x); try done.
  - unfold ret. rewrite insert_insert_eq. done.
  - rewrite lookup_insert_ne; done.
  - apply lookup_insert_eq.
Qed.

Lemma map_nth_seq0 {A} (y : list A) (d : A) :
  map (fun i => nth i y d) (seq 0 (length y)) = y.
Proof.
  induction y as [|a y IH]; [done|].
  cbn [length seq map nth]. f_equal. rewrite <- seq_shift, map_map. done.
Qed.

Lemma flat_map_nth_seq0 {A B} (F : A -> list B) (y : list A) (d : A) :
  flat_map (fun i => F (nth i y d)) (seq 0 (length y)) = flat_map F y.
Proof.
  transitivity (flat_map F (map (fun i => nth i y d) (seq 0 (length y)))).
  - rewrite !flat_map_concat_map, map_map. done.
  - rewrite map_nth_seq0. done.
Qed.

Lemma length_encode_pure enc y : length (encode_pure enc y) = (2 * length y)%nat.
Proof. induction y as [|s y IH]; [done|]. simpl. rewrite IH. lia. Qed.

Lemma length_interp_pure x ratio len : length (interp_pure x ratio len) = len.
Proof. unfold interp_pure. rewrite length_map, length_seq. done. Qed.

Lemma length_decode_pure b : length (decode_pure b) = (length b / 2)%nat.
Proof. unfold decode_pure. rewrite length_map, length_seq. done. Qed.

Lemma encode_pcm16_spec (enc : Q -> Z) (h : heap) r y :
  (forall s, -32768 <= enc s <= 32767) ->
  h !! r = Some (AF32 y) ->
  encode_pcm16 enc r h
  = inr (fresh (dom h), <[fresh (dom h) := ABytes (encode_pure enc y)]> h)
  /\ h !! fresh (dom h) = None.
Proof.
  intros Henc Hr. set (o := fresh (dom h)).
  assert (Ho : h !! o = None) by (apply not_elem_of_dom, is_fresh).
  assert (Hne : r <> o) by (intros ->; congruence).
  split; [|done].
  unfold encode_pcm16, bind at 1, f32_length at 1. rewrite Hr.
  unfold bind at 1, buffer_alloc, bind at 1, lift.
  rewrite to_index_nonneg.
  2:{ apply Qmult_le_0_compat; [|discriminate]. apply inject_Z_nonneg. lia. }
  change 2%Q with (Zpos 2 # 1). rewrite Qfloor_scale, Z.div_1_r.
  replace (Z.to_nat (Z.of_nat (length y) * 2)) with (length y * 2)%nat by lia.
  unfold alloc. fold o.
  unfold bind at 1.
  set (e := fun i => pcm16_of enc (nth i y NaN)).
  rewrite (forM_ok _ (fun i => i16_set_heap o (2 * i) (e i))
             (fun h' => h' !! r = Some (AF32 y)
                        /\ exists b, h' !! o = Some (ABytes b)
                                     /\ length b = (length y * 2)%nat)).
  - unfold ret. rewrite fold_i16_set with (b := repeat 0 (length y * 2))
      by (rewrite lookup_insert_eq; done).
    rewrite write2_all, insert_insert_eq.
    unfold encode_pure, e.
    rewrite (flat_map_nth_seq0 (fun s => le_bytes (pcm16_of enc s))). done.
  - intros i h' Hi [Hr' [b [Hb Hlb]]]. apply in_seq0 in Hi.
    unfold bind, f32_get. rewrite Hr'.
    unfold arr_get.
    replace ((0 <=? Z.of_nat i) && (Z.of_nat i <? Z.of_nat (length y))) with true
      by (symmetry; apply andb_true_intro; split; [apply Z.leb_le | apply Z.ltb_lt]; lia).
    cbv beta iota. unfold write_i16le. rewrite Hb.
    rewrite Nat2Z.id.
    destruct (pcm16_of_range enc Henc (nth i y NaN)) as [Hlo Hhi].
    replace ((-32768 <=? pcm16_of enc (nth i y NaN)) && (pcm16_of enc (nth i y NaN) <=? 32767)
             && (0 <=? 2 * Z.of_nat i)
             && (2 * Z.of_nat i + 2 <=? Z.of_nat (length b))) with true
      by (symmetry; repeat (apply andb_true_intro; split); apply Z.leb_le; lia).
    replace (Z.to_nat (2 * Z.of_nat i)) with (2 * i)%nat by lia. done.
  - intros i h' _ [Hr' [b [Hb Hlb]]]. unfold i16_set_heap. rewrite Hb. split.
    + rewrite lookup_insert_ne; done.
    + eexists. split; [apply lookup_insert_eq|].
      unfold write2. rewrite !length_insert. done.
  - split.
    + rewrite lookup_insert_ne; done.
    + eexists. split; [apply lookup_insert_eq | apply repeat_length].
Qed.

Lemma server_resample_spec (h : heap) p b fromRate toRate :
  h !! p = Some (ABytes b) ->
  exists o h', Server.resampleAudio p fromRate toRate h = inr (o, h')
    /\ h' !! o = Some (ABytes (resample_bytes_pure b fromRate toRate))
    /\ h ⊆ h' /\ h !! o = None.
Proof.
  intros Hp.
  destruct (decode_pcm16_spec h p b Hp) as [Hd Hq].
  set (q := fresh (dom h)) in *. set (h1 := <[q := AF32 (map Fin (decode_pure b))]> h).
  destruct (interpolate_spec h1 q (map Fin (decode_pure b)) fromRate toRate)
    as [Hi Hr]; [apply lookup_insert_eq|].
  rewrite length_map, length_decode_pure in Hi.
  set (r := fresh (dom h1)) in *.
  set (y := interp_pure _ _ _) in Hi.
  set (h2 := <[r := AF32 y]> h1).
  destruct (encode_pcm16_spec pcm16_encode_round_f h2 r y) as [He Ho].
  { apply encode_round_f_range. }
  { apply lookup_insert_eq. }
  set (o := fresh (dom h2)) in *.
  exists o, (<[o := ABytes (resample_bytes_pure b fromRate toRate)]> h2).
  unfold Server.resampleAudio, bind. rewrite Hd. fold h1. rewrite Hi. fold h2.
  rewrite He. split; [done|]. split; [apply lookup_insert_eq|].
  assert (Hh1 : h ⊆ h1) by (apply insert_subseteq; done).
  assert (Hh2 : h1 ⊆ h2) by (apply insert_subseteq; done).
  assert (Hh3 : h2 ⊆ <[o := ABytes (resample_bytes_pure b fromRate toRate)]> h2)
    by (apply insert_subseteq; done).
  split; [etrans; [exact Hh1|]; etrans; [exact Hh2|exact Hh3]|].
  apply lookup_weaken_None with h2; [done|]. etrans; done.
Qed.

Lemma p002_resample_spec (h : heap) p b fromRate toRate :
  h !! p = Some (ABytes b) ->
  exists r h', Part002.resampleAudio p fromRate toRate h = inr (r, h')
    /\ h' !! r = Some (AF32 (interp_pure (map Fin (decode_pure b))
                               (f64 (Zpos fromRate # toRate))
                               (out_len (length b / 2) fromRate toRate)))
    /\ h ⊆ h' /\ h !! r = None.
Proof.
  intros Hp.
  destruct (decode_pcm16_spec h p b Hp) as [Hd Hq].
  set (q := fresh (dom h)) in *. set (h1 := <[q := AF32 (map Fin (decode_pure b))]> h).
  destruct (interpolate_spec h1 q (map Fin (decode_pure b)) fromRate toRate)
    as [Hi Hr]; [apply lookup_insert_eq|].
  rewrite length_map, length_decode_pure in Hi.
  set (r := fresh (dom h1)) in *.
  eexists r, _.
  unfold Part002.resampleAudio, bind. rewrite Hd. fold h1. rewrite Hi.
  split; [done|]. split; [apply lookup_insert_eq|].
  assert (Hh1 : h ⊆ h1) by (apply insert_subseteq; done).
  split; [etrans; [exact Hh1|]; apply insert_subseteq; done|].
  apply lookup_weaken_None with h1; done.
Qed.

(** ** Same-rate resampling and the output length *)

Lemma arr_get_map_Fin (xs : list Q) (i : nat) :
  (i < length xs)%nat -> arr_get (map Fin xs) (Z.of_nat i) = Fin (nth i xs 0%Q).
Proof.
  intros Hi. unfold arr_get. rewrite length_map.
  replace ((0 <=? Z.of_nat i) && (Z.of_nat i <? Z.of_nat (length xs))) with true
    by (symmetry; apply andb_true_intro; split; [apply Z.leb_le | apply Z.ltb_lt]; lia).
  rewrite Nat2Z.id, (nth_indep _ NaN (Fin 0%Q)) by (rewrite length_map; done).
  apply map_nth.
Qed.

Lemma f64_ratio_same (R : positive) : (f64 (Zpos R # R) == 1)%Q.
Proof.
  apply Qeq_trans with (f64 1); [apply f64_compat; unfold Qeq; simpl; lia|].
  rewrite f64_one. reflexivity.
Qed.

Lemma f64_nat (n : nat) : Z.of_nat n < 2 ^ 53 -> f64 (inject_Z (Z.of_nat n)) = inject_Z (Z.of_nat n).
Proof. intros H. apply f64_int. lia. Qed.

Lemma f64_single_id (a : Q) : fround a = a -> (f64 a == a)%Q.
Proof. intros H. rewrite f64_of_single by done. reflexivity. Qed.

(** At equal rates the loop stores the input sample back. *)
Lemma interp_at_same_rate (xs : list Q) (R : positive) (i : nat) :
  Forall (fun q => fround q = q) xs -> Z.of_nat (length xs) < 2 ^ 53 ->
  (i < length xs)%nat ->
  exists y, interp_at (map Fin xs) (f64 (Zpos R # R)) i = Fin y /\ (y == nth i xs 0)%Q.
Proof.
  intros Hs Hn Hi.
  set (a := nth i xs 0%Q).
  assert (Ha : fround a = a) by (apply (Forall_nth (fun q => fround q = q)); done).
  unfold interp_at, interp_val. cbv zeta.
  set (pos := f64 (inject_Z (Z.of_nat i) * f64 (Zpos R # R))).
  assert (Hpos : (pos == inject_Z (Z.of_nat i))%Q).
  { unfold pos. apply Qeq_trans with (f64 (inject_Z (Z.of_nat i))).
    - apply f64_compat.
      apply Qeq_trans with (inject_Z (Z.of_nat i) * 1)%Q; [|ring].
      apply Qmult_comp; [reflexivity | apply f64_ratio_same].
    - rewrite f64_nat by lia. reflexivity. }
  assert (Hidx : js_floor pos = Z.of_nat i)
    by (unfold js_floor; rewrite (Qfloor_comp _ _ Hpos); apply Qfloor_Z).
  rewrite Hidx.
  set (fr := f64 (pos - inject_Z (Z.of_nat i))).
  assert (Hfr : (fr == 0)%Q).
  { unfold fr. apply f64_zero.
    apply Qeq_trans with (inject_Z (Z.of_nat i) - inject_Z (Z.of_nat i))%Q; [|ring].
    apply Qplus_comp; [exact Hpos | reflexivity]. }
  rewrite (arr_get_map_Fin xs i Hi). fold a.
  destruct (Z.of_nat i + 1 <? Z.of_nat (length (map Fin xs))) eqn:E.
  - apply Z.ltb_lt in E. rewrite length_map in E.
    replace (Z.of_nat i + 1) with (Z.of_nat (S i)) by lia.
    rewrite (arr_get_map_Fin xs (S i)) by lia.
    set (b := nth (S i) xs 0%Q).
    cbn [nadd nmul to_f32]. eexists. split; [reflexivity|].
    assert (H1 : (f64 (1 - fr) == 1)%Q).
    { apply Qeq_trans with (f64 1); [|rewrite f64_one; reflexivity].
      apply f64_compat. apply Qeq_trans with (1 - 0)%Q; [|ring].
      apply Qplus_comp; [reflexivity | apply Qopp_comp; exact Hfr]. }
    assert (H2 : (f64 (a * f64 (1 - fr)) == a)%Q).
    { apply Qeq_trans with (f64 a); [|apply f64_single_id; done].
      apply f64_compat. apply Qeq_trans with (a * 1)%Q; [|ring].
      apply Qmult_comp; [reflexivity | exact H1]. }
    assert (H3 : (f64 (b * fr) == 0)%Q).
    { apply f64_zero. apply Qeq_trans with (b * 0)%Q; [|ring].
      apply Qmult_comp; [reflexivity | exact Hfr]. }
    apply Qeq_trans with (fround a); [|rewrite Ha; reflexivity].
    apply fround_compat.
    apply Qeq_trans with (f64 a); [|apply f64_single_id; done].
    apply f64_compat. apply Qeq_trans with (a + 0)%Q; [|ring].
    apply Qplus_comp; [exact H2 | exact H3].
  - cbn [to_f32]. eexists. split; [reflexivity|]. rewrite Ha. reflexivity.
Qed.

Lemma Forall2_Fin (l : list num) (xs : list Q) :
  Forall2 (fun v q => exists y, v = Fin y /\ (y == q)%Q) l xs ->
  exists ys, l = map Fin ys /\ Forall2 Qeq ys xs.
Proof.
  induction 1 as [|v q l xs [y [-> Hy]] _ [ys [-> IH]]].
  - exists []. done.
  - exists (y :: ys). split; [done|]. constructor; done.
Qed.

Lemma interp_pure_same_rate (xs : list Q) (R : positive) :
  Forall (fun q => fround q = q) xs -> Z.of_nat (length xs) < 2 ^ 53 ->
  exists ys, interp_pure (map Fin xs) (f64 (Zpos R # R)) (length xs) = map Fin ys
             /\ Forall2 Qeq ys xs.
Proof.
  intros Hs Hn. apply Forall2_Fin.
  unfold interp_pure.
  assert (Hall : forall i, In i (seq 0 (length xs)) ->
            exists y, interp_at (map Fin xs) (f64 (Zpos R # R)) i = Fin y
                      /\ (y == nth i xs 0)%Q).
  { intros i Hi. apply in_seq in Hi. apply interp_at_same_rate; [done | done | lia]. }
  assert (H : Forall2 (fun v q => exists y, v = Fin y /\ (y == q)%Q)
                (map (interp_at (map Fin xs) (f64 (Zpos R # R))) (seq 0 (length xs)))
                (map (fun i => nth i xs 0%Q) (seq 0 (length xs)))).
  { induction (seq 0 (length xs)) as [|i l IH]; simpl; constructor.
    - apply Hall. left. done.
    - apply IH. intros j Hj. apply Hall. right. done. }
  rewrite map_nth_seq0 in H. exact H.
Qed.

Lemma out_len_same_rate n (R : positive) :
  Z.of_nat n < 2 ^ 53 -> out_len n R R = n.
Proof.
  intros Hn. apply Nat2Z.inj. rewrite out_len_Z. unfold js_floor.
  rewrite <- (Qfloor_Z (Z.of_nat n)) at 2. apply Qfloor_comp.
  apply Qeq_trans with (f64 (inject_Z (Z.of_nat n))); [|rewrite f64_nat by done; reflexivity].
  apply f64_compat. apply Qeq_trans with (inject_Z (Z.of_nat n) * 1)%Q; [|ring].
  apply Qmult_comp; [reflexivity | apply f64_ratio_same].
Qed.

Lemma p000_len_same_rate n (R : positive) :
  Z.of_nat n < 2 ^ 53 -> p000_len n R R = n.
Proof.
  intros Hn. apply Nat2Z.inj. rewrite p000_len_Z. unfold js_floor.
  rewrite <- (Qfloor_Z (Z.of_nat n)) at 2. apply Qfloor_comp.
  apply Qeq_trans with (f64 (inject_Z (Z.of_nat n))); [|rewrite f64_nat by done; reflexivity].
  apply f64_compat. apply Qeq_trans with (inject_Z (Z.of_nat n) / 1)%Q; [|field].
  apply Qdiv_comp; [reflexivity | apply f64_ratio_same].
Qed.

Lemma decode_pure_single b : Forall (fun q => fround q = q) (decode_pure b).
Proof.
  unfold decode_pure. apply Forall_forall. intros q Hq.
  apply list_elem_of_fmap in Hq as (i & -> & _).
  apply decode_exact, int16_of_bytes_range.
Qed.

Lemma encode_round_f_Fin (ys xs : list Q) :
  Forall2 Qeq ys xs -> Forall (fun q => fround q = q) xs ->
  encode_pure pcm16_encode_round_f (map Fin ys)
  = flat_map (fun s => le_bytes (pcm16_encode_round s)) xs.
Proof.
  induction 1 as [|y x ys xs Hyx _ IH]; intros Hs; [done|].
  inversion Hs as [|? ? Hx Hxs]; subst.
  cbn [map encode_pure flat_map pcm16_of]. fold (encode_pure pcm16_encode_round_f (map Fin ys)).
  rewrite IH by done. rewrite (encode_round_f_compat y x Hyx), encode_round_f_single by done.
  done.
Qed.

(** [floor] moves by at most one when its argument moves by less than one. *)
Lemma Qfloor_near (x y : Q) :
  (x - 1 < y)%Q -> (y < x + 1)%Q -> Qfloor x - 1 <= Qfloor y <= Qfloor x + 1.
Proof.
  intros Hl Hu.
  pose proof (Qfloor_le x) as H1. pose proof (Qlt_floor x) as H2.
  pose proof (Qfloor_le y) as H3. pose proof (Qlt_floor y) as H4.
  rewrite inject_Z_plus in H2, H4. change (inject_Z 1) with 1%Q in H2, H4.
  assert (A : (inject_Z (Qfloor y) < inject_Z (Qfloor x + 2))%Q)
    by (rewrite inject_Z_plus; change (inject_Z 2) with 2%Q; lra).
  assert (B : (inject_Z (Qfloor x) < inject_Z (Qfloor y + 2))%Q)
    by (rewrite inject_Z_plus; change (inject_Z 2) with 2%Q; lra).
  rewrite <- Zlt_Qlt in A, B. lia.
Qed.

Lemma pow2_normal (a : positive) :
  Zpos a <= 2 ^ 53 -> forall b : positive, (pow2 (-1022) <= Qabs (Zpos b # a))%Q.
Proof.
  intros Ha b. rewrite Qabs_pos by discriminate.
  apply Qle_trans with (pow2 (-53)); [apply pow2_le; lia|].
  rewrite pow2_m53. unfold Qle. simpl. change (2 ^ 53) with 9007199254740992 in Ha. lia.
Qed.

Lemma rates_scale (n : nat) (f t : positive) :
  (inject_Z (Z.of_nat n) * inject_Z (Zpos t) / inject_Z (Zpos f)
   == inject_Z (Z.of_nat n) * (Zpos t # f))%Q.
Proof. unfold Qeq, Qdiv, Qmult, Qinv, inject_Z. simpl. lia. Qed.

Lemma rates_bound (n : nat) (f t : positive) :
  Z.of_nat n * Zpos t <= 2 ^ 51 * Zpos f ->
  (inject_Z (Z.of_nat n) * (Zpos t # f) <= 2251799813685248)%Q.
Proof. intros H. unfold Qle, Qmult, inject_Z. simpl. change (2 ^ 51) with 2251799813685248 in H. lia. Qed.

Lemma Qmult_bound (N a b : Q) :
  (0 <= N)%Q -> (- b <= a <= b)%Q -> (- (N * b) <= N * a <= N * b)%Q.
Proof. intros HN [Hl Hu]. split; nra. Qed.

Lemma out_len_core (N t r X : Q) :
  (X == N * t)%Q -> (0 <= N)%Q -> (0 <= X <= 2251799813685248)%Q -> (0 <= r)%Q ->
  (- (t * (1 # 9007199254740992)) <= r - t <= t * (1 # 9007199254740992))%Q ->
  Qfloor X - 1 <= Qfloor (f64 (N * r)%Q) <= Qfloor X + 1.
Proof.
  intros HXe HN [HX0 HX] Hrp Hr.
  pose proof (Qmult_bound N _ _ HN Hr) as [Hd1 Hd2].
  assert (E1 : (N * (t * (1 # 9007199254740992)) == X * (1 # 9007199254740992))%Q)
    by (rewrite HXe; ring).
  assert (E2 : (N * r == X + N * (r - t))%Q) by (rewrite HXe; ring).
  assert (Hr0 : (0 <= N * r)%Q) by (apply Qmult_le_0_compat; done).
  pose proof (f64_err (N * r)) as Hy.
  assert (Ay : (Qabs (N * r) == N * r)%Q) by (apply Qabs_pos; done).
  apply Qabs_Qle_condition in Hy.
  apply Qfloor_near; lra.
Qed.


(** The output length of server.ts / part_002 [resampleAudio] is within one
    of [floor(n * toRate / fromRate)] as long as the latter is at most
    [2^51]. *)
Lemma out_len_near n (fromRate toRate : positive) :
  Zpos fromRate <= 2 ^ 53 ->
  Z.of_nat n * Zpos toRate <= 2 ^ 51 * Zpos fromRate ->
  let x := (inject_Z (Z.of_nat n) * inject_Z (Zpos toRate) / inject_Z (Zpos fromRate))%Q in
  Qfloor x - 1 <= Z.of_nat (out_len n fromRate toRate) <= Qfloor x + 1.
Proof.
  intros Hf HnB x. rewrite out_len_Z. unfold js_floor.
  assert (Hx : (x == inject_Z (Z.of_nat n) * (Zpos toRate # fromRate))%Q)
    by apply rates_scale.
  rewrite (Qfloor_comp _ _ Hx).
  assert (HX : (inject_Z (Z.of_nat n) * (Zpos toRate # fromRate) <= 2251799813685248)%Q)
    by apply rates_bound, HnB.
  assert (HN : (0 <= inject_Z (Z.of_nat n))%Q) by (apply inject_Z_nonneg; lia).
  assert (Ht : (0 < (Zpos toRate # fromRate))%Q) by reflexivity.
  pose proof (f64_rel _ (pow2_normal fromRate Hf toRate)) as H.
  pose proof (f64_nonneg (Zpos toRate # fromRate)) as Hrp.
  revert H Hrp HX HN Ht.
  generalize (f64 (Zpos toRate # fromRate)); intros r.
  generalize (Zpos toRate # fromRate); intros t.
  generalize (inject_Z (Z.of_nat n)); intros N.
  intros H Hrp HX HN Ht.
  assert (At : (Qabs t == t)%Q) by (apply Qabs_pos; lra).
  apply (out_len_core N t r); [reflexivity | done | split; [nra | done] | apply Hrp; lra |].
  apply Qabs_Qle_condition. lra.
Qed.


(** ** The PCM16 codec *)

Lemma encode_round_range (s : Q) :
  -32767 <= pcm16_encode_round s <= 32767.
Proof.
  unfold pcm16_encode_round, js_round. pose proof (clamp_bounds s) as [Hl Hu].
  assert (El : Qfloor (-32767 + (1 # 2)) = -32767) by reflexivity.
  assert (Eu : Qfloor (32767 + (1 # 2)) = 32767) by reflexivity.
  split.
  - rewrite <- El at 1. apply Qfloor_resp_le. lra.
  - rewrite <- Eu at 2. apply Qfloor_resp_le. lra.
Qed.

Lemma encode_floor_range (s : Q) :
  -32767 <= pcm16_encode_floor s <= 32767.
Proof.
  unfold pcm16_encode_floor, js_floor. pose proof (clamp_bounds s) as [Hl Hu].
  assert (El : Qfloor (-32767) = -32767) by reflexivity.
  assert (Eu : Qfloor 32767 = 32767) by reflexivity.
  split.
  - apply Z.le_trans with (Qfloor (-32767)); [rewrite El; reflexivity|].
    apply Qfloor_resp_le. lra.
  - apply Z.le_trans with (Qfloor 32767); [|rewrite Eu; reflexivity].
    apply Qfloor_resp_le. lra.
Qed.

Lemma clamp_id (s : Q) : (-1 <= s <= 1)%Q -> (clamp s == s)%Q.
Proof.
  intros [Hl Hu]. unfold clamp.
  rewrite (Q.min_r 1 s Hu). apply Q.max_r. done.
Qed.

Lemma encode_round_compat (s t : Q) : (s == t)%Q -> pcm16_encode_round s = pcm16_encode_round t.
Proof.
  intros E. unfold pcm16_encode_round, js_round, clamp. apply Qfloor_comp.
  rewrite E. reflexivity.
Qed.

Lemma decode_range (k : Z) : -32768 <= k <= 32767 -> (-1 <= pcm16_decode k <= 1)%Q.
Proof.
  intros Hk. unfold pcm16_decode. split.
  - apply Qle_shift_div_l; [reflexivity|].
    change (-1 * 32768)%Q with (inject_Z (-32768)). rewrite <- Zle_Qle. lia.
  - apply Qle_shift_div_r; [reflexivity|].
    change (1 * 32768)%Q with (inject_Z 32768). rewrite <- Zle_Qle. lia.
Qed.

Lemma encode_round_clamped (s : Q) :
  (-1 <= s <= 1)%Q -> pcm16_encode_round s = Qfloor (s * 32767 + (1 # 2)).
Proof.
  intros Hs. unfold pcm16_encode_round, js_round. apply Qfloor_comp.
  rewrite (clamp_id s Hs). reflexivity.
Qed.

Lemma encode_floor_clamped (s : Q) :
  (-1 <= s <= 1)%Q -> pcm16_encode_floor s = Qfloor (s * 32767).
Proof.
  intros Hs. unfold pcm16_encode_floor, js_floor. apply Qfloor_comp.
  rewrite (clamp_id s Hs). reflexivity.
Qed.

Lemma decode_div (k : Z) : pcm16_decode k = (inject_Z k * (1 # 32768))%Q.
Proof. reflexivity. Qed.

Lemma roundtrip_round_bound (s : Q) :
  (-1 <= s <= 1)%Q ->
  (Qabs (pcm16_decode (pcm16_encode_round s) - s) <= 3 # 65536)%Q.
Proof.
  intros Hs. rewrite encode_round_clamped by done.
  set (x := (s * 32767 + (1 # 2))%Q).
  pose proof (Qfloor_le x) as H1. pose proof (Qlt_floor x) as H2.
  rewrite inject_Z_plus in H2. change (inject_Z 1) with 1%Q in H2. unfold x in *.
  rewrite decode_div. apply Qabs_Qle_condition. destruct Hs. split; lra.
Qed.

Lemma roundtrip_floor_bound (s : Q) :
  (-1 <= s <= 1)%Q ->
  (Qabs (pcm16_decode (pcm16_encode_floor s) - s) <= 2 # 32768)%Q.
Proof.
  intros Hs. rewrite encode_floor_clamped by done.
  set (x := (s * 32767)%Q).
  pose proof (Qfloor_le x) as H1. pose proof (Qlt_floor x) as H2.
  rewrite inject_Z_plus in H2. change (inject_Z 1) with 1%Q in H2. unfold x in *.
  rewrite decode_div. apply Qabs_Qle_condition. destruct Hs. split; lra.
Qed.

Lemma requantize_bound (k : Z) :
  -32768 <= k <= 32767 -> Z.abs (pcm16_encode_round (pcm16_decode k) - k) <= 1.
Proof.
  intros Hk. pose proof (roundtrip_round_bound _ (decode_range k Hk)) as H.
  set (e := pcm16_encode_round (pcm16_decode k)) in *.
  rewrite !decode_div in H. apply Qabs_Qle_condition in H as [Hl Hu].
  assert (Hu' : (inject_Z (e - k) < inject_Z 2)%Q).
  { unfold Z.sub. rewrite inject_Z_plus, inject_Z_opp. change (inject_Z 2) with (2 # 1)%Q. lra. }
  assert (Hl' : (inject_Z (-2) < inject_Z (e - k))%Q).
  { unfold Z.sub. rewrite inject_Z_plus, inject_Z_opp. change (inject_Z (-2)) with (-2 # 1)%Q. lra. }
  rewrite <- Zlt_Qlt in Hu', Hl'. lia.
Qed.

Lemma encode_pure_map (enc : Q -> Z) (f : nat -> Q) (l : list nat) :
  encode_pure enc (map (fun i => Fin (f i)) l) = flat_map (fun i => le_bytes (enc (f i))) l.
Proof. unfold encode_pure. rewrite !flat_map_concat_map, map_map. done. Qed.

(* ------------------------------------------------------------------ *)
(** ** Claims about the resampler and the PCM16 codec *)




(** C7 (as stated, refuted): with encoding [round(clamp(s) * 32767)] and
    decoding [k / 32768], the round trip can be off by more than one
    quantization step.  At [s = 1 - 769 / 2^24] (exactly representable in
    single and double precision, so every operation below is exact in IEEE
    arithmetic), [s * 32767 = 32765.498...] encodes to 32765, which decodes
    to [1 - 1536 / 2^24]: an error of [767 / 2^24 > 512 / 2^24 = 1 / 32768]. *)
Lemma pcm16_roundtrip_counterexample :
  ~ (forall s : Q, (-1 <= s <= 1)%Q ->
       (Qabs (pcm16_decode (pcm16_encode_round s) - s) <= 1 # 32768)%Q).
Proof.
  intros H.
  specialize (H (16776447 # 16777216)%Q).
  assert (Hs : (-1 <= 16776447 # 16777216 <= 1)%Q) by (split; vm_compute; discriminate).
  specialize (H Hs). vm_compute in H. apply H. reflexivity.
Qed.

(** C7 (amended): decoding is [k / 32768]; server.ts encodes with
    [round(clamp(s) * 32767)] and part_000 [convertAudioFormat] (like
    part_002) with [floor(clamp(s) * 32767)].  For every [s] in [[-1, 1]],
    [decode(encode(s))] is within 1.5 quantization steps ([3 / 65536]) of
    [s] with rounding, and within 2 steps ([2 / 32768]) with flooring. *)
Theorem pcm16_roundtrip_error (s : Q) :
  (-1 <= s <= 1)%Q ->
  (Qabs (pcm16_decode (pcm16_encode_round s) - s) <= 3 # 65536)%Q
  /\ (Qabs (pcm16_decode (pcm16_encode_floor s) - s) <= 2 # 32768)%Q.
Proof.
  intros Hs. split; [apply roundtrip_round_bound | apply roundtrip_floor_bound]; done.
Qed.

Lemma pcm16_roundtrip_error_witness :
  (-1 <= 16776447 # 16777216 <= 1)%Q
  /\ (Qabs (pcm16_decode (pcm16_encode_round (16776447 # 16777216)) - (16776447 # 16777216))
        <= 3 # 65536)%Q
  /\ (Qabs (pcm16_decode (pcm16_encode_floor (16776447 # 16777216)) - (16776447 # 16777216))
        <= 2 # 32768)%Q.
Proof.
  assert (Hs : (-1 <= 16776447 # 16777216 <= 1)%Q) by (split; vm_compute; discriminate).
  split; [exact Hs|]. apply (pcm16_roundtrip_error (16776447 # 16777216)). exact Hs.
Defined.

(** C8: [resampleAudio] of server.ts and of part_002 throw no exception on
    any byte buffer (empty, odd-length or any other) at positive rates, and
    never mutate their input: every array of the heap before the call,
    the input buffer included, is unchanged after it. *)
Theorem resample_total_no_mutation (h : heap) p b (fromRate toRate : positive) :
  h !! p = Some (ABytes b) ->
  (exists o h', Server.resampleAudio p fromRate toRate h = inr (o, h')
     /\ h ⊆ h' /\ h' !! p = Some (ABytes b))
  /\ (exists r h', Part002.resampleAudio p fromRate toRate h = inr (r, h')
     /\ h ⊆ h' /\ h' !! p = Some (ABytes b)).
Proof.
  intros Hp. split.
  - destruct (server_resample_spec h p b fromRate toRate Hp) as (o & h' & E & _ & Hs & _).
    exists o, h'. split; [done|]. split; [done|]. eapply lookup_weaken; done.
  - destruct (p002_resample_spec h p b fromRate toRate Hp) as (r & h' & E & _ & Hs & _).
    exists r, h'. split; [done|]. split; [done|]. eapply lookup_weaken; done.
Qed.

Lemma resample_total_no_mutation_witness :
  let h : heap := <[1%positive := ABytes [7; 200; 9]]> ∅ in
  h !! 1%positive = Some (ABytes [7; 200; 9])
  /\ (exists o h', Server.resampleAudio 1 24000 8000 h = inr (o, h')
        /\ h ⊆ h' /\ h' !! 1%positive = Some (ABytes [7; 200; 9]))
  /\ (exists r h', Part002.resampleAudio 1 24000 8000 h = inr (r, h')
        /\ h ⊆ h' /\ h' !! 1%positive = Some (ABytes [7; 200; 9])).
Proof.
  intros h. split; [reflexivity|].
  apply (resample_total_no_mutation h 1 [7; 200; 9] 24000 8000). reflexivity.
Defined.

(** C9 (as stated, refuted): server.ts [resampleAudio(x, R, R)] is not the
    identity: the int16 sample 32767 (bytes [0xff; 0x7f]) comes back as
    32766 (bytes [0xfe; 0x7f]). *)
Lemma resample_identity_counterexample :
  ~ (forall (R : positive) (h : heap) p b, h !! p = Some (ABytes b) ->
       exists o h', Server.resampleAudio p R R h = inr (o, h')
                    /\ h' !! o = Some (ABytes b)).
Proof.
  intros H.
  assert (Hl : (<[1%positive := ABytes [255; 127]]> ∅ : heap) !! 1%positive
                = Some (ABytes [255; 127])) by reflexivity.
  destruct (H 8000%positive _ 1%positive [255; 127] Hl) as (o & h' & E & L).
  vm_compute in E. injection E as <- <-. vm_compute in L. congruence.
Qed.

(** C9 (amended): at equal rates the interpolation is the identity, so
    part_000 [resampleAudio(x, R, R)] returns an array numerically equal to
    [x] (an array of finite samples, as a [Float32Array] holds them);
    server.ts [resampleAudio(x, R, R)] returns, for each input int16
    sample [k], the sample [round(clamp(k / 32768) * 32767)], which is
    within one of [k].  (Lengths are below [2^53].) *)
Theorem resample_same_rate (R : positive) (h : heap) p b p' (x : list Q) :
  h !! p = Some (ABytes b) -> h !! p' = Some (AF32 (map Fin x)) ->
  Forall (fun q => fround q = q) x ->
  Z.of_nat (length x) < 2 ^ 53 -> Z.of_nat (length b / 2) < 2 ^ 53 ->
  (exists r h' y, Part000.resampleAudio p' R R h = inr (r, h')
     /\ h' !! r = Some (AF32 (map Fin y)) /\ Forall2 Qeq y x)
  /\ (exists o h', Server.resampleAudio p R R h = inr (o, h')
     /\ h' !! o = Some (ABytes (flat_map (fun i =>
             le_bytes (pcm16_encode_round (pcm16_decode (int16_at b i))))
           (seq 0 (length b / 2)))))
  /\ (forall k, -32768 <= k <= 32767 ->
        Z.abs (pcm16_encode_round (pcm16_decode k) - k) <= 1).
Proof.
  intros Hp Hp' Hs Hx Hb. split; [|split].
  - destruct (resample_p000_spec h p' (map Fin x) R R Hp') as [E _].
    rewrite length_map, p000_len_same_rate in E by done.
    destruct (interp_pure_same_rate x R Hs Hx) as (y & Ey & Hy).
    rewrite Ey in E. eexists _, _, y. split; [exact E|].
    split; [apply lookup_insert_eq | exact Hy].
  - destruct (server_resample_spec h p b R R Hp) as (o & h' & E & L & _ & _).
    exists o, h'. split; [done|]. rewrite L. f_equal. f_equal.
    unfold resample_bytes_pure. rewrite out_len_same_rate by done.
    rewrite <- length_decode_pure.
    rewrite <- length_decode_pure in Hb.
    destruct (interp_pure_same_rate (decode_pure b) R (decode_pure_single b) Hb)
      as (y & Ey & Hy).
    rewrite Ey, (encode_round_f_Fin y (decode_pure b) Hy (decode_pure_single b)).
    unfold decode_pure. rewrite flat_map_concat_map, map_map, <- flat_map_concat_map.
    rewrite length_map, length_seq. done.
  - apply requantize_bound.
Qed.

Lemma resample_same_rate_witness :
  let h : heap := <[2%positive := AF32 (map Fin [1 # 2; -1 # 4])]>
                    (<[1%positive := ABytes [255; 127]]> ∅) in
  h !! 1%positive = Some (ABytes [255; 127])
  /\ h !! 2%positive = Some (AF32 (map Fin [1 # 2; -1 # 4]))
  /\ ((exists r h' y, Part000.resampleAudio 2 8000 8000 h = inr (r, h')
        /\ h' !! r = Some (AF32 (map Fin y)) /\ Forall2 Qeq y [1 # 2; -1 # 4])
     /\ (exists o h', Server.resampleAudio 1 8000 8000 h = inr (o, h')
        /\ h' !! o = Some (ABytes (flat_map (fun i =>
             le_bytes (pcm16_encode_round (pcm16_decode (int16_at [255; 127] i))))
           (seq 0 (length [255; 127] / 2)))))
     /\ (forall k, -32768 <= k <= 32767 ->
           Z.abs (pcm16_encode_round (pcm16_decode k) - k) <= 1)).
Proof.
  intros h. split; [reflexivity|]. split; [reflexivity|].
  apply (resample_same_rate 8000 h 1 [255; 127] 2 [1 # 2; -1 # 4]);
    [reflexivity | reflexivity | repeat (apply List.Forall_cons; [vm_compute; reflexivity|]); apply List.Forall_nil | vm_compute; reflexivity | vm_compute; reflexivity].
Defined.
(* ------------------------------------------------------------------ *)
(** ** The conversions on the session paths *)

Lemma server_convert_at (h : heap) p b (fromRate toRate : positive) :
  h !! p = Some (ABytes b) ->
  exists h', (convertedAudio <- Server.resampleAudio p fromRate toRate ;;
              buf_read convertedAudio) h
             = inr (resample_bytes_pure b fromRate toRate, h') /\ h ⊆ h'.
Proof.
  intros Hp.
  destruct (server_resample_spec h p b fromRate toRate Hp) as (o & h' & E & L & Hs & _).
  exists h'. unfold bind. rewrite E. unfold buf_read. rewrite L. done.
Qed.

Lemma server_convert_ok (h : heap) b (fromRate toRate : positive) :
  exists h', (audioBuffer <- alloc (ABytes b) ;;
              convertedAudio <- Server.resampleAudio audioBuffer fromRate toRate ;;
              buf_read convertedAudio) h
             = inr (resample_bytes_pure b fromRate toRate, h') /\ h ⊆ h'.
Proof.
  destruct (alloc_fresh (ABytes b) h) as [Ea Hn].
  destruct (server_convert_at (<[fresh (dom h) := ABytes b]> h) (fresh (dom h)) b
              fromRate toRate) as (h' & E & Hs).
  { apply lookup_insert_eq. }
  exists h'. unfold bind at 1. rewrite Ea. cbv beta iota. split; [exact E|].
  etransitivity; [apply insert_subseteq; exact Hn | exact Hs].
Qed.

(** ** The chunk loop of part_002 *)

Lemma drop_map_seq (f : nat -> nat) a : forall s k,
  drop a (map f (seq s k)) = map f (seq (s + a) (k - a)).
Proof.
  induction a as [|a IH]; intros s k.
  - rewrite Nat.add_0_r, Nat.sub_0_r. done.
  - destruct k as [|k]; [done|]. cbn [seq map skipn]. rewrite IH.
    f_equal. f_equal. lia.
Qed.

Lemma offsets_drop len a :
  drop a (Part002.offsets len) = map (fun j => 160 * j)%nat (seq a ((len + 159) / 160 - a)).
Proof. unfold Part002.offsets. rewrite drop_map_seq. done. Qed.

Lemma send_loop_cons st sid pcm c offset offs :
  Part002.send_loop st sid pcm c (offset :: offs)
  = let chunk := Part002.slice pcm offset (Nat.min (offset + 160) (length pcm)) in
    if (length chunk =? 160)%nat then
      if decide (st = OPEN)
      then (S c, Some (MediaOut sid chunk c, offs))
      else Part002.send_loop st sid pcm (S c) offs
    else Part002.send_loop st sid pcm c offs.
Proof. reflexivity. Qed.

(** The chunk at offset [160 * j] is complete exactly for the [j] below
    [length pcm / 160], and it is then the [j]-th 160-byte frame. *)
Lemma slice_full pcm j :
  (length (Part002.slice pcm (160 * j) (Nat.min (160 * j + 160) (length pcm))) =? 160)%nat
    = (j <? length pcm / 160)%nat
  /\ ((j < length pcm / 160)%nat ->
      Part002.slice pcm (160 * j) (Nat.min (160 * j + 160) (length pcm))
      = take 160 (drop (160 * j) pcm)).
Proof.
  unfold Part002.slice. rewrite length_take, length_drop.
  pose proof (Nat.div_mod (length pcm) 160 ltac:(lia)) as Hd.
  pose proof (Nat.mod_upper_bound (length pcm) 160 ltac:(lia)) as Hm.
  split.
  - destruct (Nat.eqb_spec (Nat.min (Nat.min (160 * j + 160) (length pcm) - 160 * j)
                                   (length pcm - 160 * j)) 160);
    destruct (Nat.ltb_spec j (length pcm / 160)); lia.
  - intros Hj. f_equal. lia.
Qed.

Section ChunkLoop.
Variables (st : readyState) (sid : string) (pcm : list Z).

Lemma frames_le_offsets : ((length pcm / 160) <= ((length pcm + 159) / 160))%nat.
Proof. apply Nat.Div0.div_le_mono. lia. Qed.

Lemma send_loop_seq k : forall a c, (a + k = ((length pcm + 159) / 160))%nat ->
  Part002.send_loop st sid pcm c (map (fun j => 160 * j)%nat (seq a k))
  = if (a <? (length pcm / 160))%nat then
      if decide (st = OPEN)
      then (S c, Some (MediaOut sid (take 160 (drop (160 * a) pcm)) c,
                       map (fun j => 160 * j)%nat (seq (S a) (k - 1))))
      else ((c + ((length pcm / 160) - a))%nat, None)
    else (c, None).
Proof.
  pose proof frames_le_offsets as HNK.
  induction k as [|k IH]; intros a c Hk.
  - destruct (Nat.ltb_spec a (length pcm / 160)); [lia|]. done.
  - cbn [seq map]. rewrite send_loop_cons. cbv zeta.
    destruct (slice_full pcm a) as [Hl Hs]. rewrite Hl.
    destruct (Nat.ltb_spec a (length pcm / 160)) as [Ha|Ha].
    + rewrite Hs by done. destruct (decide (st = OPEN)) as [Ho|Ho].
      * rewrite Nat.sub_1_r. done.
      * rewrite IH by lia.
        destruct (Nat.ltb_spec (S a) (length pcm / 160)); f_equal; lia.
    + rewrite IH by lia. destruct (Nat.ltb_spec (S a) (length pcm / 160)); [lia|]. done.
Qed.

(** One run of the chunk loop, from the [a]-th offset on, up to its next
    [await]: below the last complete frame, an open socket gets frame [a]
    with the current counter and the loop suspends before offset
    [a + 1]; a socket that is not open gets nothing and the counter moves
    past every complete frame left. *)
Lemma send_loop_spec a c :
  Part002.send_loop st sid pcm c (drop a (Part002.offsets (length pcm)))
  = if (a <? (length pcm / 160))%nat then
      if decide (st = OPEN)
      then (S c, Some (MediaOut sid (take 160 (drop (160 * a) pcm)) c,
                       drop (S a) (Part002.offsets (length pcm))))
      else ((c + ((length pcm / 160) - a))%nat, None)
    else (c, None).
Proof.
  pose proof frames_le_offsets as HNK.
  rewrite !offsets_drop.
  destruct (Nat.le_gt_cases ((length pcm + 159) / 160) a) as [Ha|Ha].
  - replace (((length pcm + 159) / 160) - a)%nat with 0%nat by lia.
    destruct (Nat.ltb_spec a (length pcm / 160)); [lia|]. done.
  - rewrite send_loop_seq by lia.
    replace (((length pcm + 159) / 160) - S a)%nat with (((length pcm + 159) / 160) - a - 1)%nat by lia. done.
Qed.

(** Whatever the offsets, a run of the loop never moves the counter back;
    a message it sends is a media message of exactly 160 bytes whose chunk
    number is the counter it leaves minus one, and the offsets it resumes
    with are a suffix of those it started with. *)
Lemma send_loop_inv offs : forall c c' o,
  Part002.send_loop st sid pcm c offs = (c', o) ->
  (c <= c')%nat
  /\ (st = OPEN -> o = None -> c' = c)
  /\ (forall m offs', o = Some (m, offs') ->
        exists f k, m = MediaOut sid f k /\ length f = 160%nat /\ (c <= k)%nat
                    /\ c' = S k /\ (st = OPEN -> k = c)
                    /\ exists pre, offs = pre ++ offs').
Proof.
  induction offs as [|offset offs IH]; intros c c' o E.
  - cbn in E. injection E as <- <-. split; [lia|]. split; [done|]. intros; discriminate.
  - rewrite send_loop_cons in E. cbv zeta in E.
    destruct (Nat.eqb_spec (length (Part002.slice pcm offset
                (Nat.min (offset + 160) (length pcm)))) 160) as [Hl|Hl].
    + destruct (decide (st = OPEN)) as [Ho|Ho].
      * injection E as <- <-. split; [lia|]. split; [discriminate|].
        intros m offs' Em. injection Em as <- <-.
        eexists _, c. split; [reflexivity|]. split; [exact Hl|].
        split; [lia|]. split; [done|]. split; [done|]. exists [offset]. done.
      * destruct (IH _ _ _ E) as (Hc & _ & Hm). split; [lia|]. split; [done|].
        intros m offs' Em. destruct (Hm m offs' Em) as (f & k & -> & Hf & Hk & Hc' & _ & pre & ->).
        exists f, k. split; [done|]. split; [done|]. split; [lia|]. split; [done|].
        split; [done|]. exists (offset :: pre). done.
    + destruct (IH _ _ _ E) as (Hc & Hn & Hm). split; [lia|]. split; [done|].
      intros m offs' Em. destruct (Hm m offs' Em) as (f & k & -> & Hf & Hk & Hc' & Hk' & pre & ->).
      exists f, k. repeat (split; [done|]). exists (offset :: pre). done.
Qed.

Lemma frames160_concat_from k : forall s,
  concat (map (fun j => take 160 (drop (160 * j) pcm)) (seq s k))
  = take (160 * k) (drop (160 * s) pcm).
Proof.
  induction k as [|k IH]; intros s; [done|].
  cbn [seq map concat]. rewrite IH.
  replace (160 * S k)%nat with (160 + 160 * k)%nat by lia.
  rewrite <- take_take_drop, drop_drop.
  replace (160 * s + 160)%nat with (160 * S s)%nat by lia. done.
Qed.

(** The frames of a PCM16 buffer: all of 160 bytes, in order, without
    overlap; together they are the buffer without its last
    [length pcm mod 160] bytes. *)
Lemma frames160_spec :
  Forall (fun f => length f = 160%nat) (frames160 pcm)
  /\ concat (frames160 pcm) = take (160 * (length pcm / 160)) pcm.
Proof.
  split.
  - unfold frames160. apply Forall_forall. intros f Hf.
    apply list_elem_of_fmap in Hf as (j & -> & Hj). rewrite elem_of_seq in Hj.
    rewrite length_take, length_drop.
    pose proof (Nat.Div0.mul_div_le (length pcm) 160). lia.
  - unfold frames160. rewrite frames160_concat_from. done.
Qed.

End ChunkLoop.

(** [sendAudioToTwilio] up to its first [await]: the PCM16 buffer of the
    delta, then the chunk loop from its first offset. *)
Lemma p002_send_spec (h : heap) p b st sid c :
  h !! p = Some (ABytes b) ->
  exists h', Part002.sendAudioToTwilio st sid c p h
             = inr (let '(c', o) := Part002.send_loop st sid (p002_pcm_pure b) c
                                      (Part002.offsets (length (p002_pcm_pure b))) in
                    (c', option_map (fun '(m, offs) => (m, (p002_pcm_pure b, offs))) o), h')
             /\ h ⊆ h'.
Proof.
  intros Hp.
  unfold Part002.sendAudioToTwilio, bind at 1, buf_length at 1. rewrite Hp.
  destruct (Nat.eqb_spec (length b) 0) as [Hb|Hb].
  - apply length_zero_iff_nil in Hb. subst b.
    assert (E0 : p002_pcm_pure [] = []) by (vm_compute; reflexivity).
    rewrite E0. exists h. split; [|done]. reflexivity.
  - destruct (p002_resample_spec h p b 24000 8000 Hp) as (r & h1 & E1 & L1 & Hs1 & _).
    unfold bind at 1. rewrite E1. cbv beta iota.
    destruct (encode_pcm16_spec pcm16_encode_floor_f h1 r _ encode_floor_f_range L1)
      as [E2 Hn2].
    unfold bind at 1. rewrite E2. cbv beta iota.
    unfold bind, buf_read. rewrite lookup_insert_eq.
    unfold p002_pcm_pure.
    destruct (Part002.send_loop _ _ _ _ _) as [c' o].
    eexists. split; [reflexivity|].
    etransitivity; [exact Hs1 | apply insert_subseteq; exact Hn2].
Qed.

(** The result of [sendAudioToTwilio] up to its first [await], whatever
    the heap: the chunk loop over the offsets of some PCM16 buffer. *)
Lemma p002_send_shape (h : heap) p st sid c res h' :
  Part002.sendAudioToTwilio st sid c p h = inr (res, h') ->
  exists pcm c' o, Part002.send_loop st sid pcm c (Part002.offsets (length pcm)) = (c', o)
    /\ res = (c', option_map (fun '(m, offs) => (m, (pcm, offs))) o).
Proof.
  unfold Part002.sendAudioToTwilio, bind.
  destruct (buf_length p h) as [e|[len h1]]; [discriminate|].
  destruct (len =? 0)%nat.
  - unfold ret. intros E. injection E as <- _. exists [], c, None. done.
  - destruct (Part002.resampleAudio p 24000 8000 h1) as [e|[r h2]]; [discriminate|].
    destruct (encode_pcm16 pcm16_encode_floor_f r h2) as [e|[q h3]]; [discriminate|].
    destruct (buf_read q h3) as [e|[pcm h4]]; [discriminate|].
    destruct (Part002.send_loop st sid pcm c (Part002.offsets (length pcm))) as [c' o] eqn:E.
    unfold ret. intros F. injection F as <- _. exists pcm, c', o. done.
Qed.

(** ** The session of part_002 *)

Lemma incr_between_le lo ks hi : incr_between lo ks hi -> (lo <= hi)%nat.
Proof.
  revert lo. induction ks as [|k ks IH]; intros lo; cbn; [done|].
  intros [H1 H2]. apply IH in H2. lia.
Qed.

Lemma incr_between_app lo ks mid ks' hi :
  incr_between lo ks mid -> incr_between mid ks' hi -> incr_between lo (ks ++ ks') hi.
Proof.
  revert lo. induction ks as [|k ks IH]; intros lo; cbn.
  - intros H1 H2. induction ks' as [|k' ks' _]; cbn in *; [lia|].
    destruct H2. split; [lia|done].
  - intros [H1 H2] H3. split; [done|]. apply (IH _ H2 H3).
Qed.

Lemma chunk_nums_app ms ms' : chunk_nums (ms ++ ms') = chunk_nums ms ++ chunk_nums ms'.
Proof.
  induction ms as [|m ms IH]; [done|]. destruct m; cbn; rewrite ?IH; done.
Qed.

Lemma seq_split a b c : (a <= b)%nat -> (b <= c)%nat ->
  seq a (b - a) ++ seq b (c - b) = seq a (c - a).
Proof.
  intros Hab Hbc. replace (c - a)%nat with ((b - a) + (c - b))%nat by lia.
  rewrite seq_app. f_equal. f_equal. lia.
Qed.

Lemma step_ok_refl sid w w' :
  Part002Rtc.sent w' = Part002Rtc.sent w ->
  Part002Rtc.mediaChunkCounter w' = Part002Rtc.mediaChunkCounter w ->
  step_ok sid w w'.
Proof.
  intros Hs Hc. exists []. rewrite Hs, Hc, app_nil_r. cbn.
  split; [done|]. split; [done|]. split; [lia|]. rewrite Nat.sub_diag. done.
Qed.

Lemma suspend_ok sid pcm offs (w : Part002Rtc.world) c' o :
  Part002.send_loop (Part002Rtc.twState w) sid pcm (Part002Rtc.mediaChunkCounter w) offs
    = (c', o) ->
  step_ok sid w
    (Part002Rtc.suspend (c', option_map (fun '(m, offs') => (m, (pcm, offs'))) o) w).
Proof.
  intros E. set (c := Part002Rtc.mediaChunkCounter w) in E.
  destruct (send_loop_inv _ _ _ _ _ _ _ E) as (Hc & Hn & Hm).
  destruct o as [[m offs']|].
  - destruct (Hm m offs' eq_refl) as (f & k & -> & Hf & Hk & -> & Ho & _).
    exists [MediaOut sid f k]. cbn. split; [done|].
    split; [constructor; [exists f, k; done | constructor]|].
    split; [split; [done|]; cbn; lia|].
    intros HO. rewrite (Ho HO). fold c. replace (S c - c)%nat with 1%nat by lia. done.
  - exists []. cbn. rewrite app_nil_r. split; [done|]. split; [done|].
    split; [done|]. intros HO. rewrite (Hn HO eq_refl). fold c. rewrite Nat.sub_diag. done.
Qed.

Lemma send_to_twilio_ok sid p (w : Part002Rtc.world) :
  step_ok sid w (Part002Rtc.send_to_twilio sid p w).
Proof.
  unfold Part002Rtc.send_to_twilio.
  destruct (Part002.sendAudioToTwilio _ _ _ _ _) as [e|[res h']] eqn:E.
  - apply step_ok_refl; done.
  - destruct (p002_send_shape _ _ _ _ _ _ _ E) as (pcm & c' & o & El & ->).
    exact (suspend_ok sid pcm _ (Part002Rtc.with_buffers h' w) c' o El).
Qed.

Lemma resume_call_ok sid k (w : Part002Rtc.world) :
  step_ok sid w (Part002Rtc.resume_call sid k w).
Proof.
  unfold Part002Rtc.resume_call.
  destruct (Part002Rtc.pending w !! k) as [[pcm offs]|].
  - destruct (Part002.send_loop _ _ _ _ _) as [c' o] eqn:E.
    exact (suspend_ok sid pcm offs _ c' o E).
  - apply step_ok_refl; done.
Qed.

Lemma step_ok_buffers sid h (w w' : Part002Rtc.world) :
  step_ok sid (Part002Rtc.with_buffers h w) w' -> step_ok sid w w'.
Proof. done. Qed.

Lemma step_ok_all sid w e : step_ok sid w (Part002Rtc.step sid w e).
Proof.
  destruct e as [m | [b|] | k | st']; cbn [Part002Rtc.step].
  - destruct m as [[d|] | | |]; cbn [Part002Rtc.handleOpenAIMessage];
      try (apply step_ok_refl; done).
    unfold alloc. cbv zeta.
    destruct (Part002Rtc.isStreamingAudio _) eqn:Es.
    + apply (step_ok_buffers _ (<[fresh (dom (Part002Rtc.buffers w)) := ABytes d]>
                                 (Part002Rtc.buffers w))).
      apply send_to_twilio_ok.
    + apply step_ok_refl; done.
  - unfold Part002Rtc.onSinkData. destruct (negb _); [apply step_ok_refl; done|].
    unfold alloc. cbv zeta.
    apply (step_ok_buffers _ (<[fresh (dom (Part002Rtc.buffers w)) := ABytes b]>
                               (Part002Rtc.buffers w))).
    apply send_to_twilio_ok.
  - apply step_ok_refl; done.
  - apply resume_call_ok.
  - apply step_ok_refl; done.
Qed.

Lemma step_twState sid w e :
  Part002Rtc.twState (Part002Rtc.step sid w e)
  = match e with Part002Rtc.EvTwilioState st => st | _ => Part002Rtc.twState w end.
Proof.
  destruct e as [m | [b|] | k | st']; cbn [Part002Rtc.step]; [| | done | | done].
  - destruct m as [[d|] | | |]; cbn [Part002Rtc.handleOpenAIMessage]; try done.
    unfold alloc. cbv zeta. destruct (Part002Rtc.isStreamingAudio _); [|done].
    unfold Part002Rtc.send_to_twilio.
    destruct (Part002.sendAudioToTwilio _ _ _ _ _) as [e|[[c' [[m k]|]] h']]; done.
  - unfold Part002Rtc.onSinkData. destruct (negb _); [done|].
    unfold alloc. cbv zeta. unfold Part002Rtc.send_to_twilio.
    destruct (Part002.sendAudioToTwilio _ _ _ _ _) as [e|[[c' [[m k]|]] h']]; done.
  - unfold Part002Rtc.resume_call. destruct (Part002Rtc.pending w !! k) as [[pcm offs]|]; [|done].
    destruct (Part002.send_loop _ _ _ _ _) as [c' [[m offs']|]]; done.
Qed.

(** A run of a part_002 session: the messages it adds are media messages
    of 160 bytes whose chunk numbers increase strictly, from the counter
    at the start to the counter at the end; while the Twilio socket stays
    open they are consecutive. *)
Lemma run_ok sid evs : forall (w : Part002Rtc.world),
  exists new, Part002Rtc.sent (Part002Rtc.run sid w evs) = Part002Rtc.sent w ++ new
    /\ Forall (media160 sid) new
    /\ incr_between (Part002Rtc.mediaChunkCounter w) (chunk_nums new)
                    (Part002Rtc.mediaChunkCounter (Part002Rtc.run sid w evs))
    /\ (Part002Rtc.twState w = OPEN ->
        Forall (fun e => match e with Part002Rtc.EvTwilioState st => st = OPEN | _ => True end) evs ->
        chunk_nums new = seq (Part002Rtc.mediaChunkCounter w)
                             (Part002Rtc.mediaChunkCounter (Part002Rtc.run sid w evs)
                              - Part002Rtc.mediaChunkCounter w)).
Proof.
  induction evs as [|e evs IH]; intros w.
  - exists []. cbn. rewrite app_nil_r. split; [done|]. split; [done|]. split; [lia|].
    rewrite Nat.sub_diag. done.
  - cbn [Part002Rtc.run foldl]. fold (Part002Rtc.run sid (Part002Rtc.step sid w e) evs).
    destruct (step_ok_all sid w e) as (n1 & Hs1 & Hf1 & Hi1 & Ho1).
    destruct (IH (Part002Rtc.step sid w e)) as (n2 & Hs2 & Hf2 & Hi2 & Ho2).
    exists (n1 ++ n2). rewrite Hs2, Hs1, app_assoc. split; [done|].
    split; [apply Forall_app; done|].
    rewrite chunk_nums_app. split; [eapply incr_between_app; done|].
    intros HO Hevs. inversion Hevs as [|? ? He Hevs']; subst.
    assert (HO' : Part002Rtc.twState (Part002Rtc.step sid w e) = OPEN).
    { rewrite step_twState. destruct e; done. }
    rewrite (Ho1 HO), (Ho2 HO' Hevs').
    apply seq_split; eapply incr_between_le; done.
Qed.

(** The effect of one audio delta on server.ts's state. *)
Lemma handle_delta_spec (w : ServerWs.world) r s d :
  ServerWs.objs w !! r = Some s ->
  exists h', ServerWs.handleOpenAIMessage (ServerWs.AudioDelta (Some d)) r w
    = inr (ServerWs.mkWorld (ServerWs.sessions w)
             (<[r := ServerWs.set_counter s (S (ServerWs.mediaChunkCounter s))]> (ServerWs.objs w))
             (ServerWs.ready w) h'
             (ServerWs.sent w ++
                if ServerWs.is_open w (ServerWs.twilioWs s)
                then [(ServerWs.twilioWs s,
                       MediaOut (ServerWs.streamSid s) (resample_bytes_pure d 24000 8000)
                                (ServerWs.mediaChunkCounter s))]
                else []))
    /\ ServerWs.buffers w ⊆ h'.
Proof.
  intros Hr. destruct (server_convert_ok (ServerWs.buffers w) d 24000 8000) as (h' & E & Hs).
  exists h'. split; [|done].
  unfold ServerWs.handleOpenAIMessage. rewrite Hr, E.
  unfold ServerWs.is_open. cbn.
  destruct (bool_decide _); cbn; [done|]. rewrite app_nil_r. done.
Qed.

Lemma run_cons (w : ServerWs.world) e evs :
  ServerWs.run w (e :: evs) = ServerWs.run (ServerWs.step w e) evs.
Proof. reflexivity. Qed.

(** The outbound path of one server.ts session over a sequence of events
    that concern only that session's OpenAI socket, or close sockets. *)
Lemma run_session_spec (r : nat) evs : forall (w : ServerWs.world) s,
  ServerWs.objs w !! r = Some s ->
  Forall (fun e => match e with
                   | ServerWs.EvOpenAI r' _ => r' = r
                   | ServerWs.EvSocketClosed _ => True
                   end) evs ->
  exists payloads,
    ServerWs.objs (ServerWs.run w evs) !! r
      = Some (ServerWs.set_counter s (ServerWs.mediaChunkCounter s + ServerWs.n_deltas evs))
    /\ ServerWs.sent (ServerWs.run w evs)
       = ServerWs.sent w ++ map (pair (ServerWs.twilioWs s))
           (media_msgs (ServerWs.streamSid s) payloads (ServerWs.mediaChunkCounter s))
    /\ (length payloads <= ServerWs.n_deltas evs)%nat
    /\ (ServerWs.is_open w (ServerWs.twilioWs s) = true ->
        ServerWs.EvSocketClosed (ServerWs.twilioWs s) ∉ evs ->
        length payloads = ServerWs.n_deltas evs)
    /\ (ServerWs.is_open w (ServerWs.twilioWs s) = false -> payloads = []).
Proof.
  induction evs as [|e evs IH]; intros w s Hr Hev.
  - exists []. cbn. rewrite Nat.add_0_r, app_nil_r.
    destruct s; cbn; repeat split; try done; lia.
  - inversion Hev as [|? ? He Hevs]; subst.
    destruct e as [r' m | k].
    + subst r'. destruct m as [[d|]|].
      * (* a non-empty delta *)
        destruct (handle_delta_spec w r s d Hr) as (h' & E & _).
        set (s1 := ServerWs.set_counter s (S (ServerWs.mediaChunkCounter s))).
        rewrite run_cons. unfold ServerWs.step, ServerWs.onOpenAIMessage.
        rewrite E.
        set (w1 := ServerWs.mkWorld _ _ _ _ _).
        destruct (IH w1 s1) as (ps & Ho & Hs & Hl & Hopen & Hclosed).
        { cbn. apply lookup_insert_eq. }
        { done. }
        assert (Hop : ServerWs.is_open w1 (ServerWs.twilioWs s1)
                      = ServerWs.is_open w (ServerWs.twilioWs s)) by done.
        cbn [ServerWs.n_deltas].
        destruct (ServerWs.is_open w (ServerWs.twilioWs s)) eqn:Eo.
        -- exists (resample_bytes_pure d 24000 8000 :: ps).
           rewrite Ho, Hs. cbn.
           repeat split.
           ++ f_equal. unfold s1, ServerWs.set_counter. cbn. f_equal. lia.
           ++ rewrite <- app_assoc. done.
           ++ lia.
           ++ intros _ Hn. rewrite Hopen; [done | done |].
              intros Hin. apply Hn. right. done.
           ++ done.
        -- exists ps. rewrite Hclosed in Hs |- * by (rewrite Hop; done).
           rewrite Ho, Hs. cbn.
           repeat split.
           ++ f_equal. unfold s1, ServerWs.set_counter. cbn. f_equal. lia.
           ++ rewrite !app_nil_r. done.
           ++ lia.
           ++ done.
      * (* a missing or empty delta *)
        rewrite run_cons. unfold ServerWs.step, ServerWs.onOpenAIMessage.
        cbn [ServerWs.handleOpenAIMessage ServerWs.n_deltas].
        destruct (IH w s Hr Hevs) as (ps & ?&?&?& Hopen &?).
        exists ps. repeat split; try done.
        intros Ho Hn. apply Hopen; [done|]. intros Hin. apply Hn. right. done.
      * rewrite run_cons. unfold ServerWs.step, ServerWs.onOpenAIMessage.
        cbn [ServerWs.handleOpenAIMessage ServerWs.n_deltas].
        destruct (IH w s Hr Hevs) as (ps & ?&?&?& Hopen &?).
        exists ps. repeat split; try done.
        intros Ho Hn. apply Hopen; [done|]. intros Hin. apply Hn. right. done.
    + rewrite run_cons. unfold ServerWs.step.
      set (w1 := ServerWs.with_ready _ w).
      destruct (IH w1 s Hr Hevs) as (ps & Ho & Hs & Hl & Hopen & Hclosed).
      cbn [ServerWs.n_deltas].
      exists ps. rewrite Ho, Hs.
      repeat split; try done.
      * intros Hw Hn. apply Hopen; [|intros Hin; apply Hn; right; done].
        unfold ServerWs.is_open in *. cbn.
        rewrite lookup_insert_ne; [done|]. intros ->. apply Hn. left.
      * intros Hw. apply Hclosed. unfold ServerWs.is_open in *. cbn.
        destruct (decide (k = ServerWs.twilioWs s)) as [->|Hk].
        -- rewrite lookup_insert_eq. done.
        -- rewrite lookup_insert_ne by done. done.
Qed.

Lemma onStart_spec (w : ServerWs.world) sid tw :
  sid <> EmptyString ->
  ServerWs.onStart true sid tw w
  = ServerWs.mkWorld
      (<[sid := fresh (dom (ServerWs.objs w))]> (ServerWs.sessions w))
      (<[fresh (dom (ServerWs.objs w))
         := ServerWs.mkStreamSession (fresh (dom (ServerWs.ready w))) tw sid 0]>
         (ServerWs.objs w))
      (<[fresh (dom (ServerWs.ready w)) := CONNECTING]> (ServerWs.ready w))
      (ServerWs.buffers w)
      (ServerWs.sent w ++ if ServerWs.is_open w tw
                          then [(tw, Mark sid "connected"%string)] else [])
  /\ ServerWs.objs w !! fresh (dom (ServerWs.objs w)) = None
  /\ ServerWs.ready w !! fresh (dom (ServerWs.ready w)) = None.
Proof.
  intros Hsid.
  assert (Hr : ServerWs.objs w !! fresh (dom (ServerWs.objs w)) = None)
    by (apply not_elem_of_dom, is_fresh).
  assert (Ho : ServerWs.ready w !! fresh (dom (ServerWs.ready w)) = None)
    by (apply not_elem_of_dom, is_fresh).
  split; [|done].
  unfold ServerWs.onStart. rewrite decide_False by done.
  unfold ServerWs.ws_send, ServerWs.is_open, ServerWs.initializeOpenAIWebSocket. cbn.
  assert (Heq : bool_decide (<[fresh (dom (ServerWs.ready w)) := CONNECTING]> (ServerWs.ready w)
                               !! tw = Some OPEN)
                = bool_decide (ServerWs.ready w !! tw = Some OPEN)).
  { destruct (decide (tw = fresh (dom (ServerWs.ready w)))) as [->|Hne].
    - rewrite lookup_insert_eq, Ho. done.
    - rewrite lookup_insert_ne by done. done. }
  rewrite Heq. destruct (bool_decide (ServerWs.ready w !! tw = Some OPEN)); [done|]. rewrite app_nil_r. done.
Qed.

(* ------------------------------------------------------------------ *)
(** ** Claims about the outbound path *)

Lemma Qfloor_24k_8k (n : nat) :
  Qfloor (inject_Z (Z.of_nat n) * inject_Z 8000 / inject_Z 24000) = Z.of_nat n / 3.
Proof.
  rewrite (Qfloor_comp _ (Z.of_nat n # 3)); [reflexivity|].
  unfold Qeq, Qdiv, Qmult, Qinv, inject_Z. cbn. lia.
Qed.

(** C1 (as stated, refuted): no path chunks with a carry-over.  server.ts
    [handleOpenAIMessage] sends a 240-byte delta (120 samples at 24 kHz)
    as one 80-byte frame, shorter than 160 bytes.  In part_002 two such
    deltas give no frame at all, although their two 80-byte conversions
    make a complete 160-byte frame: the remainder of each call is dropped.
    And the frames of two calls interleave: with a delta of 960 zero bytes
    (two frames) and then one of 960 other bytes, the session sends frame 0
    of the first call, frame 0 of the second, then frame 1 of the first. *)
Lemma outbound_frames_counterexample :
  let ws := ServerWs.mkWorld (<["CA1"%string := 0%nat]> ∅)
              (<[0%nat := ServerWs.mkStreamSession 5 1 "CA1" 0]> ∅)
              (<[1%nat := OPEN]> ∅) ∅ [] in
  let w := Part002Rtc.mkWorld true 0 OPEN ∅ [] [] in
  let d2 := flat_map (fun _ => [0; 64]) (seq 0 480) in
  ServerWs.sent (ServerWs.onOpenAIMessage 0 (ServerWs.AudioDelta (Some (repeat 0 240))) ws)
    = [(1%nat, MediaOut "CA1" (repeat 0 80) 0)]
  /\ Part002Rtc.sent (Part002Rtc.run "CA1" w
       [Part002Rtc.EvDataChannel (Part002Rtc.DeltaMsg (Some (repeat 0 240)));
        Part002Rtc.EvDataChannel (Part002Rtc.DeltaMsg (Some (repeat 0 240)))]) = []
  /\ Part002Rtc.sent (Part002Rtc.run "CA1" w
       [Part002Rtc.EvDataChannel (Part002Rtc.DeltaMsg (Some (repeat 0 960)));
        Part002Rtc.EvDataChannel (Part002Rtc.DeltaMsg (Some d2));
        Part002Rtc.EvResume 0])
     = [MediaOut "CA1" (take 160 (p002_pcm_pure (repeat 0 960))) 0;
        MediaOut "CA1" (take 160 (p002_pcm_pure d2)) 1;
        MediaOut "CA1" (take 160 (drop 160 (p002_pcm_pure (repeat 0 960)))) 2]
  /\ take 160 (p002_pcm_pure d2) <> take 160 (p002_pcm_pure (repeat 0 960)).
Proof.
  intros ws w d2. split; [vm_compute; reflexivity|]. split; [vm_compute; reflexivity|].
  split; [vm_compute; reflexivity|]. vm_compute. discriminate.
Qed.

(** C1 (amended): there is no carry-over between calls.  part_002
    [sendAudioToTwilio] converts the whole delta to a PCM16 buffer and runs
    its chunk loop, which sends the complete 160-byte frames of that buffer
    in order, frame [a] being bytes [[160a, 160a + 160)], one per 20 ms
    timer tick, with the session's counter at the time of sending; the
    remainder, shorter than 160 bytes, is never sent, and the frames of
    calls running at the same time can interleave.  Every message the
    session sends is a media message of exactly 160 bytes.  server.ts
    [handleOpenAIMessage] does no chunking: it sends each converted delta
    as one frame of [2 * L] bytes, [L] being the resampled length, within
    one of [floor(N / 3)] for a delta of [N] 24 kHz samples. *)
Theorem outbound_frames (st : readyState) (sid : string) (pcm : list Z) (a c : nat)
    (h : heap) p b (w : Part002Rtc.world) evs (ws : ServerWs.world) r s d :
  h !! p = Some (ABytes b) ->
  ServerWs.objs ws !! r = Some s ->
  ServerWs.is_open ws (ServerWs.twilioWs s) = true ->
  Z.of_nat (length d / 2) <= 3 * 2 ^ 51 ->
  (exists h', Part002.sendAudioToTwilio st sid c p h
     = inr (let '(c', o) := Part002.send_loop st sid (p002_pcm_pure b) c
                              (Part002.offsets (length (p002_pcm_pure b))) in
            (c', option_map (fun '(m, offs) => (m, (p002_pcm_pure b, offs))) o), h'))
  /\ Part002.send_loop st sid pcm c (drop a (Part002.offsets (length pcm)))
     = (if (a <? length pcm / 160)%nat then
          if decide (st = OPEN)
          then (S c, Some (MediaOut sid (take 160 (drop (160 * a) pcm)) c,
                           drop (S a) (Part002.offsets (length pcm))))
          else ((c + (length pcm / 160 - a))%nat, None)
        else (c, None))
  /\ Forall (fun f => length f = 160%nat) (frames160 pcm)
  /\ concat (frames160 pcm) = take (160 * (length pcm / 160)) pcm
  /\ (exists new, Part002Rtc.sent (Part002Rtc.run sid w evs) = Part002Rtc.sent w ++ new
        /\ Forall (media160 sid) new)
  /\ ServerWs.sent (ServerWs.onOpenAIMessage r (ServerWs.AudioDelta (Some d)) ws)
     = ServerWs.sent ws
       ++ [(ServerWs.twilioWs s,
            MediaOut (ServerWs.streamSid s) (resample_bytes_pure d 24000 8000)
                     (ServerWs.mediaChunkCounter s))]
  /\ length (resample_bytes_pure d 24000 8000) = (2 * out_len (length d / 2) 24000 8000)%nat
  /\ Z.of_nat (length d / 2) / 3 - 1 <= Z.of_nat (out_len (length d / 2) 24000 8000)
     <= Z.of_nat (length d / 2) / 3 + 1.
Proof.
  intros Hp Hr Ho Hd.
  split; [destruct (p002_send_spec h p b st sid c Hp) as (h' & E & _); exists h'; exact E|].
  split; [apply send_loop_spec|].
  destruct (frames160_spec pcm) as [Hf Hc].
  split; [exact Hf|]. split; [exact Hc|].
  split; [destruct (run_ok sid evs w) as (new & Hs & Hm & _); exists new; done|].
  split.
  { destruct (handle_delta_spec ws r s d Hr) as (h' & E & _).
    unfold ServerWs.onOpenAIMessage. rewrite E, Ho. done. }
  split.
  { unfold resample_bytes_pure. rewrite length_encode_pure, length_interp_pure. lia. }
  pose proof (out_len_near (length d / 2) 24000 8000 ltac:(lia) ltac:(lia)) as H.
  cbv zeta in H. rewrite Qfloor_24k_8k in H. exact H.
Qed.

Lemma outbound_frames_witness :
  let h : heap := <[1%positive := ABytes (repeat 0 12)]> ∅ in
  let ws := ServerWs.mkWorld (<["CA1"%string := 0%nat]> ∅)
              (<[0%nat := ServerWs.mkStreamSession 5 1 "CA1" 0]> ∅)
              (<[1%nat := OPEN]> ∅) ∅ [] in
  let s := ServerWs.mkStreamSession 5 1 "CA1" 0 in
  let w := Part002Rtc.mkWorld true 0 OPEN ∅ [] [] in
  let evs := [Part002Rtc.EvDataChannel (Part002Rtc.DeltaMsg (Some (repeat 0 960)))] in
  let pcm := repeat 7 400 in
  let d := [0; 0; 0; 0; 0; 0] in
  h !! 1%positive = Some (ABytes (repeat 0 12))
  /\ ServerWs.objs ws !! 0%nat = Some s
  /\ ServerWs.is_open ws (ServerWs.twilioWs s) = true
  /\ Z.of_nat (length d / 2) <= 3 * 2 ^ 51
  /\ ((exists h', Part002.sendAudioToTwilio OPEN "CA1" 0 1 h
        = inr (let '(c', o) := Part002.send_loop OPEN "CA1" (p002_pcm_pure (repeat 0 12)) 0
                                 (Part002.offsets (length (p002_pcm_pure (repeat 0 12)))) in
               (c', option_map (fun '(m, offs) => (m, (p002_pcm_pure (repeat 0 12), offs))) o),
               h'))
     /\ Part002.send_loop OPEN "CA1" pcm 0 (drop 1 (Part002.offsets (length pcm)))
        = (if (1 <? length pcm / 160)%nat then
             if decide (OPEN = OPEN)
             then (1%nat, Some (MediaOut "CA1" (take 160 (drop (160 * 1) pcm)) 0,
                                drop 2 (Part002.offsets (length pcm))))
             else ((0 + (length pcm / 160 - 1))%nat, None)
           else (0%nat, None))
     /\ Forall (fun f => length f = 160%nat) (frames160 pcm)
     /\ concat (frames160 pcm) = take (160 * (length pcm / 160)) pcm
     /\ (exists new, Part002Rtc.sent (Part002Rtc.run "CA1" w evs) = Part002Rtc.sent w ++ new
           /\ Forall (media160 "CA1") new)
     /\ ServerWs.sent (ServerWs.onOpenAIMessage 0 (ServerWs.AudioDelta (Some d)) ws)
        = ServerWs.sent ws
          ++ [(ServerWs.twilioWs s,
               MediaOut (ServerWs.streamSid s) (resample_bytes_pure d 24000 8000)
                        (ServerWs.mediaChunkCounter s))]
     /\ length (resample_bytes_pure d 24000 8000) = (2 * out_len (length d / 2) 24000 8000)%nat
     /\ Z.of_nat (length d / 2) / 3 - 1 <= Z.of_nat (out_len (length d / 2) 24000 8000)
        <= Z.of_nat (length d / 2) / 3 + 1).
Proof.
  intros h ws s w evs pcm d.
  assert (Hd : Z.of_nat (length d / 2) <= 3 * 2 ^ 51) by (vm_compute; discriminate).
  split; [reflexivity|]. split; [reflexivity|]. split; [reflexivity|]. split; [exact Hd|].
  apply (outbound_frames OPEN "CA1" pcm 1 0 h 1 (repeat 0 12) w evs ws 0 s d);
    [reflexivity | reflexivity | reflexivity | exact Hd].
Defined.

(** C2 (as stated, refuted): the counter moves on frames that are not
    sent.  In server.ts, after the Twilio socket has closed, a delta takes
    [chunk: 0] and moves the counter to 1 while no frame is emitted; in
    part_002, while the Twilio socket is closed, a delta of 960 bytes (two
    complete frames) moves the counter from 0 to 2 and sends nothing. *)
Lemma outbound_counter_counterexample :
  let w := ServerWs.mkWorld (<["CA1"%string := 0%nat]> ∅)
             (<[0%nat := ServerWs.mkStreamSession 5 1 "CA1" 0]> ∅)
             (<[1%nat := OPEN]> ∅) ∅ [] in
  let w' := ServerWs.run w [ServerWs.EvSocketClosed 1;
                            ServerWs.EvOpenAI 0 (ServerWs.AudioDelta (Some [0; 0; 0; 0; 0; 0]))] in
  let pw := Part002Rtc.run "CA1" (Part002Rtc.mkWorld true 0 CLOSED ∅ [] [])
              [Part002Rtc.EvDataChannel (Part002Rtc.DeltaMsg (Some (repeat 0 960)))] in
  ServerWs.sent w' = []
  /\ ServerWs.objs w' !! 0%nat = Some (ServerWs.mkStreamSession 5 1 "CA1" 1)
  /\ Part002Rtc.sent pw = []
  /\ Part002Rtc.mediaChunkCounter pw = 2%nat.
Proof. split; [|split; [|split]]; vm_compute; reflexivity. Qed.

(** C2 (amended): the counter counts the complete frames built, sent or
    not.  In server.ts, over any sequence of events on one session (audio
    deltas on its OpenAI socket, sockets closing), the session object's
    counter grows by exactly the number of non-empty deltas; the frames
    actually sent on its Twilio socket carry the consecutive chunk numbers
    [c, c+1, ...] from the counter [c] at the start, one per delta while
    the socket is open, none once it is not.  In part_002, over any
    sequence of events of a session (data-channel messages, audio frames,
    timer ticks of its pending calls, changes of the Twilio socket's
    state), the chunk numbers of the frames sent increase strictly, from
    the counter at the start up to the counter at the end, and they are
    consecutive as long as the socket is open; while it is not open, the
    chunk loop moves the counter past every complete frame and sends
    nothing.  A [start] in server.ts creates a new session object whose
    counter is 0. *)
Theorem outbound_counter (w : ServerWs.world) r s evs sid tw
    (pw : Part002Rtc.world) psid pevs (st : readyState) (pcm : list Z) (c : nat) :
  ServerWs.objs w !! r = Some s ->
  Forall (fun e => match e with
                   | ServerWs.EvOpenAI r' _ => r' = r
                   | ServerWs.EvSocketClosed _ => True
                   end) evs ->
  sid <> EmptyString ->
  (exists payloads,
    ServerWs.objs (ServerWs.run w evs) !! r
      = Some (ServerWs.set_counter s (ServerWs.mediaChunkCounter s + ServerWs.n_deltas evs))
    /\ ServerWs.sent (ServerWs.run w evs)
       = ServerWs.sent w ++ map (pair (ServerWs.twilioWs s))
           (media_msgs (ServerWs.streamSid s) payloads (ServerWs.mediaChunkCounter s))
    /\ (length payloads <= ServerWs.n_deltas evs)%nat
    /\ (ServerWs.is_open w (ServerWs.twilioWs s) = true ->
        ServerWs.EvSocketClosed (ServerWs.twilioWs s) ∉ evs ->
        length payloads = ServerWs.n_deltas evs)
    /\ (ServerWs.is_open w (ServerWs.twilioWs s) = false -> payloads = []))
  /\ (exists new,
        Part002Rtc.sent (Part002Rtc.run psid pw pevs) = Part002Rtc.sent pw ++ new
        /\ incr_between (Part002Rtc.mediaChunkCounter pw) (chunk_nums new)
                        (Part002Rtc.mediaChunkCounter (Part002Rtc.run psid pw pevs))
        /\ (Part002Rtc.twState pw = OPEN ->
            Forall (fun e => match e with
                             | Part002Rtc.EvTwilioState st' => st' = OPEN
                             | _ => True
                             end) pevs ->
            chunk_nums new = seq (Part002Rtc.mediaChunkCounter pw)
                                 (Part002Rtc.mediaChunkCounter (Part002Rtc.run psid pw pevs)
                                  - Part002Rtc.mediaChunkCounter pw)))
  /\ (st <> OPEN ->
      Part002.send_loop st psid pcm c (Part002.offsets (length pcm))
      = ((c + length pcm / 160)%nat, None))
  /\ ServerWs.objs (ServerWs.onStart true sid tw w) !! fresh (dom (ServerWs.objs w))
     = Some (ServerWs.mkStreamSession (fresh (dom (ServerWs.ready w))) tw sid 0).
Proof.
  intros Hr Hev Hsid. split; [|split; [|split]].
  - apply run_session_spec; done.
  - destruct (run_ok psid pevs pw) as (new & Hs & _ & Hi & Ho). exists new. done.
  - intros Hst. pose proof (send_loop_spec st psid pcm 0 c) as E.
    rewrite drop_0 in E. rewrite E, decide_False by done.
    destruct (Nat.ltb_spec 0 (length pcm / 160)); f_equal; lia.
  - destruct (onStart_spec w sid tw Hsid) as [E _]. rewrite E. cbn.
    apply lookup_insert_eq.
Qed.

Lemma outbound_counter_witness :
  let w := ServerWs.mkWorld (<["CA1"%string := 0%nat]> ∅)
             (<[0%nat := ServerWs.mkStreamSession 5 1 "CA1" 0]> ∅)
             (<[1%nat := OPEN]> ∅) ∅ [] in
  let s := ServerWs.mkStreamSession 5 1 "CA1" 0 in
  let evs := [ServerWs.EvOpenAI 0 (ServerWs.AudioDelta (Some [0; 0; 0; 0; 0; 0]));
              ServerWs.EvSocketClosed 1;
              ServerWs.EvOpenAI 0 (ServerWs.AudioDelta (Some [0; 0; 0; 0; 0; 0]))] in
  let pw := Part002Rtc.mkWorld true 0 OPEN ∅ [] [] in
  let pevs := [Part002Rtc.EvDataChannel (Part002Rtc.DeltaMsg (Some (repeat 0 960)));
               Part002Rtc.EvResume 0] in
  ServerWs.objs w !! 0%nat = Some s
  /\ Forall (fun e => match e with
                      | ServerWs.EvOpenAI r' _ => r' = 0%nat
                      | ServerWs.EvSocketClosed _ => True
                      end) evs
  /\ "CA1"%string <> EmptyString
  /\ ((exists payloads,
        ServerWs.objs (ServerWs.run w evs) !! 0%nat
          = Some (ServerWs.set_counter s (ServerWs.mediaChunkCounter s + ServerWs.n_deltas evs))
        /\ ServerWs.sent (ServerWs.run w evs)
           = ServerWs.sent w ++ map (pair (ServerWs.twilioWs s))
               (media_msgs (ServerWs.streamSid s) payloads (ServerWs.mediaChunkCounter s))
        /\ (length payloads <= ServerWs.n_deltas evs)%nat
        /\ (ServerWs.is_open w (ServerWs.twilioWs s) = true ->
            ServerWs.EvSocketClosed (ServerWs.twilioWs s) ∉ evs ->
            length payloads = ServerWs.n_deltas evs)
        /\ (ServerWs.is_open w (ServerWs.twilioWs s) = false -> payloads = []))
     /\ (exists new,
           Part002Rtc.sent (Part002Rtc.run "CA1" pw pevs) = Part002Rtc.sent pw ++ new
           /\ incr_between (Part002Rtc.mediaChunkCounter pw) (chunk_nums new)
                           (Part002Rtc.mediaChunkCounter (Part002Rtc.run "CA1" pw pevs))
           /\ (Part002Rtc.twState pw = OPEN ->
               Forall (fun e => match e with
                                | Part002Rtc.EvTwilioState st' => st' = OPEN
                                | _ => True
                                end) pevs ->
               chunk_nums new = seq (Part002Rtc.mediaChunkCounter pw)
                                    (Part002Rtc.mediaChunkCounter (Part002Rtc.run "CA1" pw pevs)
                                     - Part002Rtc.mediaChunkCounter pw)))
     /\ (CLOSED <> OPEN ->
         Part002.send_loop CLOSED "CA1" (repeat 0 400) 0 (Part002.offsets (length (repeat 0 400)))
         = ((0 + length (repeat 0 400) / 160)%nat, None))
     /\ ServerWs.objs (ServerWs.onStart true "CA1" 2 w) !! fresh (dom (ServerWs.objs w))
        = Some (ServerWs.mkStreamSession (fresh (dom (ServerWs.ready w))) 2 "CA1" 0)).
Proof.
  intros w s evs pw pevs.
  assert (Hev : Forall (fun e => match e with
                      | ServerWs.EvOpenAI r' _ => r' = 0%nat
                      | ServerWs.EvSocketClosed _ => True
                      end) evs) by (repeat constructor).
  assert (Hsid : "CA1"%string <> EmptyString) by discriminate.
  split; [reflexivity|]. split; [exact Hev|]. split; [exact Hsid|].
  apply (outbound_counter w 0 s evs "CA1" 2 pw "CA1" pevs CLOSED (repeat 0 400) 0);
    [reflexivity | exact Hev | exact Hsid].
Defined.
(* ------------------------------------------------------------------ *)
(** ** Claims about the session registry *)

(** C3 (as stated, refuted): a [start] for a stream id that already has a
    session does not fail: it maps the id to a new session object.  Here
    the session of "CA1" (object 0, counter 7) is replaced by object 1. *)
Lemma start_existing_counterexample :
  ~ (forall (w : ServerWs.world) sid tw r,
       ServerWs.sessions w !! sid = Some r ->
       ServerWs.sessions (ServerWs.onStart true sid tw w) !! sid = Some r).
Proof.
  intros H.
  set (w := ServerWs.mkWorld (<["CA1"%string := 0%nat]> ∅)
              (<[0%nat := ServerWs.mkStreamSession 5 1 "CA1" 7]> ∅)
              (<[1%nat := OPEN]> (<[5%nat := OPEN]> ∅)) ∅ []).
  assert (Hl : ServerWs.sessions w !! "CA1"%string = Some 0%nat) by reflexivity.
  pose proof (H w "CA1"%string 1%nat 0%nat Hl) as E. vm_compute in E. discriminate.
Qed.

(** C3 (amended): in server.ts a [start] for a non-empty stream id always
    maps the id to a fresh session object (new OpenAI socket, connecting;
    counter 0), replacing any previous entry; the other entries are
    unchanged, the previous object stays as it was (its OpenAI socket is
    not closed), and the Map keeps one session per id, whose [streamSid] is
    its key. *)
Theorem start_replaces_session (w : ServerWs.world) sid tw :
  sid <> EmptyString ->
  let r := fresh (dom (ServerWs.objs w)) in
  let o := fresh (dom (ServerWs.ready w)) in
  let w' := ServerWs.onStart true sid tw w in
  ServerWs.sessions w' = <[sid := r]> (ServerWs.sessions w)
  /\ ServerWs.objs w !! r = None
  /\ ServerWs.objs w' = <[r := ServerWs.mkStreamSession o tw sid 0]> (ServerWs.objs w)
  /\ ServerWs.ready w !! o = None
  /\ ServerWs.ready w' = <[o := CONNECTING]> (ServerWs.ready w)
  /\ (ServerWs.wf w -> ServerWs.wf w').
Proof.
  intros Hsid r o w'.
  destruct (onStart_spec w sid tw Hsid) as (E & Hr & Ho).
  unfold w'. rewrite E. cbn.
  split; [done|]. split; [done|]. split; [done|]. split; [done|]. split; [done|].
  intros Hwf k r' Hk. cbn in Hk.
  destruct (decide (k = sid)) as [->|Hne].
  - rewrite lookup_insert_eq in Hk. injection Hk as <-.
    eexists. cbn. rewrite lookup_insert_eq. split; done.
  - rewrite lookup_insert_ne in Hk by congruence.
    destruct (Hwf k r' Hk) as (s & Hs & Hks).
    exists s. cbn. rewrite lookup_insert_ne; [done|].
    intros Heq. rewrite Heq in Hr. congruence.
Qed.

Lemma start_replaces_session_witness :
  let w := ServerWs.mkWorld (<["CA1"%string := 0%nat]> ∅)
             (<[0%nat := ServerWs.mkStreamSession 5 1 "CA1" 7]> ∅)
             (<[1%nat := OPEN]> (<[5%nat := OPEN]> ∅)) ∅ [] in
  "CA1"%string <> EmptyString
  /\ (let r := fresh (dom (ServerWs.objs w)) in
      let o := fresh (dom (ServerWs.ready w)) in
      let w' := ServerWs.onStart true "CA1" 1 w in
      ServerWs.sessions w' = <[("CA1"%string) := r]> (ServerWs.sessions w)
      /\ ServerWs.objs w !! r = None
      /\ ServerWs.objs w' = <[r := ServerWs.mkStreamSession o 1 "CA1" 0]> (ServerWs.objs w)
      /\ ServerWs.ready w !! o = None
      /\ ServerWs.ready w' = <[o := CONNECTING]> (ServerWs.ready w)
      /\ (ServerWs.wf w -> ServerWs.wf w')).
Proof.
  intros w. assert (Hsid : "CA1"%string <> EmptyString) by discriminate.
  split; [exact Hsid|]. apply (start_replaces_session w "CA1" 1 Hsid).
Defined.

Lemma rtc_send_sessions ws m (w : ServerRTC.world) :
  ServerRTC.streamingSessions (ServerRTC.ws_send ws m w) = ServerRTC.streamingSessions w.
Proof. unfold ServerRTC.ws_send. case_bool_decide; done. Qed.

Lemma rtc_step_keeps ws (w : ServerRTC.world) e sid :
  is_Some (ServerRTC.streamingSessions w !! sid) ->
  e <> ServerRTC.EvStop sid -> e <> ServerRTC.EvClose ->
  is_Some (ServerRTC.streamingSessions (ServerRTC.step ws w e) !! sid).
Proof.
  intros Hs Hstop Hclose. destruct e as [sid' | sid' s' | sid' |]; cbn.
  - done.
  - unfold ServerRTC.onStartDone. rewrite rtc_send_sessions. cbn.
    destruct (decide (sid' = sid)) as [->|Hne].
    + rewrite lookup_insert_eq. done.
    + rewrite lookup_insert_ne by done. done.
  - assert (Hne : sid' <> sid) by congruence.
    unfold ServerRTC.onStop.
    destruct (decide (sid' = EmptyString)); [done|].
    destruct (ServerRTC.streamingSessions w !! sid'); [|done].
    rewrite rtc_send_sessions. cbn. rewrite lookup_delete_ne by done. done.
  - done.
Qed.

(** C4 (as stated, refuted): a [stop] is not deferred.  On one Twilio
    socket, [start "CA1"] begins negotiating, [stop "CA1"] arrives before
    it settles, then negotiation completes: "CA1" stays registered. *)
Lemma stop_deferred_counterexample :
  ~ (forall ws (w : ServerRTC.world) sid s,
       ServerRTC.streamingSessions
         (ServerRTC.run ws w [ServerRTC.EvStartBegin sid; ServerRTC.EvStop sid;
                              ServerRTC.EvStartDone sid s]) !! sid = None).
Proof.
  intros H.
  specialize (H 1%nat (ServerRTC.mkWorld ∅ [] (<[1%nat := OPEN]> ∅) []) "CA1"%string
                (ServerRTC.mkStreamSession 9 1)).
  vm_compute in H. discriminate.
Qed.

(** C4 (amended): in the wrtc variant a [stop] for an id that is not in
    the registry (for instance while its negotiation is in flight) is
    ignored: nothing changes and nothing is sent.  A [stop] for a
    registered id removes it and closes its peer connection.  Once
    negotiation completes the session is registered, and it stays
    registered until a [stop] for its id or the close of the socket. *)
Theorem stop_not_deferred ws (w : ServerRTC.world) sid s s0 evs :
  (ServerRTC.streamingSessions w !! sid = None -> ServerRTC.onStop ws sid w = w)
  /\ (sid <> EmptyString -> ServerRTC.streamingSessions w !! sid = Some s0 ->
      ServerRTC.streamingSessions (ServerRTC.onStop ws sid w)
        = delete sid (ServerRTC.streamingSessions w)
      /\ ServerRTC.pcClosed (ServerRTC.onStop ws sid w)
         = ServerRTC.pcClosed w ++ [ServerRTC.peerConnection s0])
  /\ (Forall (fun e => e <> ServerRTC.EvStop sid /\ e <> ServerRTC.EvClose) evs ->
      is_Some (ServerRTC.streamingSessions
                 (ServerRTC.run ws (ServerRTC.onStartDone ws sid s w) evs) !! sid)).
Proof.
  split; [|split].
  - intros Hn. unfold ServerRTC.onStop.
    destruct (decide (sid = EmptyString)); [done|]. rewrite Hn. done.
  - intros Hsid Hs. unfold ServerRTC.onStop. rewrite decide_False by done. rewrite Hs.
    unfold ServerRTC.ws_send. case_bool_decide; done.
  - intros Hev. unfold ServerRTC.run.
    assert (H0 : is_Some (ServerRTC.streamingSessions (ServerRTC.onStartDone ws sid s w) !! sid)).
    { unfold ServerRTC.onStartDone. rewrite rtc_send_sessions. cbn.
      rewrite lookup_insert_eq. done. }
    revert H0. generalize (ServerRTC.onStartDone ws sid s w) as w1.
    induction Hev as [|e evs [Hstop Hclose] _ IH]; intros w1 H1; [done|].
    cbn [foldl]. apply IH. apply rtc_step_keeps; done.
Qed.

Lemma stop_not_deferred_witness :
  let w0 := ServerRTC.mkWorld ∅ [] (<[1%nat := OPEN]> ∅) [] in
  let s0 := ServerRTC.mkStreamSession 9 1 in
  let w := ServerRTC.mkWorld (<["CA1"%string := s0]> ∅) [] (<[1%nat := OPEN]> ∅) [] in
  let evs := [ServerRTC.EvStartBegin "CA2"; ServerRTC.EvStop "CA2";
              ServerRTC.EvStartDone "CA1" (ServerRTC.mkStreamSession 10 1)] in
  ServerRTC.streamingSessions w0 !! "CA1"%string = None
  /\ ServerRTC.onStop 1 "CA1" w0 = w0
  /\ "CA1"%string <> EmptyString
  /\ ServerRTC.streamingSessions w !! "CA1"%string = Some s0
  /\ ServerRTC.streamingSessions (ServerRTC.onStop 1 "CA1" w)
     = delete ("CA1"%string) (ServerRTC.streamingSessions w)
  /\ Forall (fun e => e <> ServerRTC.EvStop "CA1" /\ e <> ServerRTC.EvClose) evs
  /\ is_Some (ServerRTC.streamingSessions
                (ServerRTC.run 1 (ServerRTC.onStartDone 1 "CA1" s0 w0) evs) !! "CA1"%string).
Proof.
  intros w0 s0 w evs.
  assert (Hsid : "CA1"%string <> EmptyString) by discriminate.
  assert (Hev : Forall (fun e => e <> ServerRTC.EvStop "CA1" /\ e <> ServerRTC.EvClose) evs)
    by (repeat constructor; discriminate).
  split; [reflexivity|].
  split; [apply (stop_not_deferred 1 w0 "CA1" s0 s0 evs); reflexivity|].
  split; [exact Hsid|]. split; [reflexivity|].
  split; [apply (stop_not_deferred 1 w "CA1" s0 s0 evs); [exact Hsid | reflexivity]|].
  split; [exact Hev|].
  apply (stop_not_deferred 1 w0 "CA1" s0 s0 evs). exact Hev.
Defined.

(* ------------------------------------------------------------------ *)
(** ** Claim about the inbound path *)

(** C10: in server.ts a media message for a registered stream id is
    converted (8 kHz to 24 kHz) and forwarded to the session's OpenAI
    socket if that socket is open; otherwise it is dropped.  In both cases
    the [try] block raises nothing, and the sessions, session objects and
    socket states are unchanged. *)
Theorem twilio_audio_forwarding (w : ServerWs.world) sid r s b :
  sid <> EmptyString ->
  ServerWs.sessions w !! sid = Some r ->
  ServerWs.objs w !! r = Some s ->
  let w' := ServerWs.onMedia sid (Some b) w in
  (exists p h1, alloc (ABytes b) (ServerWs.buffers w) = inr (p, h1)
     /\ ServerWs.handleTwilioAudio r p (ServerWs.with_buffers h1 w) = inr w')
  /\ ServerWs.sessions w' = ServerWs.sessions w
  /\ ServerWs.objs w' = ServerWs.objs w
  /\ ServerWs.ready w' = ServerWs.ready w
  /\ ServerWs.buffers w ⊆ ServerWs.buffers w'
  /\ ServerWs.sent w'
     = ServerWs.sent w
       ++ (if ServerWs.is_open w (ServerWs.openaiWs s)
           then [(ServerWs.openaiWs s, AudioIn (resample_bytes_pure b 8000 24000))]
           else []).
Proof.
  intros Hsid Hk Hr w'.
  destruct (alloc_fresh (ABytes b) (ServerWs.buffers w)) as [Ea Hn].
  set (p := fresh (dom (ServerWs.buffers w))) in *.
  set (h1 := <[p := ABytes b]> (ServerWs.buffers w)) in *.
  destruct (server_convert_at h1 p b 8000 24000 (lookup_insert_eq _ _ _)) as (h2 & E & Hs).
  assert (Eh : ServerWs.handleTwilioAudio r p (ServerWs.with_buffers h1 w)
               = inr (ServerWs.mkWorld (ServerWs.sessions w) (ServerWs.objs w)
                        (ServerWs.ready w) h2
                        (ServerWs.sent w
                         ++ (if ServerWs.is_open w (ServerWs.openaiWs s)
                             then [(ServerWs.openaiWs s, AudioIn (resample_bytes_pure b 8000 24000))]
                             else [])))).
  { unfold ServerWs.handleTwilioAudio. cbn. rewrite Hr, E.
    unfold ServerWs.is_open. cbn.
    destruct (bool_decide (ServerWs.ready w !! ServerWs.openaiWs s = Some OPEN)); [done|].
    rewrite app_nil_r. done. }
  assert (Ew : w' = ServerWs.mkWorld (ServerWs.sessions w) (ServerWs.objs w)
                      (ServerWs.ready w) h2
                      (ServerWs.sent w
                       ++ (if ServerWs.is_open w (ServerWs.openaiWs s)
                           then [(ServerWs.openaiWs s, AudioIn (resample_bytes_pure b 8000 24000))]
                           else []))).
  { unfold w', ServerWs.onMedia. rewrite decide_False by done. rewrite Hk, Ea.
    unfold ServerWs.handleTwilioAudio_caught. rewrite Eh. done. }
  split; [exists p, h1; split; [done | rewrite Eh, Ew; done]|].
  rewrite Ew. cbn. repeat split; try done.
  etransitivity; [apply insert_subseteq; exact Hn | exact Hs].
Qed.

Lemma twilio_audio_forwarding_witness :
  let w := ServerWs.mkWorld (<["CA1"%string := 0%nat]> ∅)
             (<[0%nat := ServerWs.mkStreamSession 5 1 "CA1" 0]> ∅)
             (<[1%nat := OPEN]> (<[5%nat := CONNECTING]> ∅)) ∅ [] in
  let s := ServerWs.mkStreamSession 5 1 "CA1" 0 in
  "CA1"%string <> EmptyString
  /\ ServerWs.sessions w !! "CA1"%string = Some 0%nat
  /\ ServerWs.objs w !! 0%nat = Some s
  /\ (let w' := ServerWs.onMedia "CA1" (Some [1; 2; 3]) w in
      (exists p h1, alloc (ABytes [1; 2; 3]) (ServerWs.buffers w) = inr (p, h1)
         /\ ServerWs.handleTwilioAudio 0 p (ServerWs.with_buffers h1 w) = inr w')
      /\ ServerWs.sessions w' = ServerWs.sessions w
      /\ ServerWs.objs w' = ServerWs.objs w
      /\ ServerWs.ready w' = ServerWs.ready w
      /\ ServerWs.buffers w ⊆ ServerWs.buffers w'
      /\ ServerWs.sent w'
         = ServerWs.sent w
           ++ (if ServerWs.is_open w (ServerWs.openaiWs s)
               then [(ServerWs.openaiWs s, AudioIn (resample_bytes_pure [1; 2; 3] 8000 24000))]
               else [])).
Proof.
  intros w s. assert (Hsid : "CA1"%string <> EmptyString) by discriminate.
  split; [exact Hsid|]. split; [reflexivity|]. split; [reflexivity|].
  apply (twilio_audio_forwarding w "CA1" 0 s [1; 2; 3] Hsid); reflexivity.
Defined.

(* ------------------------------------------------------------------ *)
(** ** The close handler of the Twilio socket *)

Lemma owned_key_ext (w w1 : ServerWs.world) tw k :
  ServerWs.sessions w1 !! k = ServerWs.sessions w !! k ->
  ServerWs.objs w1 = ServerWs.objs w ->
  ServerWs.owned_key w1 tw k = ServerWs.owned_key w tw k.
Proof. intros Hk Ho. unfold ServerWs.owned_key. rewrite Hk, Ho. done. Qed.

(** One visit of the loop. *)
Lemma close_visit_spec (w : ServerWs.world) tw k0 :
  ServerWs.wf w ->
  let w1 := ServerWs.close_visit tw w k0 in
  ServerWs.objs w1 = ServerWs.objs w
  /\ ServerWs.sessions w1
     = (if ServerWs.owned_key w tw k0 then delete k0 (ServerWs.sessions w)
        else ServerWs.sessions w)
  /\ (forall o, ServerWs.ready w1 !! o = ServerWs.ready w !! o
                \/ (ServerWs.ready w !! o = Some OPEN /\ ServerWs.ready w1 !! o = Some CLOSING))
  /\ (forall r s, ServerWs.sessions w !! k0 = Some r -> ServerWs.objs w !! r = Some s ->
        ServerWs.twilioWs s = tw ->
        ServerWs.ready w !! ServerWs.openaiWs s = Some OPEN ->
        ServerWs.ready w1 !! ServerWs.openaiWs s = Some CLOSING)
  /\ ServerWs.sent w1 = ServerWs.sent w.
Proof.
  intros Hwf w1. unfold w1, ServerWs.close_visit, ServerWs.owned_key.
  destruct (ServerWs.sessions w !! k0) as [r|] eqn:Hk;
    [|split_and!; try done; intros; try (by left); congruence].
  destruct (ServerWs.objs w !! r) as [s|] eqn:Hr;
    [|split_and!; try done; intros; try (by left); congruence].
  destruct (decide (ServerWs.twilioWs s = tw)) as [Htw|Htw].
  - rewrite bool_decide_true by done.
    destruct (Hwf k0 r Hk) as (s' & Hs' & Hks). rewrite Hr in Hs'. injection Hs' as <-.
    unfold ServerWs.cleanupSession. rewrite Hr. unfold ServerWs.is_open.
    destruct (bool_decide (ServerWs.ready w !! ServerWs.openaiWs s = Some OPEN)) eqn:Eo.
    + apply bool_decide_eq_true in Eo. cbn. rewrite Hks.
      repeat split; try done.
      * intros o. destruct (decide (o = ServerWs.openaiWs s)) as [->|Hne].
        -- right. rewrite lookup_insert_eq. done.
        -- left. rewrite lookup_insert_ne by done. done.
      * intros r' s'' Hr' Hs'' _ _. rewrite ?Hk in Hr'. injection Hr' as <-.
        rewrite ?Hr in Hs''. injection Hs'' as <-. apply lookup_insert_eq.
    + apply bool_decide_eq_false in Eo. cbn. rewrite Hks.
      repeat split; try done.
      * intros o. by left.
      * intros r' s'' Hr' Hs'' _ Ho. rewrite ?Hk in Hr'. injection Hr' as <-.
        rewrite ?Hr in Hs''. injection Hs'' as <-. congruence.
  - rewrite bool_decide_false by done.
    repeat split; try done.
    + intros o. by left.
    + intros r' s'' Hr' Hs'' Htw'. rewrite ?Hk in Hr'. injection Hr' as <-.
      rewrite ?Hr in Hs''. injection Hs'' as <-. congruence.
Qed.

Lemma wf_sub (w w1 : ServerWs.world) :
  ServerWs.wf w -> ServerWs.objs w1 = ServerWs.objs w ->
  (forall k r, ServerWs.sessions w1 !! k = Some r -> ServerWs.sessions w !! k = Some r) ->
  ServerWs.wf w1.
Proof. intros Hwf Ho Hs k r Hk. rewrite Ho. apply Hwf, Hs, Hk. Qed.

(** The loop over a list of keys. *)
Lemma close_fold_spec tw l : forall (w : ServerWs.world),
  ServerWs.wf w ->
  let w' := foldl (ServerWs.close_visit tw) w l in
  ServerWs.objs w' = ServerWs.objs w
  /\ (forall k, ServerWs.sessions w' !! k
                = if bool_decide (k ∈ l) && ServerWs.owned_key w tw k then None
                  else ServerWs.sessions w !! k)
  /\ (forall o, ServerWs.ready w !! o = Some CLOSING -> ServerWs.ready w' !! o = Some CLOSING)
  /\ (forall k r s, k ∈ l -> ServerWs.sessions w !! k = Some r -> ServerWs.objs w !! r = Some s ->
        ServerWs.twilioWs s = tw ->
        ServerWs.ready w !! ServerWs.openaiWs s = Some OPEN ->
        ServerWs.ready w' !! ServerWs.openaiWs s = Some CLOSING)
  /\ ServerWs.sent w' = ServerWs.sent w.
Proof.
  induction l as [|k0 l IH]; intros w Hwf w'.
  - unfold w'. simpl foldl. split_and!; try done.
    intros k r s Hin. apply not_elem_of_nil in Hin. contradiction.
  - unfold w'. simpl foldl.
    destruct (close_visit_spec w tw k0 Hwf) as (Ho1 & Hs1 & Hr1 & Hc1 & Hsent1).
    set (w1 := ServerWs.close_visit tw w k0) in *.
    assert (Hne_k : forall k, k <> k0 ->
              ServerWs.sessions w1 !! k = ServerWs.sessions w !! k).
    { intros k Hne. rewrite Hs1. destruct (ServerWs.owned_key w tw k0); [|done].
      rewrite lookup_delete_ne by done. done. }
    assert (Hwf1 : ServerWs.wf w1).
    { apply (wf_sub w); [done|done|]. intros k r.
      destruct (decide (k = k0)) as [->|Hne].
      - rewrite Hs1. destruct (ServerWs.owned_key w tw k0); [|done].
        rewrite lookup_delete_eq. discriminate.
      - rewrite Hne_k by done. done. }
    destruct (IH w1 Hwf1) as (Ho & Hs & Hr & Hc & Hsent).
    split; [congruence|]. split; [|split; [|split]].
    + intros k. rewrite Hs.
      destruct (decide (k = k0)) as [->|Hne].
      * rewrite (bool_decide_true (k0 ∈ k0 :: l)) by (apply elem_of_cons; by left).
        cbn [andb]. rewrite Hs1.
        destruct (ServerWs.owned_key w tw k0) eqn:Eown.
        -- rewrite lookup_delete_eq. destruct (bool_decide _ && _); done.
        -- rewrite (owned_key_ext w w1) by (rewrite ?Hs1; done).
           rewrite Eown, andb_false_r. done.
      * rewrite (owned_key_ext w w1) by (rewrite ?Hne_k; done).
        rewrite Hne_k by done.
        replace (bool_decide (k ∈ k0 :: l)) with (bool_decide (k ∈ l)); [done|].
        apply bool_decide_ext. rewrite elem_of_cons. tauto.
    + intros o Ho0. apply Hr. destruct (Hr1 o) as [E|[E _]]; congruence.
    + intros k r s Hin Hk Hrs Htw Hopen.
      destruct (decide (k = k0)) as [->|Hne].
      * apply Hr. eapply Hc1; done.
      * assert (Hin' : k ∈ l).
        { apply elem_of_cons in Hin. destruct Hin; [contradiction|done]. }
        destruct (Hr1 (ServerWs.openaiWs s)) as [E|[_ E]].
        -- apply (Hc k r s); try done.
           ++ rewrite Hne_k by done. done.
           ++ congruence.
           ++ congruence.
        -- apply Hr. done.
    + congruence.
Qed.

(** What [ws.on('close')] of a Twilio socket does (the extra property
    stated with C5): it removes from the Map exactly the sessions whose
    Twilio socket is the closing one, closes the OpenAI socket of those
    whose OpenAI socket is open, and sends nothing. *)
Theorem twilio_close_removes_owned (w : ServerWs.world) tw :
  ServerWs.wf w ->
  let w' := ServerWs.onTwilioClose tw w in
  ServerWs.objs w' = ServerWs.objs w
  /\ (forall k, ServerWs.sessions w' !! k
                = if ServerWs.owned_key w tw k then None else ServerWs.sessions w !! k)
  /\ (forall k r s, ServerWs.sessions w !! k = Some r -> ServerWs.objs w !! r = Some s ->
        ServerWs.twilioWs s = tw ->
        ServerWs.ready w !! ServerWs.openaiWs s = Some OPEN ->
        ServerWs.ready w' !! ServerWs.openaiWs s = Some CLOSING)
  /\ ServerWs.sent w' = ServerWs.sent w
  /\ ServerWs.wf w'.
Proof.
  intros Hwf w'.
  destruct (close_fold_spec tw (map fst (map_to_list (ServerWs.sessions w))) w Hwf)
    as (Ho & Hs & _ & Hc & Hsent).
  fold w' in Ho, Hs, Hc, Hsent.
  assert (Hdom : forall k, k ∈ map fst (map_to_list (ServerWs.sessions w))
                           <-> is_Some (ServerWs.sessions w !! k)).
  { intros k. rewrite list_elem_of_fmap. split.
    - intros ([k' r] & -> & Hin). apply elem_of_map_to_list in Hin. cbn. by eexists.
    - intros [r Hr]. exists (k, r). split; [done|]. apply elem_of_map_to_list. done. }
  assert (Hs' : forall k, ServerWs.sessions w' !! k
                = if ServerWs.owned_key w tw k then None else ServerWs.sessions w !! k).
  { intros k. rewrite Hs.
    destruct (ServerWs.sessions w !! k) as [r|] eqn:Hk.
    - rewrite bool_decide_true by (apply Hdom; by eexists). done.
    - destruct (bool_decide _ && _), (ServerWs.owned_key w tw k); done. }
  split; [done|]. split; [done|]. split; [|split; [done|]].
  - intros k r s Hk Hrs Htw Hopen. apply (Hc k r s); try done. apply Hdom. by eexists.
  - apply (wf_sub w); [done|done|]. intros k r. rewrite Hs'.
    destruct (ServerWs.owned_key w tw k); done.
Qed.

Lemma twilio_close_removes_owned_witness :
  let w := ServerWs.mkWorld
             (<["CA2"%string := 1%nat]> (<["CA1"%string := 0%nat]> ∅))
             (<[1%nat := ServerWs.mkStreamSession 6 2 "CA2" 0]>
                (<[0%nat := ServerWs.mkStreamSession 5 1 "CA1" 0]> ∅))
             (<[6%nat := OPEN]> (<[5%nat := OPEN]> (<[1%nat := CLOSED]> ∅))) ∅ [] in
  ServerWs.wf w
  /\ (let w' := ServerWs.onTwilioClose 1 w in
      ServerWs.objs w' = ServerWs.objs w
      /\ (forall k, ServerWs.sessions w' !! k
                    = if ServerWs.owned_key w 1 k then None else ServerWs.sessions w !! k)
      /\ (forall k r s, ServerWs.sessions w !! k = Some r -> ServerWs.objs w !! r = Some s ->
            ServerWs.twilioWs s = 1%nat ->
            ServerWs.ready w !! ServerWs.openaiWs s = Some OPEN ->
            ServerWs.ready w' !! ServerWs.openaiWs s = Some CLOSING)
      /\ ServerWs.sent w' = ServerWs.sent w
      /\ ServerWs.wf w').
Proof.
  intros w.
  assert (Hwf : ServerWs.wf w).
  { intros k r Hk. cbn in Hk.
    destruct (decide (k = "CA2"%string)) as [->|H2].
    - rewrite lookup_insert_eq in Hk. injection Hk as <-. eexists. split; reflexivity.
    - rewrite lookup_insert_ne in Hk by congruence.
      destruct (decide (k = "CA1"%string)) as [->|H1].
      + rewrite lookup_insert_eq in Hk. injection Hk as <-. eexists. split; reflexivity.
      + rewrite lookup_insert_ne in Hk by congruence. rewrite lookup_empty in Hk. discriminate. }
  split; [exact Hwf|]. apply (twilio_close_removes_owned w 1 Hwf).
Defined.

(** C5 (divergence): when the Twilio socket closes while the OpenAI socket
    of one of its sessions is still connecting, the session leaves the Map
    but its OpenAI socket is not closed, because [cleanupSession] closes
    only an open socket. *)
Lemma twilio_close_connecting_counterexample :
  let w := ServerWs.mkWorld (<["CA1"%string := 0%nat]> ∅)
             (<[0%nat := ServerWs.mkStreamSession 5 1 "CA1" 0]> ∅)
             (<[1%nat := CLOSED]> (<[5%nat := CONNECTING]> ∅)) ∅ [] in
  let w' := ServerWs.onTwilioClose 1 w in
  ServerWs.sessions w' = ∅
  /\ ServerWs.ready w' !! 5%nat = Some CONNECTING.
Proof. split; vm_compute; reflexivity. Qed.

(* ================================================================== *)
(** * Further properties of the code *)

Lemma land255_mod (a : Z) : Z.land a 255 = a mod 256.
Proof. change 255 with (Z.ones 8). rewrite Z.land_ones by lia. done. Qed.

Lemma int16_le_bytes (v : Z) :
  -32768 <= v <= 32767 -> int16_at (le_bytes v) 0 = v.
Proof.
  intros Hv. unfold int16_at, int16_of_bytes, le_bytes. cbn [nth Nat.mul Nat.add].
  rewrite !land255_mod, Z.shiftr_div_pow2 by lia. change (2 ^ 8) with 256.
  rewrite !Z.mod_mod by lia.
  assert (E : v mod 256 + 256 * ((v / 256) mod 256) = v mod 65536).
  { change 65536 with (256 * 256). rewrite Z.rem_mul_r by lia. done. }
  rewrite E.
  destruct (Z.leb_spec 0 v).
  - rewrite Z.mod_small by lia. rewrite (proj2 (Z.ltb_lt _ _)) by lia. done.
  - assert (v mod 65536 = v + 65536).
    { rewrite <- (Z.mod_small (v + 65536) 65536) by lia.
      rewrite <- Z.add_mod_idemp_r, Z.mod_same, Z.add_0_r by lia. done. }
    rewrite H0. rewrite (proj2 (Z.ltb_ge _ _)) by lia. lia.
Qed.

Lemma le_bytes_int16 (lo hi : Z) :
  0 <= lo < 256 -> 0 <= hi < 256 -> le_bytes (int16_at [lo; hi] 0) = [lo; hi].
Proof.
  intros Hlo Hhi. unfold int16_at, int16_of_bytes, le_bytes. cbn [nth Nat.mul Nat.add].
  rewrite !land255_mod, !(Z.mod_small lo), !(Z.mod_small hi) by lia.
  destruct (Z.ltb_spec (lo + 256 * hi) 32768);
    rewrite Z.shiftr_div_pow2 by lia; change (2 ^ 8) with 256.
  - rewrite (Z.mul_comm 256 hi), Z.mod_add, Z.div_add by lia.
    rewrite (Z.mod_small lo), (Z.div_small lo), Z.add_0_l, Z.mod_small by lia. done.
  - replace (lo + 256 * hi - 65536) with (lo + (hi - 256) * 256) by lia.
    rewrite Z.mod_add, Z.div_add by lia.
    rewrite (Z.mod_small lo), (Z.div_small lo), Z.add_0_l by lia.
    replace (hi - 256) with (hi + (-1) * 256) by lia. rewrite Z.mod_add, Z.mod_small by lia. done.
Qed.

Lemma int16_at_shift2 (a b : Z) rest i :
  int16_at (a :: b :: rest) (S i) = int16_at rest i.
Proof.
  unfold int16_at. replace (2 * S i)%nat with (S (S (2 * i))) by lia.
  replace (S (S (2 * i)) + 1)%nat with (S (S (2 * i + 1))) by lia. done.
Qed.

Lemma decode_pure_cons2 (a b : Z) rest :
  decode_pure (a :: b :: rest)
  = pcm16_decode (int16_of_bytes a b) :: decode_pure rest.
Proof.
  unfold decode_pure. cbn [length].
  replace (S (S (length rest)) / 2)%nat with (S (length rest / 2)).
  2:{ replace (S (S (length rest))) with (length rest + 1 * 2)%nat by lia.
      rewrite Nat.div_add by lia. lia. }
  cbn [seq map]. f_equal.
  rewrite <- seq_shift, map_map. apply map_ext. intros i.
  rewrite int16_at_shift2. done.
Qed.

Lemma decode_encode_pure (enc : Q -> Z) (y : list num) :
  (forall s, -32768 <= enc s <= 32767) ->
  decode_pure (encode_pure enc y) = map (fun s => pcm16_decode (pcm16_of enc s)) y.
Proof.
  intros Henc. induction y as [|s y IH]; [done|].
  change (encode_pure enc (s :: y)) with (le_bytes (pcm16_of enc s) ++ encode_pure enc y).
  unfold le_bytes at 1. cbn [app]. rewrite decode_pure_cons2, IH. cbn [map]. f_equal.
  f_equal. exact (int16_le_bytes (pcm16_of enc s) (pcm16_of_range enc Henc s)).
Qed.

(** X3: encoding a sample array to PCM16 bytes and decoding those bytes
    again never fails; the decoded array holds [enc(s) / 32768] for each
    sample [s] ([0] for a [NaN] sample), for any encoder whose results are
    16-bit values. *)
Theorem pcm16_encode_decode (enc : Q -> Z) (h : heap) r y :
  (forall s, -32768 <= enc s <= 32767) ->
  h !! r = Some (AF32 y) ->
  exists o h1 p h2,
    encode_pcm16 enc r h = inr (o, h1)
    /\ decode_pcm16 o h1 = inr (p, h2)
    /\ h2 !! p = Some (AF32 (map (fun s => Fin (pcm16_decode (pcm16_of enc s))) y)).
Proof.
  intros Henc Hr.
  destruct (encode_pcm16_spec enc h r y Henc Hr) as [E1 _].
  set (o := fresh (dom h)) in *.
  set (h1 := <[o := ABytes (encode_pure enc y)]> h).
  assert (Ho : h1 !! o = Some (ABytes (encode_pure enc y))) by apply lookup_insert_eq.
  destruct (decode_pcm16_spec h1 o _ Ho) as [E2 _].
  do 4 eexists. split; [exact E1|]. split; [exact E2|].
  rewrite lookup_insert_eq, decode_encode_pure by done. rewrite map_map. done.
Qed.

Lemma pcm16_encode_decode_witness :
  (forall s, -32768 <= pcm16_encode_round_f s <= 32767)
  /\ (<[1%positive := AF32 [Fin (1 # 2); NaN; Fin (-1)]]> ∅ : heap) !! 1%positive
     = Some (AF32 [Fin (1 # 2); NaN; Fin (-1)])
  /\ exists o h1 p h2,
    encode_pcm16 pcm16_encode_round_f 1 (<[1%positive := AF32 [Fin (1 # 2); NaN; Fin (-1)]]> ∅)
      = inr (o, h1)
    /\ decode_pcm16 o h1 = inr (p, h2)
    /\ h2 !! p = Some (AF32 (map (fun s => Fin (pcm16_decode (pcm16_of pcm16_encode_round_f s)))
                                 [Fin (1 # 2); NaN; Fin (-1)])).
Proof.
  split; [exact encode_round_f_range|]. split; [reflexivity|].
  apply (pcm16_encode_decode pcm16_encode_round_f _ 1 _ encode_round_f_range).
  reflexivity.
Defined.

(** X8: a [stop] for a registered stream id removes its Map entry,
    moves its open OpenAI socket to [CLOSING] and sends a [disconnected]
    mark on the socket the message came in on, whichever socket started
    the session. *)
Theorem stop_cleans_session (w : ServerWs.world) sid tw r s :
  sid <> EmptyString ->
  ServerWs.wf w ->
  ServerWs.sessions w !! sid = Some r ->
  ServerWs.objs w !! r = Some s ->
  tw <> ServerWs.openaiWs s ->
  let w' := ServerWs.onStop sid tw w in
  ServerWs.sessions w' = delete sid (ServerWs.sessions w)
  /\ ServerWs.objs w' = ServerWs.objs w
  /\ ServerWs.ready w' = (if ServerWs.is_open w (ServerWs.openaiWs s)
                          then <[ServerWs.openaiWs s := CLOSING]> (ServerWs.ready w)
                          else ServerWs.ready w)
  /\ ServerWs.sent w' = ServerWs.sent w
       ++ (if ServerWs.is_open w tw then [(tw, Mark sid "disconnected"%string)] else []).
Proof.
  intros Hsid Hwf Hk Hr Htw w'.
  destruct (Hwf sid r Hk) as (s' & Hr' & Hsid').
  rewrite Hr in Hr'. injection Hr' as <-.
  unfold w', ServerWs.onStop. rewrite decide_False by done. rewrite Hk.
  unfold ServerWs.cleanupSession. rewrite Hr.
  unfold ServerWs.ws_send, ServerWs.is_open.
  destruct (bool_decide (ServerWs.ready w !! ServerWs.openaiWs s = Some OPEN)) eqn:Eo; cbn.
  - rewrite lookup_insert_ne by done.
    destruct (bool_decide (ServerWs.ready w !! tw = Some OPEN)); cbn; rewrite ?app_nil_r, Hsid'; done.
  - destruct (bool_decide (ServerWs.ready w !! tw = Some OPEN)); cbn; rewrite ?app_nil_r, Hsid'; done.
Qed.

Lemma fresh_insert_ne {A} (m : gmap nat A) k v :
  fresh (dom (<[k := v]> m)) <> k.
Proof.
  intros E. pose proof (is_fresh (dom (<[k := v]> m))) as Hf. rewrite E in Hf.
  apply Hf. rewrite dom_insert_L. set_solver.
Qed.

(** X9: starting the same stream id twice leaves the first OpenAI
    socket untouched; when that socket later closes, its handler deletes
    the Map entry, which now refers to the second session, and the second
    session's socket is left connecting with no entry. *)
Theorem restart_then_old_close (w : ServerWs.world) sid tw tw' :
  sid <> EmptyString ->
  let w1 := ServerWs.onStart true sid tw w in
  let r1 := fresh (dom (ServerWs.objs w)) in
  let o1 := fresh (dom (ServerWs.ready w)) in
  let w2 := ServerWs.onStart true sid tw' w1 in
  let r2 := fresh (dom (ServerWs.objs w1)) in
  let o2 := fresh (dom (ServerWs.ready w1)) in
  let w3 := ServerWs.onOpenAIClose r1 w2 in
  ServerWs.sessions w2 !! sid = Some r2 /\ r2 <> r1 /\ o2 <> o1
  /\ ServerWs.ready w2 !! o1 = Some CONNECTING
  /\ ServerWs.sessions w3 !! sid = None
  /\ ServerWs.ready w3 !! o2 = Some CONNECTING.
Proof.
  intros Hsid w1 r1 o1 w2 r2 o2 w3.
  destruct (onStart_spec w sid tw Hsid) as (E1 & _ & _).
  destruct (onStart_spec w1 sid tw' Hsid) as (E2 & _ & _).
  fold w1 in E1. fold w2 in E2. fold r2 in E2. fold o2 in E2.
  assert (Hr : r2 <> r1) by (unfold r2; rewrite E1; cbn; apply fresh_insert_ne).
  assert (Ho : o2 <> o1) by (unfold o2; rewrite E1; cbn; apply fresh_insert_ne).
  assert (Hobj : ServerWs.objs w2 !! r1 = Some (ServerWs.mkStreamSession o1 tw sid 0)).
  { rewrite E2. cbn. rewrite lookup_insert_ne by done. rewrite E1. cbn. apply lookup_insert_eq. }
  assert (Hrd : ServerWs.ready w2 !! o1 = Some CONNECTING).
  { rewrite E2. cbn. rewrite lookup_insert_ne by done. rewrite E1. cbn. apply lookup_insert_eq. }
  split; [rewrite E2; cbn; apply lookup_insert_eq|].
  split; [done|]. split; [done|]. split; [done|].
  unfold w3, ServerWs.onOpenAIClose. rewrite Hobj.
  unfold ServerWs.cleanupSession. cbn. rewrite Hobj.
  unfold ServerWs.is_open. cbn. rewrite lookup_insert_eq. cbn.
  split.
  - apply lookup_delete_eq.
  - rewrite bool_decide_false by discriminate. cbn. rewrite lookup_insert_ne by done. rewrite E2. cbn. apply lookup_insert_eq.
Qed.

Lemma onMedia_forward (w : ServerWs.world) sid r s b :
  sid <> EmptyString ->
  ServerWs.sessions w !! sid = Some r ->
  ServerWs.objs w !! r = Some s ->
  ServerWs.sent (ServerWs.onMedia sid (Some b) w)
  = ServerWs.sent w
    ++ (if ServerWs.is_open w (ServerWs.openaiWs s)
        then [(ServerWs.openaiWs s, AudioIn (resample_bytes_pure b 8000 24000))]
        else []).
Proof.
  intros Hsid Hk Hr.
  destruct (alloc_fresh (ABytes b) (ServerWs.buffers w)) as [Ea _].
  set (p := fresh (dom (ServerWs.buffers w))) in *.
  set (h1 := <[p := ABytes b]> (ServerWs.buffers w)) in *.
  destruct (server_convert_at h1 p b 8000 24000 (lookup_insert_eq _ _ _)) as (h2 & E & _).
  unfold ServerWs.onMedia. rewrite decide_False by done. rewrite Hk, Ea.
  unfold ServerWs.handleTwilioAudio_caught, ServerWs.handleTwilioAudio. cbn. rewrite Hr, E.
  unfold ServerWs.is_open. cbn.
  destruct (bool_decide (ServerWs.ready w !! ServerWs.openaiWs s = Some OPEN)); cbn;
    rewrite ?app_nil_r; done.
Qed.

(** X10: after [start], the OpenAI socket's [open] and a [media]
    message, the messages sent are the [connected] mark (if the Twilio
    socket is open), then [response.create] and the resampled audio on
    the new OpenAI socket. *)
Theorem start_open_media (w : ServerWs.world) sid tw b :
  sid <> EmptyString ->
  let o := fresh (dom (ServerWs.ready w)) in
  let w1 := ServerWs.onStart true sid tw w in
  let w2 := ServerWs.onOpenAIOpen o w1 in
  let w3 := ServerWs.onMedia sid (Some b) w2 in
  ServerWs.sent w3
  = ServerWs.sent w
    ++ (if ServerWs.is_open w tw then [(tw, Mark sid "connected"%string)] else [])
    ++ [(o, ResponseCreate); (o, AudioIn (resample_bytes_pure b 8000 24000))].
Proof.
  intros Hsid o w1 w2 w3.
  destruct (onStart_spec w sid tw Hsid) as (E1 & _ & _).
  fold w1 in E1.
  set (r := fresh (dom (ServerWs.objs w))) in *.
  assert (E2 : w2 = ServerWs.mkWorld (<[sid := r]> (ServerWs.sessions w))
                      (<[r := ServerWs.mkStreamSession o tw sid 0]> (ServerWs.objs w))
                      (<[o := OPEN]> (<[o := CONNECTING]> (ServerWs.ready w)))
                      (ServerWs.buffers w)
                      (ServerWs.sent w
                       ++ (if ServerWs.is_open w tw then [(tw, Mark sid "connected"%string)] else [])
                       ++ [(o, ResponseCreate)])).
  { unfold w2, ServerWs.onOpenAIOpen, ServerWs.ws_send, ServerWs.is_open.
    rewrite E1. cbn. rewrite lookup_insert_eq, bool_decide_true by done. cbn.
    rewrite <- app_assoc. done. }
  assert (Hk : ServerWs.sessions w2 !! sid = Some r) by (rewrite E2; apply lookup_insert_eq).
  assert (Hr : ServerWs.objs w2 !! r = Some (ServerWs.mkStreamSession o tw sid 0))
    by (rewrite E2; apply lookup_insert_eq).
  unfold w3. rewrite (onMedia_forward w2 sid r _ b Hsid Hk Hr). cbn [ServerWs.openaiWs].
  unfold ServerWs.is_open. rewrite E2. cbn. rewrite lookup_insert_eq, bool_decide_true by done.
  rewrite <- !app_assoc. done.
Qed.

Lemma map_fmap_eq {A B} (f : A -> B) (l : list A) : map f l = f <$> l.
Proof. induction l as [|x l IH]; [done|]. cbn. rewrite IH. done. Qed.

Lemma keys_NoDup {A} (m : gmap string A) : NoDup (map fst (map_to_list m)).
Proof. rewrite map_fmap_eq. apply NoDup_fst_map_to_list. Qed.

Lemma keys_elem {A} (m : gmap string A) k :
  k ∈ map fst (map_to_list m) <-> is_Some (m !! k).
Proof.
  rewrite map_fmap_eq, list_elem_of_fmap. split.
  - intros ([k' v] & -> & Hin). apply elem_of_map_to_list in Hin. cbn. by exists v.
  - intros [v Hv]. exists (k, v). split; [done|]. apply elem_of_map_to_list. done.
Qed.

Lemma rtc_close_fold ws l : NoDup l -> forall (w : ServerRTC.world),
  let w' := foldl (ServerRTC.close_visit ws) w l in
  (forall k, ServerRTC.streamingSessions w' !! k
             = if bool_decide (k ∈ l)
               then match ServerRTC.streamingSessions w !! k with
                    | Some s => if decide (ServerRTC.twilioWs s = ws) then None else Some s
                    | None => None
                    end
               else ServerRTC.streamingSessions w !! k)
  /\ ServerRTC.pcClosed w'
     = ServerRTC.pcClosed w
       ++ omap (fun k => match ServerRTC.streamingSessions w !! k with
                         | Some s => if decide (ServerRTC.twilioWs s = ws)
                                     then Some (ServerRTC.peerConnection s) else None
                         | None => None
                         end) l
  /\ ServerRTC.ready w' = ServerRTC.ready w
  /\ ServerRTC.sent w' = ServerRTC.sent w.
Proof.
  induction l as [|k0 l IH]; intros Hnd w w'.
  - unfold w'. cbn. rewrite app_nil_r. split_and!; try done.
  - apply NoDup_cons in Hnd as [Hk0 Hnd]. unfold w'. cbn [foldl].
    set (w1 := ServerRTC.close_visit ws w k0).
    assert (Hne : forall k, k <> k0 ->
      ServerRTC.streamingSessions w1 !! k = ServerRTC.streamingSessions w !! k).
    { intros k Hne. unfold w1, ServerRTC.close_visit.
      destruct (ServerRTC.streamingSessions w !! k0) as [s|]; [|done].
      destruct (decide (ServerRTC.twilioWs s = ws)); [|done]. cbn.
      rewrite lookup_delete_ne by done. done. }
    destruct (IH Hnd w1) as (Hs & Hpc & Hr & Hsent).
    split_and!.
    + intros k. rewrite Hs.
      destruct (decide (k = k0)) as [->|Hkne].
      * rewrite (bool_decide_false (k0 ∈ l)) by done.
        rewrite (bool_decide_true (k0 ∈ k0 :: l)) by (apply elem_of_cons; by left).
        unfold w1, ServerRTC.close_visit.
        destruct (ServerRTC.streamingSessions w !! k0) as [s|] eqn:E; [|cbn; rewrite E; done].
        destruct (decide (ServerRTC.twilioWs s = ws)); cbn; [|done].
        apply lookup_delete_eq.
      * rewrite Hne by done.
        replace (bool_decide (k ∈ k0 :: l)) with (bool_decide (k ∈ l)); [done|].
        apply bool_decide_ext. rewrite elem_of_cons. tauto.
    + rewrite Hpc.
      assert (Eo : omap (fun k => match ServerRTC.streamingSessions w1 !! k with
                         | Some s => if decide (ServerRTC.twilioWs s = ws)
                                     then Some (ServerRTC.peerConnection s) else None
                         | None => None
                         end) l
                   = omap (fun k => match ServerRTC.streamingSessions w !! k with
                         | Some s => if decide (ServerRTC.twilioWs s = ws)
                                     then Some (ServerRTC.peerConnection s) else None
                         | None => None
                         end) l).
      { clear -Hk0 Hne. induction l as [|k l IHl]; [done|].
        apply not_elem_of_cons in Hk0 as [Hk Hk0]. cbn.
        rewrite Hne by done. rewrite IHl by done. done. }
      rewrite Eo. unfold w1, ServerRTC.close_visit. cbn [omap list_omap].
      destruct (ServerRTC.streamingSessions w !! k0) as [s|]; [|done].
      destruct (decide (ServerRTC.twilioWs s = ws)); cbn; [|done].
      rewrite <- app_assoc. done.
    + rewrite Hr. unfold w1, ServerRTC.close_visit.
      destruct (ServerRTC.streamingSessions w !! k0) as [s|]; [|done].
      destruct (decide (ServerRTC.twilioWs s = ws)); done.
    + rewrite Hsent. unfold w1, ServerRTC.close_visit.
      destruct (ServerRTC.streamingSessions w !! k0) as [s|]; [|done].
      destruct (decide (ServerRTC.twilioWs s = ws)); done.
Qed.

(** X11: closing a Twilio socket in the wrtc variant removes exactly the
    sessions whose [twilioWs] is that socket, closes exactly their peer
    connections, and sends nothing. *)
Theorem rtc_twilio_close (ws : nat) (w : ServerRTC.world) :
  let w' := ServerRTC.onClose ws w in
  (forall k, ServerRTC.streamingSessions w' !! k
             = match ServerRTC.streamingSessions w !! k with
               | Some s => if decide (ServerRTC.twilioWs s = ws) then None else Some s
               | None => None
               end)
  /\ (forall pc, pc ∈ ServerRTC.pcClosed w'
       <-> pc ∈ ServerRTC.pcClosed w
           \/ exists k s, ServerRTC.streamingSessions w !! k = Some s
                /\ ServerRTC.twilioWs s = ws /\ ServerRTC.peerConnection s = pc)
  /\ ServerRTC.sent w' = ServerRTC.sent w.
Proof.
  intros w'.
  destruct (rtc_close_fold ws _ (keys_NoDup (ServerRTC.streamingSessions w)) w)
    as (Hs & Hpc & _ & Hsent).
  split_and!.
  - intros k. unfold w', ServerRTC.onClose. rewrite Hs.
    case_bool_decide as Hin; [done|].
    destruct (ServerRTC.streamingSessions w !! k) eqn:E; [|done].
    exfalso. apply Hin, keys_elem. rewrite E. by eexists.
  - intros pc. unfold w', ServerRTC.onClose. rewrite Hpc, elem_of_app, list_elem_of_omap.
    split; intros [H|H]; [by left| |by left|]; right.
    + destruct H as (k & Hk & Hf).
      destruct (ServerRTC.streamingSessions w !! k) as [s|] eqn:E; [|done].
      destruct (decide (ServerRTC.twilioWs s = ws)); [|done].
      injection Hf as <-. by exists k, s.
    + destruct H as (k & s & E & Htw & <-). exists k. split.
      * apply keys_elem. rewrite E. by eexists.
      * rewrite E, decide_True by done. done.
  - exact Hsent.
Qed.

Lemma conn_close_fold ws l : NoDup l -> forall (w : Part002Conn.world),
  let w' := foldl (Part002Conn.close_visit ws) w l in
  (forall k, Part002Conn.connections w' !! k
             = if bool_decide (k ∈ l)
               then match Part002Conn.connections w !! k with
                    | Some sock => if decide (sock = ws) then None else Some sock
                    | None => None
                    end
               else Part002Conn.connections w !! k)
  /\ Part002Conn.ready w' = Part002Conn.ready w
  /\ Part002Conn.sent w' = Part002Conn.sent w.
Proof.
  induction l as [|k0 l IH]; intros Hnd w w'.
  - unfold w'. cbn. split_and!; done.
  - apply NoDup_cons in Hnd as [Hk0 Hnd]. unfold w'. cbn [foldl].
    set (w1 := Part002Conn.close_visit ws w k0).
    assert (Hne : forall k, k <> k0 ->
      Part002Conn.connections w1 !! k = Part002Conn.connections w !! k).
    { intros k Hne. unfold w1, Part002Conn.close_visit.
      destruct (Part002Conn.connections w !! k0) as [s|]; [|done].
      destruct (decide (s = ws)); [|done]. cbn.
      rewrite lookup_delete_ne by done. done. }
    destruct (IH Hnd w1) as (Hs & Hr & Hsent).
    split_and!.
    + intros k. rewrite Hs.
      destruct (decide (k = k0)) as [->|Hkne].
      * rewrite (bool_decide_false (k0 ∈ l)) by done.
        rewrite (bool_decide_true (k0 ∈ k0 :: l)) by (apply elem_of_cons; by left).
        unfold w1, Part002Conn.close_visit.
        destruct (Part002Conn.connections w !! k0) as [s|] eqn:E; [|cbn; rewrite E; done].
        destruct (decide (s = ws)); cbn; [|done].
        apply lookup_delete_eq.
      * rewrite Hne by done.
        replace (bool_decide (k ∈ k0 :: l)) with (bool_decide (k ∈ l)); [done|].
        apply bool_decide_ext. rewrite elem_of_cons. tauto.
    + rewrite Hr. unfold w1, Part002Conn.close_visit.
      destruct (Part002Conn.connections w !! k0) as [s|]; [|done].
      destruct (decide (s = ws)); done.
    + rewrite Hsent. unfold w1, Part002Conn.close_visit.
      destruct (Part002Conn.connections w !! k0) as [s|]; [|done].
      destruct (decide (s = ws)); done.
Qed.

(** X12: closing a socket in the part_002 registry removes exactly the
    entries mapped to that socket, keeps every other entry, and sends
    nothing. *)
Theorem registry_close_removes_owned (ws : nat) (w : Part002Conn.world) :
  let w' := Part002Conn.onClose ws w in
  (forall k, Part002Conn.connections w' !! k
             = match Part002Conn.connections w !! k with
               | Some sock => if decide (sock = ws) then None else Some sock
               | None => None
               end)
  /\ Part002Conn.sent w' = Part002Conn.sent w.
Proof.
  intros w'.
  destruct (conn_close_fold ws _ (keys_NoDup (Part002Conn.connections w)) w)
    as (Hs & _ & Hsent).
  split; [|exact Hsent].
  intros k. unfold w', Part002Conn.onClose. rewrite Hs.
  case_bool_decide as Hin; [done|].
  destruct (Part002Conn.connections w !! k) eqn:E; [|done].
  exfalso. apply Hin, keys_elem. rewrite E. by eexists.
Qed.

Lemma ka_run_terminated (c : KeepAlive.client) evs :
  KeepAlive.terminated c = true ->
  KeepAlive.terminated (KeepAlive.run c evs) = true /\ KeepAlive.actions (KeepAlive.run c evs) = KeepAlive.actions c.
Proof.
  revert c. induction evs as [|e evs IH]; intros c Ht; [done|].
  unfold KeepAlive.run. cbn [foldl]. fold (KeepAlive.run (KeepAlive.step c e) evs).
  destruct e; cbn.
  - destruct (IH (KeepAlive.onPong c)) as [H1 H2]; [done|]. rewrite H1, H2. done.
  - unfold KeepAlive.onInterval. rewrite Ht. apply IH. done.
Qed.

Lemma ka_run_spec evs : forall (c : KeepAlive.client),
  KeepAlive.terminated c = false -> KeepAlive.Terminate ∉ KeepAlive.actions c ->
  (KeepAlive.Terminate ∈ KeepAlive.actions (KeepAlive.run c evs)
   <-> (KeepAlive.isAlive c = false /\ exists e2 e3, evs = e2 ++ KeepAlive.EvInterval :: e3 /\ KeepAlive.EvPong ∉ e2)
       \/ exists e1 e2 e3, evs = e1 ++ KeepAlive.EvInterval :: e2 ++ KeepAlive.EvInterval :: e3
                           /\ KeepAlive.EvPong ∉ e2).
Proof.
  induction evs as [|e evs IH]; intros c Ht Hn.
  - cbn. split; [done|]. intros [[_ (e2 & e3 & E & _)]|(e1 & e2 & e3 & E & _)].
    + destruct e2; discriminate.
    + destruct e1; discriminate.
  - unfold KeepAlive.run. cbn [foldl]. fold (KeepAlive.run (KeepAlive.step c e) evs).
    destruct e; cbn [KeepAlive.step].
    + rewrite (IH (KeepAlive.onPong c)) by done. cbn [KeepAlive.isAlive KeepAlive.onPong].
      split.
      * intros [[? _]|(e1 & e2 & e3 & E & Hp)]; [discriminate|].
        right. exists (KeepAlive.EvPong :: e1), e2, e3. rewrite E. done.
      * intros [[_ (e2 & e3 & E & Hp)]|(e1 & e2 & e3 & E & Hp)].
        -- destruct e2 as [|x e2]; [cbn in E; discriminate|]. injection E as Hx _. subst x.
           exfalso. apply Hp. apply elem_of_cons. by left.
        -- destruct e1 as [|x e1]; [cbn in E; discriminate|]. injection E as Hx E. subst x.
           right. by exists e1, e2, e3.
    + unfold KeepAlive.onInterval. rewrite Ht. cbn [negb].
      destruct (KeepAlive.isAlive c) eqn:Ea; cbn [negb].
      * rewrite (IH (KeepAlive.mkClient false false (KeepAlive.actions c ++ [KeepAlive.Ping]))); cbn; [|done|].
        2:{ rewrite elem_of_app, list_elem_of_singleton. intros [H|H]; [done|discriminate]. }
        split.
        -- intros [[_ (e2 & e3 & E & Hp)]|(e1 & e2 & e3 & E & Hp)].
           ++ right. exists [], e2, e3. rewrite E. done.
           ++ right. exists (KeepAlive.EvInterval :: e1), e2, e3. rewrite E. done.
        -- intros [[? _]|(e1 & e2 & e3 & E & Hp)]; [discriminate|].
           destruct e1 as [|x e1]; cbn in E; injection E as E.
           ++ left. split; [done|]. by exists e2, e3.
           ++ right. by exists e1, e2, e3.
      * destruct (ka_run_terminated (KeepAlive.mkClient false true (KeepAlive.actions c ++ [KeepAlive.Terminate])) evs)
          as [_ ->]; [done|]. cbn.
        split; [intros _; left; split; [done|]; exists [], evs; split; [done|apply not_elem_of_nil]|].
        intros _. rewrite elem_of_app, list_elem_of_singleton. by right.
Qed.

(** X13: the keep-alive timer terminates a client exactly when two of
    its runs happen with no pong in between. *)
Theorem keepalive_terminates evs :
  let c := KeepAlive.run KeepAlive.on_connection evs in
  (KeepAlive.Terminate ∈ KeepAlive.actions c
   <-> exists e1 e2 e3, evs = e1 ++ KeepAlive.EvInterval :: e2 ++ KeepAlive.EvInterval :: e3
                        /\ KeepAlive.EvPong ∉ e2).
Proof.
  intros c. unfold c. rewrite (ka_run_spec evs KeepAlive.on_connection) by (cbn; by try apply not_elem_of_nil).
  cbn. split; [intros [[? _]|H]; [discriminate|exact H]|intros H; by right].
Qed.

Lemma aq_step_inv (a : ServerRTCQueue.AudioSession) e (P D : list (list Z)) :
  (length (ServerRTCQueue.bufferQueue a) <= ServerRTCQueue.maxQueueSize)%nat ->
  ServerRTCQueue.loopPending a = ServerRTCQueue.isProcessing a ->
  (ServerRTCQueue.isProcessing a = false -> ServerRTCQueue.bufferQueue a = []) ->
  ServerRTCQueue.delivered a = map decode_pure D ->
  (D ++ ServerRTCQueue.bufferQueue a) `sublist_of` P ->
  let a' := ServerRTCQueue.aq_step a e in
  (length (ServerRTCQueue.bufferQueue a') <= ServerRTCQueue.maxQueueSize)%nat
  /\ ServerRTCQueue.loopPending a' = ServerRTCQueue.isProcessing a'
  /\ (ServerRTCQueue.isProcessing a' = false -> ServerRTCQueue.bufferQueue a' = [])
  /\ exists D', ServerRTCQueue.delivered a' = map decode_pure D'
       /\ (D' ++ ServerRTCQueue.bufferQueue a') `sublist_of` (P ++ ServerRTCQueue.aq_pushed [e]).
Proof.
  intros Hlen Hpend Hidle Hdel Hsub a'. unfold a'.
  destruct e as [b|]; cbn [ServerRTCQueue.aq_step ServerRTCQueue.aq_pushed omap list_omap].
  - unfold ServerRTCQueue.onMediaQueue. cbn [ServerRTCQueue.isProcessing ServerRTCQueue.bufferQueue ServerRTCQueue.loopPending ServerRTCQueue.delivered].
    destruct (ServerRTCQueue.isProcessing a) eqn:Ep; cbn [negb].
    + cbn [ServerRTCQueue.bufferQueue ServerRTCQueue.isProcessing ServerRTCQueue.loopPending ServerRTCQueue.delivered].
      assert (Hq : (length (if (ServerRTCQueue.maxQueueSize <? length (ServerRTCQueue.bufferQueue a ++ [b]))%nat
                            then drop (length (ServerRTCQueue.bufferQueue a ++ [b]) - ServerRTCQueue.maxQueueSize)
                                   (ServerRTCQueue.bufferQueue a ++ [b])
                            else ServerRTCQueue.bufferQueue a ++ [b]) <= ServerRTCQueue.maxQueueSize)%nat
              /\ (if (ServerRTCQueue.maxQueueSize <? length (ServerRTCQueue.bufferQueue a ++ [b]))%nat
                  then drop (length (ServerRTCQueue.bufferQueue a ++ [b]) - ServerRTCQueue.maxQueueSize)
                         (ServerRTCQueue.bufferQueue a ++ [b])
                  else ServerRTCQueue.bufferQueue a ++ [b]) `sublist_of` (ServerRTCQueue.bufferQueue a ++ [b])).
      { destruct (Nat.ltb_spec ServerRTCQueue.maxQueueSize (length (ServerRTCQueue.bufferQueue a ++ [b]))).
        - split; [rewrite length_drop; lia|apply sublist_drop].
        - split; [lia|done]. }
      destruct Hq as [Hq1 Hq2].
      split_and!; [exact Hq1|done|done|].
      exists D. split; [done|].
      apply (transitivity (y := D ++ ServerRTCQueue.bufferQueue a ++ [b])).
      * apply sublist_app; done.
      * rewrite app_assoc. apply sublist_app; done.
    + rewrite (Hidle eq_refl). cbn.
      unfold ServerRTCQueue.processAudioQueue, ServerRTCQueue.process_one. cbn.
      split_and!; [cbn; lia|done|done|].
      exists (D ++ [b]). cbn. split; [rewrite Hdel, map_app; done|].
      rewrite app_nil_r. apply sublist_app; [|done].
      rewrite (Hidle eq_refl), app_nil_r in Hsub. done.
  - rewrite app_nil_r. unfold ServerRTCQueue.resume.
    destruct (ServerRTCQueue.loopPending a) eqn:Epd; [|split_and!; [done|congruence|done|exists D; split; done]].
    destruct (ServerRTCQueue.bufferQueue a) as [|c q] eqn:Eq; cbn.
    + split_and!; [lia|done|done|]. exists D. split; done.
    + unfold ServerRTCQueue.process_one. rewrite Eq. cbn. split_and!.
      * cbn in Hlen. lia.
      * congruence.
      * congruence.
      * exists (D ++ [c]). split; [rewrite Hdel, map_app; done|].
        rewrite <- app_assoc. done.
Qed.

(** X14: for any sequence of [media] messages and timer firings, the
    inbound queue holds at most 50 chunks, an idle session has an empty
    queue, and the chunks delivered so far followed by the queue form a
    subsequence of the pushed chunks, in arrival order; each is delivered
    as its decoded samples. *)
Theorem audio_queue_invariant evs :
  let a := ServerRTCQueue.aq_run ServerRTCQueue.audio_init evs in
  (length (ServerRTCQueue.bufferQueue a) <= ServerRTCQueue.maxQueueSize)%nat
  /\ ServerRTCQueue.loopPending a = ServerRTCQueue.isProcessing a
  /\ (ServerRTCQueue.isProcessing a = false -> ServerRTCQueue.bufferQueue a = [])
  /\ exists D, ServerRTCQueue.delivered a = map decode_pure D
       /\ (D ++ ServerRTCQueue.bufferQueue a) `sublist_of` ServerRTCQueue.aq_pushed evs.
Proof.
  induction evs as [|e evs IH] using rev_ind.
  - cbn. split_and!; [lia|done|done|]. exists []. split; [done|apply sublist_nil_l].
  - cbn zeta in *. unfold ServerRTCQueue.aq_run in *. rewrite foldl_app. cbn [foldl].
    destruct IH as (Hlen & Hpend & Hidle & D & Hdel & Hsub).
    unfold ServerRTCQueue.aq_pushed. rewrite omap_app. fold (ServerRTCQueue.aq_pushed evs) (ServerRTCQueue.aq_pushed [e]).
    exact (aq_step_inv _ e _ D Hlen Hpend Hidle Hdel Hsub).
Qed.

(** X15: once a processing loop is pending, [n + 1] timer firings
    deliver the [n] queued chunks in order, one per firing, and leave the
    session idle. *)
Theorem audio_queue_drain (a : ServerRTCQueue.AudioSession) :
  ServerRTCQueue.loopPending a = true ->
  ServerRTCQueue.aq_run a (repeat ServerRTCQueue.AqTimer (S (length (ServerRTCQueue.bufferQueue a))))
  = ServerRTCQueue.mkAudioSession [] false false (ServerRTCQueue.delivered a ++ map decode_pure (ServerRTCQueue.bufferQueue a)).
Proof.
  destruct a as [q p l d]. cbn [ServerRTCQueue.loopPending ServerRTCQueue.bufferQueue ServerRTCQueue.delivered]. intros ->. revert p d.
  induction q as [|c q IH]; intros p d.
  - cbn. rewrite app_nil_r. done.
  - change (repeat ServerRTCQueue.AqTimer (S (length (c :: q))))
      with (ServerRTCQueue.AqTimer :: repeat ServerRTCQueue.AqTimer (S (length q))).
    unfold ServerRTCQueue.aq_run. cbn [foldl]. fold (ServerRTCQueue.aq_run (ServerRTCQueue.aq_step (ServerRTCQueue.mkAudioSession (c :: q) p true d) ServerRTCQueue.AqTimer)
                                           (repeat ServerRTCQueue.AqTimer (S (length q)))).
    change (ServerRTCQueue.aq_step (ServerRTCQueue.mkAudioSession (c :: q) p true d) ServerRTCQueue.AqTimer)
      with (ServerRTCQueue.mkAudioSession q p true (d ++ [decode_pure c])).
    rewrite IH. rewrite <- app_assoc. done.
Qed.

(** X16: while [isStreamingAudio] is false, no [audio_started] arrives
    and no [sendAudioToTwilio] call is waiting on its timer, neither audio
    deltas nor audio-track frames send anything to Twilio, no call is
    started, and the chunk counter does not move. *)
Theorem no_audio_while_not_streaming (sid : string) (w : Part002Rtc.world) evs :
  Part002Rtc.isStreamingAudio w = false ->
  Part002Rtc.pending w = [] ->
  Part002Rtc.EvDataChannel Part002Rtc.AudioStarted ∉ evs ->
  let w' := Part002Rtc.run sid w evs in
  Part002Rtc.sent w' = Part002Rtc.sent w
  /\ Part002Rtc.mediaChunkCounter w' = Part002Rtc.mediaChunkCounter w
  /\ Part002Rtc.isStreamingAudio w' = false
  /\ Part002Rtc.pending w' = [].
Proof.
  revert w. induction evs as [|e evs IH]; intros w Hs Hp Hn w'; [done|].
  apply not_elem_of_cons in Hn as [He Hn].
  unfold w', Part002Rtc.run. cbn [foldl]. fold (Part002Rtc.run sid (Part002Rtc.step sid w e) evs).
  assert (Hstep : Part002Rtc.sent (Part002Rtc.step sid w e) = Part002Rtc.sent w
                  /\ Part002Rtc.mediaChunkCounter (Part002Rtc.step sid w e) = Part002Rtc.mediaChunkCounter w
                  /\ Part002Rtc.isStreamingAudio (Part002Rtc.step sid w e) = false
                  /\ Part002Rtc.pending (Part002Rtc.step sid w e) = []).
  { destruct e as [m|[b|]|k|st]; cbn [Part002Rtc.step].
    - destruct m as [[d|]| | |]; cbn [Part002Rtc.handleOpenAIMessage]; try done.
      destruct (alloc (ABytes d) (Part002Rtc.buffers w)) as [?|[p h1]]; [done|].
      cbn. rewrite Hs. done.
    - unfold Part002Rtc.onSinkData. rewrite Hs. done.
    - done.
    - unfold Part002Rtc.resume_call. rewrite Hp. done.
    - done. }
  destruct Hstep as (H1 & H2 & H3 & H4).
  destruct (IH (Part002Rtc.step sid w e) H3 H4 Hn) as (H5 & H6 & H7 & H8).
  split_and!; congruence.
Qed.

(** X2: [writeInt16LE] followed by [readInt16LE] at the same offset
    gives back every 16-bit signed value, and writing back the value read
    from any two bytes reproduces those bytes. *)
Theorem int16_le_roundtrip :
  (forall v, -32768 <= v <= 32767 -> int16_at (le_bytes v) 0 = v)
  /\ (forall lo hi, 0 <= lo < 256 -> 0 <= hi < 256 -> le_bytes (int16_at [lo; hi] 0) = [lo; hi]).
Proof. split; [exact int16_le_bytes | exact le_bytes_int16]. Qed.

Lemma int16_le_roundtrip_witness :
  int16_at (le_bytes (-2)) 0 = -2 /\ le_bytes (int16_at [200; 255] 0) = [200; 255].
Proof.
  split; [apply (proj1 int16_le_roundtrip); lia | apply (proj2 int16_le_roundtrip); lia].
Defined.

Lemma stop_cleans_session_witness :
  let w := ServerWs.mkWorld (<["CA1"%string := 1%nat]> ∅)
             (<[1%nat := ServerWs.mkStreamSession 5 7 "CA1" 0]> ∅)
             (<[5%nat := OPEN]> (<[7%nat := OPEN]> (<[9%nat := OPEN]> ∅))) ∅ [] in
  ServerWs.wf w
  /\ (let w' := ServerWs.onStop "CA1" 9 w in
      ServerWs.sessions w' = delete "CA1"%string (ServerWs.sessions w)
      /\ ServerWs.objs w' = ServerWs.objs w
      /\ ServerWs.ready w' = (if ServerWs.is_open w 5
                              then <[5%nat := CLOSING]> (ServerWs.ready w)
                              else ServerWs.ready w)
      /\ ServerWs.sent w' = ServerWs.sent w
           ++ (if ServerWs.is_open w 9 then [(9%nat, Mark "CA1" "disconnected"%string)] else [])).
Proof.
  intros w.
  assert (Hwf : ServerWs.wf w).
  { intros k r Hk. cbn in Hk.
    destruct (decide (k = "CA1"%string)) as [->|H1].
    - rewrite lookup_insert_eq in Hk. injection Hk as <-. eexists. split; reflexivity.
    - rewrite lookup_insert_ne in Hk by congruence. rewrite lookup_empty in Hk. discriminate. }
  split; [exact Hwf|].
  apply (stop_cleans_session w "CA1" 9 1 (ServerWs.mkStreamSession 5 7 "CA1" 0)).
  - discriminate.
  - exact Hwf.
  - reflexivity.
  - reflexivity.
  - cbn. lia.
Defined.

Lemma restart_then_old_close_witness :
  let w := ServerWs.mkWorld ∅ ∅ (<[1%nat := OPEN]> ∅) ∅ [] in
  let w1 := ServerWs.onStart true "CA1" 1 w in
  let r1 := fresh (dom (ServerWs.objs w)) in
  let o1 := fresh (dom (ServerWs.ready w)) in
  let w2 := ServerWs.onStart true "CA1" 1 w1 in
  let r2 := fresh (dom (ServerWs.objs w1)) in
  let o2 := fresh (dom (ServerWs.ready w1)) in
  let w3 := ServerWs.onOpenAIClose r1 w2 in
  "CA1"%string <> EmptyString
  /\ ServerWs.sessions w2 !! "CA1"%string = Some r2 /\ r2 <> r1 /\ o2 <> o1
  /\ ServerWs.ready w2 !! o1 = Some CONNECTING
  /\ ServerWs.sessions w3 !! "CA1"%string = None
  /\ ServerWs.ready w3 !! o2 = Some CONNECTING.
Proof.
  intros w w1 r1 o1 w2 r2 o2 w3.
  assert (Hsid : "CA1"%string <> EmptyString) by discriminate.
  split; [exact Hsid|].
  exact (restart_then_old_close w "CA1" 1 1 Hsid).
Defined.

Lemma start_open_media_witness :
  let w := ServerWs.mkWorld ∅ ∅ (<[1%nat := OPEN]> ∅) ∅ [] in
  let o := fresh (dom (ServerWs.ready w)) in
  let w3 := ServerWs.onMedia "CA1" (Some [0; 1; 0; 2])
              (ServerWs.onOpenAIOpen o (ServerWs.onStart true "CA1" 1 w)) in
  "CA1"%string <> EmptyString
  /\ ServerWs.sent w3
     = ServerWs.sent w
       ++ (if ServerWs.is_open w 1 then [(1%nat, Mark "CA1" "connected"%string)] else [])
       ++ [(o, ResponseCreate); (o, AudioIn (resample_bytes_pure [0; 1; 0; 2] 8000 24000))].
Proof.
  intros w o w3.
  assert (Hsid : "CA1"%string <> EmptyString) by discriminate.
  split; [exact Hsid|].
  exact (start_open_media w "CA1" 1 [0; 1; 0; 2] Hsid).
Defined.

Lemma audio_queue_drain_witness :
  let a := ServerRTCQueue.mkAudioSession [[1; 0]; [2; 0; 3; 0]] true true [] in
  ServerRTCQueue.loopPending a = true
  /\ ServerRTCQueue.aq_run a (repeat ServerRTCQueue.AqTimer 3)
     = ServerRTCQueue.mkAudioSession [] false false
         (ServerRTCQueue.delivered a ++ map decode_pure (ServerRTCQueue.bufferQueue a)).
Proof.
  intros a. split; [reflexivity|].
  exact (audio_queue_drain a eq_refl).
Defined.

Lemma no_audio_while_not_streaming_witness :
  let w := Part002Rtc.mkWorld false 0 OPEN ∅ [] [] in
  let evs := [Part002Rtc.EvDataChannel (Part002Rtc.DeltaMsg (Some [0; 64]));
              Part002Rtc.EvSinkFrame (Some [1; 0; 2; 0]);
              Part002Rtc.EvResume 0;
              Part002Rtc.EvDataChannel Part002Rtc.AudioStopped] in
  Part002Rtc.isStreamingAudio w = false
  /\ Part002Rtc.pending w = []
  /\ (Part002Rtc.EvDataChannel Part002Rtc.AudioStarted ∉ evs)
  /\ (let w' := Part002Rtc.run "CA1" w evs in
      Part002Rtc.sent w' = Part002Rtc.sent w
      /\ Part002Rtc.mediaChunkCounter w' = Part002Rtc.mediaChunkCounter w
      /\ Part002Rtc.isStreamingAudio w' = false
      /\ Part002Rtc.pending w' = []).
Proof.
  intros w evs.
  assert (Hn : Part002Rtc.EvDataChannel Part002Rtc.AudioStarted ∉ evs).
  { unfold evs. rewrite !not_elem_of_cons. split_and!; try discriminate. apply not_elem_of_nil. }
  split; [reflexivity|]. split; [reflexivity|]. split; [exact Hn|].
  exact (no_audio_while_not_streaming "CA1" w evs eq_refl eq_refl Hn).
Defined.
